(** * SafePaws AI: the bite-risk scoring engine and the JSON document store

    A shallow embedding of the two components of the application that carry
    a contract:

    - [pages/ai_detection.py]: [calculate_bite_risk_score] and
      [generate_safety_recommendations];
    - [utils/storage.py]: [read] and [write], together with a model of the
      part of Python's [json] module they call;

    and of what is built on them: the helpers of [pages/ai_detection.py],
    the accounts of [utils/auth.py], and the roles and the audit log of
    [components.py].

    Python dicts with string keys are finite maps ([gmap string _]); Python
    integers are [Z]. *)

From Stdlib Require Import ZArith NArith Lia Ascii DecimalFacts DecimalZ.
From stdpp Require Import base option list gmap strings fin_maps.

Local Open Scope Z_scope.

(** ** pages/ai_detection.py *)

Module AiDetection.

(** A questionnaire response set: question key to selected option. *)
Abbreviation responses := (gmap string string).

(** The literal [score_map] of [calculate_bite_risk_score]: one weight table
    per question. *)
Definition score_map : gmap string (gmap string Z) :=
  list_to_map
    [ ("aggression",
        list_to_map
          [ ("Friendly/Calm", 0); ("Neutral/Cautious", 5); ("Defensive", 10);
            ("Aggressive/Growling", 20); ("Attacking/Lunging", 30) ]);
      ("body_language",
        list_to_map
          [ ("Relaxed (wagging tail, soft ears)", 0);
            ("Alert (ears up, attentive)", 5);
            ("Tense (stiff body, raised hackles)", 15);
            ("Cowering/Fearful", 10); ("Showing teeth/Snarling", 25) ]);
      ("eye_contact",
        list_to_map
          [ ("Soft/Avoidant", 0); ("Normal", 3); ("Direct stare", 10);
            ("Fixed stare with tension", 20) ]);
      ("territorial",
        list_to_map
          [ ("Not territorial", 0); ("Mild (barking)", 5);
            ("Moderate (blocking path)", 10);
            ("Highly territorial (charging)", 20) ]);
      ("past_behavior",
        list_to_map
          [ ("Never aggressive", 0); ("Rare incidents", 10);
            ("Multiple incidents", 20); ("Frequent attacks", 30) ]);
      ("approach",
        list_to_map
          [ ("Friendly approach", 0); ("Cautious but friendly", 3);
            ("Avoidant/Backing away", 8);
            ("Warning signs (barking/growling)", 15);
            ("Charging/Lunging", 25) ]);
      ("food_guarding",
        list_to_map
          [ ("No guarding", 0); ("Mild (tense when eating)", 5);
            ("Moderate (growls near food)", 12);
            ("Severe (snaps/bites near food)", 20) ]);
      ("space",
        list_to_map
          [ ("Comfortable with proximity", 0); ("Prefers distance", 3);
            ("Shows discomfort when approached", 10);
            ("Actively defends space", 18) ]);
      ("health",
        list_to_map
          [ ("Appears healthy", 0); ("Minor issues (limping)", 5);
            ("Visible injuries", 10);
            ("Signs of rabies/severe illness", 25) ]);
      ("pack",
        list_to_map
          [ ("Alone", 5); ("With one other dog", 3);
            ("In small pack (2-3)", 8); ("Large pack (4+)", 15) ]) ].

(** [score_map.get(key, {}).get(value, 0)] *)
Definition weight (key value : string) : Z :=
  default 0 (default ∅ (score_map !! key) !! value).

(** [sum(... for key, value in responses.items())]: the builtin [sum] starts
    from 0 and adds the items one after the other.  [map_to_list] lists the
    items in an order of its own, not in the order of insertion; the sum of
    integers is the same in any order ([AiDetectionFacts.Zsum_perm]). *)
Definition total_score (r : responses) : Z :=
  foldl (λ acc kv, acc + weight kv.1 kv.2) 0 (map_to_list r).

(** The [if]/[elif] chain on [total_score]. *)
Definition risk_level (total : Z) : string :=
  if total <=? 20 then "Low Risk"
  else if total <=? 50 then "Moderate Risk"
  else if total <=? 80 then "High Risk"
  else "Critical Risk".

Definition calculate_bite_risk_score (r : responses) : Z * string :=
  let total := total_score r in
  (total, risk_level total).

(** [responses.get(q) in [o1, o2, ...]]: a missing key gives [None], which is
    in no list of strings. *)
Definition answered_in (r : responses) (q : string) (opts : list string) : bool :=
  match r !! q with
  | Some v => bool_decide (v ∈ opts)
  | None => false
  end.

(** [responses.get(q) == o] *)
Definition answered_is (r : responses) (q o : string) : bool :=
  bool_decide (r !! q = Some o).

(** [if cond: recommendations.append(msg)] on the list built so far. *)
Definition append_if (cond : bool) (msg : string) (recs : list string) : list string :=
  if cond then recs ++ [msg] else recs.

Definition msg_aggression : string := "🚨 Maintain safe distance - Do not approach".
Definition msg_territorial : string :=
  "🚶 Avoid entering the dog's territory - Choose alternate route".
Definition msg_approach : string := "⛔ Do not attempt to pet or interact".
Definition msg_health : string :=
  "⚠️ RABIES RISK - Contact health department immediately".
Definition msg_pack : string :=
  "👥 Pack behavior increases unpredictability - Extra caution needed".
Definition msg_food : string := "🍖 Never approach when dog is eating or near food".

Definition generate_safety_recommendations (r : responses) : list string :=
  let recs := [] in
  let recs := append_if (answered_in r "aggression"
                           ["Aggressive/Growling"; "Attacking/Lunging"])
                        msg_aggression recs in
  let recs := append_if (answered_in r "territorial"
                           ["Moderate (blocking path)"; "Highly territorial (charging)"])
                        msg_territorial recs in
  let recs := append_if (answered_in r "approach"
                           ["Warning signs (barking/growling)"; "Charging/Lunging"])
                        msg_approach recs in
  let recs := append_if (answered_is r "health" "Signs of rabies/severe illness")
                        msg_health recs in
  let recs := append_if (answered_in r "pack"
                           ["In small pack (2-3)"; "Large pack (4+)"])
                        msg_pack recs in
  let recs := append_if (answered_in r "food_guarding"
                           ["Moderate (growls near food)"; "Severe (snaps/bites near food)"])
                        msg_food recs in
  recs.

(** *** Sums of weights and bounds on them *)

Definition Zsum (l : list Z) : Z := foldr Z.add 0 l.

Definition entry_weight (kv : string * string) : Z := weight kv.1 kv.2.

(** A property of (question, option, weight) triples holds of every entry of
    [score_map]. *)
Definition table_Forall (P : string → string → Z → Prop) : Prop :=
  map_Forall (λ q tbl, map_Forall (λ o w, P q o w) tbl) score_map.

(** The ten question keys, and the largest weight of each question's table. *)
Definition question_max : list (string * Z) :=
  [ ("aggression", 30); ("body_language", 25); ("eye_contact", 20);
    ("territorial", 20); ("past_behavior", 30); ("approach", 25);
    ("food_guarding", 20); ("space", 18); ("health", 25); ("pack", 15) ].

Definition questions : list string := question_max.*1.

Definition bound (q : string) : Z :=
  default 0 ((list_to_map question_max : gmap string Z) !! q).

(** The contribution of question [q] to the total: the weight of its answer,
    nothing when it is not answered. *)
Definition contribution (r : responses) (q : string) : Z :=
  match r !! q with Some o => weight q o | None => 0 end.

(** *** The recommendation rules, in the words of the specification *)

(** A trigger rule: the question it looks at, the options that trigger it and
    the advisory it appends. *)
Record rule := Rule { rule_question : string; rule_triggers : list string;
                      rule_advisory : string }.

(** The rules in their evaluation order: aggression, territorial, approach,
    health, pack, food-guarding. *)
Definition rules : list rule :=
  [ Rule "aggression" ["Aggressive/Growling"; "Attacking/Lunging"] msg_aggression;
    Rule "territorial" ["Moderate (blocking path)"; "Highly territorial (charging)"]
         msg_territorial;
    Rule "approach" ["Warning signs (barking/growling)"; "Charging/Lunging"]
         msg_approach;
    Rule "health" ["Signs of rabies/severe illness"] msg_health;
    Rule "pack" ["In small pack (2-3)"; "Large pack (4+)"] msg_pack;
    Rule "food_guarding"
         ["Moderate (growls near food)"; "Severe (snaps/bites near food)"] msg_food ].

(** A rule fires when the answer to its question is one of its triggers. *)
Definition fires (r : responses) (ru : rule) : bool :=
  answered_in r (rule_question ru) (rule_triggers ru).

Definition fired_advisories (r : responses) : list string :=
  rule_advisory <$> List.filter (fires r) rules.

(** *** The scoring rule, in the words of the specification *)

(** The weight the lookup table assigns to a (question, option) pair; a pair
    absent from the table contributes 0. *)
Definition spec_weight (q o : string) : Z :=
  match score_map !! q with
  | Some tbl => match tbl !! o with Some w => w | None => 0 end
  | None => 0
  end.

(** The sum, over the entries of the mapping, of their weights. *)
Definition spec_score (r : responses) : Z :=
  Zsum ((λ kv, spec_weight kv.1 kv.2) <$> map_to_list r).

(** The four buckets, from the lowest to the highest. *)
Definition levels : list string :=
  ["Low Risk"; "Moderate Risk"; "High Risk"; "Critical Risk"].

(** Position of a level in [levels]. *)
Definition level_rank (l : string) : nat :=
  if bool_decide (l = "Low Risk") then 0%nat
  else if bool_decide (l = "Moderate Risk") then 1%nat
  else if bool_decide (l = "High Risk") then 2%nat
  else 3%nat.

(** [o] is a lowest-weighted option of the table [tbl]. *)
Definition lowest_weighted (tbl : gmap string Z) (o : string) : Prop :=
  ∃ w, tbl !! o = Some w ∧ map_Forall (λ _ w', w ≤ w') tbl.

(** Every question of the table is answered with a lowest-weighted option. *)
Definition all_friendliest (r : responses) : Prop :=
  map_Forall (λ q tbl, ∃ o, r !! q = Some o ∧ lowest_weighted tbl o) score_map.

(** The smallest weight of each question's table. *)
Definition question_min : list (string * Z) :=
  [ ("aggression", 0); ("body_language", 0); ("eye_contact", 0);
    ("territorial", 0); ("past_behavior", 0); ("approach", 0);
    ("food_guarding", 0); ("space", 0); ("health", 0); ("pack", 3) ].

Definition floor (q : string) : Z :=
  default 0 ((list_to_map question_min : gmap string Z) !! q).

(** *** Response sets used as test points *)

Definition friendliest_responses : responses :=
  list_to_map
    [ ("aggression", "Friendly/Calm");
      ("body_language", "Relaxed (wagging tail, soft ears)");
      ("eye_contact", "Soft/Avoidant"); ("territorial", "Not territorial");
      ("past_behavior", "Never aggressive"); ("approach", "Friendly approach");
      ("food_guarding", "No guarding"); ("space", "Comfortable with proximity");
      ("health", "Appears healthy"); ("pack", "With one other dog") ].

(** The first option offered for each question. *)
Definition first_option_responses : responses :=
  <["pack":="Alone"]> friendliest_responses.

Definition worst_responses : responses :=
  list_to_map
    [ ("aggression", "Attacking/Lunging");
      ("body_language", "Showing teeth/Snarling");
      ("eye_contact", "Fixed stare with tension");
      ("territorial", "Highly territorial (charging)");
      ("past_behavior", "Frequent attacks"); ("approach", "Charging/Lunging");
      ("food_guarding", "Severe (snaps/bites near food)");
      ("space", "Actively defends space");
      ("health", "Signs of rabies/severe illness"); ("pack", "Large pack (4+)") ].

(** The end-to-end scenario of the specification. *)
Definition scenario_responses : responses :=
  list_to_map
    [ ("aggression", "Attacking/Lunging");
      ("body_language", "Showing teeth/Snarling");
      ("eye_contact", "Fixed stare with tension");
      ("territorial", "Highly territorial (charging)");
      ("past_behavior", "Frequent attacks"); ("approach", "Charging/Lunging");
      ("food_guarding", "Severe (snaps/bites near food)");
      ("space", "Actively defends space");
      ("health", "Appears healthy"); ("pack", "Alone") ].

(** The table [score_map] holds for the aggression question. *)
Definition aggression_weights : gmap string Z :=
  list_to_map
    [ ("Friendly/Calm", 0); ("Neutral/Cautious", 5); ("Defensive", 10);
      ("Aggressive/Growling", 20); ("Attacking/Lunging", 30) ].

(** Response sets whose totals sit on the two sides of each threshold. *)
Definition responses_20 : responses :=
  list_to_map [ ("aggression", "Aggressive/Growling") ].
Definition responses_21 : responses :=
  list_to_map [ ("space", "Actively defends space"); ("eye_contact", "Normal") ].
Definition responses_50 : responses :=
  list_to_map [ ("aggression", "Attacking/Lunging");
                ("eye_contact", "Fixed stare with tension") ].
Definition responses_51 : responses :=
  list_to_map [ ("aggression", "Attacking/Lunging");
                ("space", "Actively defends space"); ("eye_contact", "Normal") ].
Definition responses_80 : responses :=
  list_to_map [ ("aggression", "Attacking/Lunging");
                ("past_behavior", "Frequent attacks");
                ("eye_contact", "Fixed stare with tension") ].
Definition responses_81 : responses :=
  list_to_map [ ("aggression", "Attacking/Lunging");
                ("past_behavior", "Frequent attacks");
                ("space", "Actively defends space"); ("eye_contact", "Normal") ].

End AiDetection.

(** ** Python values that travel through the document store *)

Module Py.

(** A Python [str] is a sequence of code points; so is the text of a file
    opened in text mode. *)
Abbreviation str := (list N).

(** The code points of an ASCII literal. *)
Definition txt (s : string) : str :=
  Ascii.N_of_ascii <$> String.list_ascii_of_string s.

(** A [float] is kept as the numeral [float.__repr__] writes for it, or as
    one of the three special values.  Nothing below computes with floats;
    two floats are compared by their numerals, and [FNaN], which Python
    holds different from itself, is kept out of every statement that one
    float equals another. *)
Inductive float :=
| FNumeral (numeral : str)
| FInfinity
| FNegInfinity
| FNaN.

(** The dictionary keys [json.dump] accepts ([float] keys are left out). *)
Inductive key :=
| KStr (s : str)
| KInt (z : Z)
| KBool (b : bool)
| KNone.

(** The values: the JSON-native ones, and [PObj] for any other object (a
    [datetime], say), known here only by what [str()] returns on it.  A dict
    is the list of its items in insertion order. *)
#[warnings="-register-all"] Inductive value :=
| PNone
| PBool (b : bool)
| PInt (z : Z)
| PFloat (f : float)
| PStr (s : str)
| PList (items : list value)
| PDict (items : list (key * value))
| PObj (shown : str).

#[global] Instance key_eq_dec : EqDecision key.
Proof. solve_decision. Defined.

Inductive type :=
| NoneType | bool_type | int_type | float_type | str_type | list_type
| dict_type | other_type.

(** [type(v)] *)
Definition type_of (v : value) : type :=
  match v with
  | PNone => NoneType
  | PBool _ => bool_type
  | PInt _ => int_type
  | PFloat _ => float_type
  | PStr _ => str_type
  | PList _ => list_type
  | PDict _ => dict_type
  | PObj _ => other_type
  end.

Definition type_eqb (a b : type) : bool :=
  match a, b with
  | NoneType, NoneType | bool_type, bool_type | int_type, int_type
  | float_type, float_type | str_type, str_type | list_type, list_type
  | dict_type, dict_type => true
  | _, _ => false
  end.

(** [isinstance(v, t)]: the type of [v] is [t] or a subclass of it; among
    the types above the only proper subclass is [bool], of [int].  Against
    [other_type], which stands for any class outside the JSON types, the
    answer is [false]: the only values the store tests are parsed from JSON
    and are instances of no such class. *)
Definition isinstance (v : value) (t : type) : bool :=
  type_eqb (type_of v) t ||
  match type_of v, t with bool_type, int_type => true | _, _ => false end.

(** A list or a dict. *)
Definition is_container (v : value) : bool :=
  match v with
  | PList _ | PDict _ => true
  | _ => false
  end.

(** No object outside the JSON types occurs among the values. *)
Fixpoint json_types_only (v : value) : bool :=
  match v with
  | PObj _ => false
  | PList items => forallb json_types_only items
  | PDict items => forallb (λ kv, json_types_only kv.2) items
  | _ => true
  end.

(** Equality of keys as a dict sees it; [True == 1] and [False == 0]. *)
Definition key_eqb (a b : key) : bool :=
  match a, b with
  | KStr s, KStr s' => bool_decide (s = s')
  | KInt z, KInt z' => bool_decide (z = z')
  | KBool b, KBool b' => bool_decide (b = b')
  | KInt z, KBool b | KBool b, KInt z => bool_decide (z = if b then 1 else 0)
  | KNone, KNone => true
  | _, _ => false
  end.

(** [d[k] = v] on the item list: an existing key keeps its place and takes
    the new value, a new key goes to the end. *)
Fixpoint dict_set (d : list (key * value)) (k : key) (v : value)
    : list (key * value) :=
  match d with
  | [] => [(k, v)]
  | (k', v') :: d' =>
      if key_eqb k' k then (k', v) :: d' else (k', v') :: dict_set d' k v
  end.

(** [dict(pairs)] *)
Definition dict_of_pairs (pairs : list (key * value)) : list (key * value) :=
  foldl (λ d kv, dict_set d kv.1 kv.2) [] pairs.

End Py.

(** ** The part of Python's [json] module the store calls

    [json.dump(data, f, indent=2, default=str)] and [json.load(f)], after
    [json/encoder.py], [json/decoder.py] and [json/scanner.py] of the
    standard library.  Integers are unbounded and nesting is unlimited: the
    interpreter's limits on the digits of an [int] and on the depth of
    recursion are not part of the model. *)

Module Json.
Import Py.

Local Open Scope N_scope.

(** *** Encoder *)

(** One lower-case hexadecimal digit. *)
Definition hex_digit (d : N) : N := if d <? 10 then 48 + d else 87 + d.

(** ['{0:04x}'.format(n)], for [n < 0x10000]. *)
Definition hex4 (n : N) : str :=
  [ hex_digit (n / 4096 mod 16); hex_digit (n / 256 mod 16);
    hex_digit (n / 16 mod 16); hex_digit (n mod 16) ].

(** The backslash and the letter u. *)
Definition backslash_u : str := [92; 117].

(** The replacement of one character in [encode_basestring_ascii]: the
    short escapes of [ESCAPE_DCT], the characters from space to tilde as
    they are, [\uXXXX] below 0x10000 and a surrogate pair above. *)
Definition escape_char (c : N) : str :=
  if c =? 34 then [92; 34]
  else if c =? 92 then [92; 92]
  else if c =? 8 then [92; 98]
  else if c =? 12 then [92; 102]
  else if c =? 10 then [92; 110]
  else if c =? 13 then [92; 114]
  else if c =? 9 then [92; 116]
  else if (32 <=? c) && (c <=? 126) then [c]
  else if c <? 65536 then backslash_u ++ hex4 c
  else
    let n := c - 65536 in
    let s1 := N.lor 55296 (N.land (N.shiftr n 10) 1023) in
    let s2 := N.lor 56320 (N.land n 1023) in
    backslash_u ++ hex4 s1 ++ backslash_u ++ hex4 s2.

Definition encode_basestring_ascii (s : str) : str :=
  [34] ++ concat (escape_char <$> s) ++ [34].

Definition digit_char (d : N) : N := 48 + d.

(** The characters of a decimal numeral, most significant digit first. *)
Fixpoint uint_text (u : Decimal.uint) : str :=
  match u with
  | Decimal.Nil => []
  | Decimal.D0 u => digit_char 0 :: uint_text u
  | Decimal.D1 u => digit_char 1 :: uint_text u
  | Decimal.D2 u => digit_char 2 :: uint_text u
  | Decimal.D3 u => digit_char 3 :: uint_text u
  | Decimal.D4 u => digit_char 4 :: uint_text u
  | Decimal.D5 u => digit_char 5 :: uint_text u
  | Decimal.D6 u => digit_char 6 :: uint_text u
  | Decimal.D7 u => digit_char 7 :: uint_text u
  | Decimal.D8 u => digit_char 8 :: uint_text u
  | Decimal.D9 u => digit_char 9 :: uint_text u
  end.

(** [int.__repr__] *)
Definition int_repr (z : Z) : str :=
  match Z.to_int z with
  | Decimal.Pos u => uint_text u
  | Decimal.Neg u => 45 :: uint_text u
  end.

(** [float.__repr__], with the spelling the encoder gives the special
    values. *)
Definition float_repr (f : float) : str :=
  match f with
  | FNumeral numeral => numeral
  | FInfinity => txt "Infinity"
  | FNegInfinity => txt "-Infinity"
  | FNaN => txt "NaN"
  end.

(** The coercion of a dict key to a string in [_iterencode_dict]. *)
Definition key_str (k : key) : str :=
  match k with
  | KStr s => s
  | KInt z => int_repr z
  | KBool true => txt "true"
  | KBool false => txt "false"
  | KNone => txt "null"
  end.

(** ['\n' + _indent * level], with [_indent] two spaces. *)
Definition newline_indent (level : nat) : str := 10 :: replicate (2 * level) 32.

(** The chunks of a container, the separator between two of them. *)
Fixpoint join (sep : str) (chunks : list str) : str :=
  match chunks with
  | [] => []
  | [c] => c
  | c :: chunks => c ++ sep ++ join sep chunks
  end.

(** [_iterencode] at a given indentation level.  An object that is none of
    the JSON types goes through [default=str] and is written as the string
    [str()] gives. *)
Fixpoint encode (level : nat) (v : value) : str :=
  match v with
  | PNone => txt "null"
  | PBool true => txt "true"
  | PBool false => txt "false"
  | PInt z => int_repr z
  | PFloat f => float_repr f
  | PStr s => encode_basestring_ascii s
  | PObj shown => encode_basestring_ascii shown
  | PList [] => txt "[]"
  | PList items =>
      [91] ++ newline_indent (S level) ++
      join (44 :: newline_indent (S level)) (encode (S level) <$> items) ++
      newline_indent level ++ [93]
  | PDict [] => txt "{}"
  | PDict items =>
      [123] ++ newline_indent (S level) ++
      join (44 :: newline_indent (S level))
           ((λ kv, encode_basestring_ascii (key_str kv.1) ++ [58; 32] ++
                   encode (S level) kv.2) <$> items) ++
      newline_indent level ++ [125]
  end.

(** [json.dumps(data, indent=2, default=str)] *)
Definition dumps (data : value) : str := encode 0 data.

(** *** Decoder *)

(** [WHITESPACE]: space, tab, newline, carriage return. *)
Definition is_ws (c : N) : bool :=
  (c =? 32) || (c =? 9) || (c =? 10) || (c =? 13).

Fixpoint skip_ws (s : str) : str :=
  match s with
  | c :: s' => if is_ws c then skip_ws s' else s
  | [] => []
  end.

Definition is_digit (c : N) : bool := (48 <=? c) && (c <=? 57).

(** The value of a hexadecimal digit, in either case. *)
Definition hex_value (c : N) : option N :=
  if is_digit c then Some (c - 48)
  else if (97 <=? c) && (c <=? 102) then Some (c - 87)
  else if (65 <=? c) && (c <=? 70) then Some (c - 55)
  else None.

(** [_decode_uXXXX]: four hexadecimal digits, or an error. *)
Definition decode_uXXXX (h1 h2 h3 h4 : N) : option N :=
  match hex_value h1, hex_value h2, hex_value h3, hex_value h4 with
  | Some x1, Some x2, Some x3, Some x4 =>
      Some (((x1 * 16 + x2) * 16 + x3) * 16 + x4)
  | _, _, _, _ => None
  end.

(** [BACKSLASH]: the character a one-letter escape stands for. *)
Definition unescape (e : N) : option N :=
  if e =? 34 then Some 34
  else if e =? 92 then Some 92
  else if e =? 47 then Some 47
  else if e =? 98 then Some 8
  else if e =? 102 then Some 12
  else if e =? 110 then Some 10
  else if e =? 114 then Some 13
  else if e =? 116 then Some 9
  else None.

Definition is_high_surrogate (u : N) : bool := (55296 <=? u) && (u <=? 56319).
Definition is_low_surrogate (u : N) : bool := (56320 <=? u) && (u <=? 57343).

(** [_append(char)] on the result of scanning the rest. *)
Definition add_char (c : N) (r : option (str * str)) : option (str * str) :=
  match r with
  | Some (chars, rest) => Some (c :: chars, rest)
  | None => None
  end.

(** [py_scanstring] with [strict=True], from the character after the opening
    quote: the string and the text after the closing quote, or an error. *)
Fixpoint scanstring (s : str) : option (str * str) :=
  match s with
  | [] => None
  | c :: s1 =>
      if c =? 34 then Some ([], s1)
      else if c =? 92 then
        match s1 with
        | [] => None
        | e :: s2 =>
            if e =? 117 then
              match s2 with
              | h1 :: h2 :: h3 :: h4 :: s3 =>
                  match decode_uXXXX h1 h2 h3 h4 with
                  | None => None
                  | Some uni =>
                      if is_high_surrogate uni then
                        match s3 with
                        | b :: u :: s3' =>
                            if (b =? 92) && (u =? 117) then
                              match s3' with
                              | g1 :: g2 :: g3 :: g4 :: s4 =>
                                  match decode_uXXXX g1 g2 g3 g4 with
                                  | None => None
                                  | Some uni2 =>
                                      if is_low_surrogate uni2 then
                                        add_char
                                          (65536 +
                                           N.lor (N.shiftl (uni - 55296) 10)
                                                 (uni2 - 56320))
                                          (scanstring s4)
                                      else add_char uni (scanstring s3)
                                  end
                              | _ => None
                              end
                            else add_char uni (scanstring s3)
                        | _ => add_char uni (scanstring s3)
                        end
                      else add_char uni (scanstring s3)
                  end
              | _ => None
              end
            else
              match unescape e with
              | Some ch => add_char ch (scanstring s2)
              | None => None
              end
        end
      else if c <? 32 then None
      else add_char c (scanstring s1)
  end.

Definition digit_cons (c : N) (u : Decimal.uint) : Decimal.uint :=
  if c =? 48 then Decimal.D0 u
  else if c =? 49 then Decimal.D1 u
  else if c =? 50 then Decimal.D2 u
  else if c =? 51 then Decimal.D3 u
  else if c =? 52 then Decimal.D4 u
  else if c =? 53 then Decimal.D5 u
  else if c =? 54 then Decimal.D6 u
  else if c =? 55 then Decimal.D7 u
  else if c =? 56 then Decimal.D8 u
  else Decimal.D9 u.

(** The longest run of decimal digits at the head of the text. *)
Fixpoint scan_digits (s : str) : Decimal.uint * str :=
  match s with
  | c :: s' =>
      if is_digit c then
        let '(u, rest) := scan_digits s' in (digit_cons c u, rest)
      else (Decimal.Nil, s)
  | [] => (Decimal.Nil, [])
  end.

(** The integer part of [NUMBER_RE]: an optional minus sign, then either a
    single 0 or a non-zero digit and the digits that follow it.  The result
    is the sign, the digits and the text after them. *)
Definition scan_integer (s : str) : option (bool * Decimal.uint * str) :=
  let '(neg, s1) := match s with
                    | c :: s' => if c =? 45 then (true, s') else (false, s)
                    | [] => (false, s)
                    end in
  match s1 with
  | c :: s2 =>
      if c =? 48 then Some (neg, Decimal.D0 Decimal.Nil, s2)
      else if is_digit c then
        let '(u, rest) := scan_digits s1 in Some (neg, u, rest)
      else None
  | [] => None
  end.

(** The optional fraction of [NUMBER_RE], a dot and at least one digit: the
    text after it when present. *)
Definition scan_frac (s : str) : option str :=
  match s with
  | c :: d :: _ =>
      if (c =? 46) && is_digit d then Some (scan_digits (tail s)).2 else None
  | _ => None
  end.

(** The optional exponent of [NUMBER_RE], e or E, an optional sign and at
    least one digit: the text after it when present. *)
Definition scan_exp (s : str) : option str :=
  match s with
  | c :: s1 =>
      if (c =? 101) || (c =? 69) then
        let s2 := match s1 with
                  | g :: s' => if (g =? 45) || (g =? 43) then s' else s1
                  | [] => s1
                  end in
        match s2 with
        | d :: _ => if is_digit d then Some (scan_digits s2).2 else None
        | [] => None
        end
      else None
  | [] => None
  end.

(** A match of [NUMBER_RE] at the head of the text: an [int] when there is
    neither fraction nor exponent, a [float] otherwise. *)
Definition scan_number (s : str) : option (value * str) :=
  match scan_integer s with
  | None => None
  | Some (neg, u, r0) =>
      let frac := scan_frac r0 in
      let r1 := default r0 frac in
      let exp := scan_exp r1 in
      let r2 := default r1 exp in
      match frac, exp with
      | None, None =>
          Some (PInt (Z.of_int (if neg then Decimal.Neg u else Decimal.Pos u)), r0)
      | _, _ =>
          Some (PFloat (FNumeral (take (length s - length r2) s)), r2)
      end
  end.

(** [s[idx:idx + len(lit)] == lit]: the text after the literal. *)
Fixpoint strip_prefix (lit s : str) : option str :=
  match lit, s with
  | [], _ => Some s
  | a :: lit', b :: s' => if a =? b then strip_prefix lit' s' else None
  | _ :: _, [] => None
  end.

(** [s[idx:idx + 1] == c] *)
Definition starts_with (c : N) (s : str) : bool :=
  match s with
  | c' :: _ => c' =? c
  | [] => false
  end.

(** The keys come out of the parser as strings. *)
Definition string_keys (pairs : list (str * value)) : list (key * value) :=
  (λ kv, (KStr kv.1, kv.2)) <$> pairs.

(** [scan_once], [JSONArray] and [JSONObject].  The three call each other;
    [fuel] bounds the number of nested calls.  [array_items] starts at the
    first value of a non-empty array, [object_items] at the opening quote of
    a key. *)
Fixpoint scan_once (fuel : nat) (s : str) : option (value * str) :=
  match fuel with
  | O => None
  | S fuel =>
      match s with
      | [] => None
      | c :: s' =>
          if c =? 34 then
            match scanstring s' with
            | Some (chars, rest) => Some (PStr chars, rest)
            | None => None
            end
          else if c =? 123 then
            let s1 := skip_ws s' in
            if starts_with 125 s1 then Some (PDict [], tail s1)
            else
              match object_items fuel s1 with
              | Some (pairs, rest) =>
                  Some (PDict (dict_of_pairs (string_keys pairs)), rest)
              | None => None
              end
          else if c =? 91 then
            let s1 := skip_ws s' in
            if starts_with 93 s1 then Some (PList [], tail s1)
            else
              match array_items fuel s1 with
              | Some (values, rest) => Some (PList values, rest)
              | None => None
              end
          else
            match strip_prefix (txt "null") s, strip_prefix (txt "true") s,
                  strip_prefix (txt "false") s with
            | Some rest, _, _ => Some (PNone, rest)
            | _, Some rest, _ => Some (PBool true, rest)
            | _, _, Some rest => Some (PBool false, rest)
            | None, None, None =>
                match scan_number s with
                | Some r => Some r
                | None =>
                    match strip_prefix (txt "NaN") s,
                          strip_prefix (txt "Infinity") s,
                          strip_prefix (txt "-Infinity") s with
                    | Some rest, _, _ => Some (PFloat FNaN, rest)
                    | _, Some rest, _ => Some (PFloat FInfinity, rest)
                    | _, _, Some rest => Some (PFloat FNegInfinity, rest)
                    | None, None, None => None
                    end
                end
            end
      end
  end
with array_items (fuel : nat) (s : str) : option (list value * str) :=
  match fuel with
  | O => None
  | S fuel =>
      match scan_once fuel s with
      | None => None
      | Some (v, r) =>
          match skip_ws r with
          | c :: r' =>
              if c =? 93 then Some ([v], r')
              else if c =? 44 then
                match array_items fuel (skip_ws r') with
                | Some (values, rest) => Some (v :: values, rest)
                | None => None
                end
              else None
          | [] => None
          end
      end
  end
with object_items (fuel : nat) (s : str) : option (list (str * value) * str) :=
  match fuel with
  | O => None
  | S fuel =>
      match s with
      | q :: s1 =>
          if q =? 34 then
            match scanstring s1 with
            | None => None
            | Some (k, r) =>
                match skip_ws r with
                | colon :: r1 =>
                    if colon =? 58 then
                      match scan_once fuel (skip_ws r1) with
                      | None => None
                      | Some (v, r2) =>
                          match skip_ws r2 with
                          | c :: r3 =>
                              if c =? 125 then Some ([(k, v)], r3)
                              else if c =? 44 then
                                match object_items fuel (skip_ws r3) with
                                | Some (pairs, rest) => Some ((k, v) :: pairs, rest)
                                | None => None
                                end
                              else None
                          | [] => None
                          end
                      end
                    else None
                | [] => None
                end
            end
          else None
      | [] => None
      end
  end.

(** [json.loads(s)]: no byte order mark, one value between optional
    whitespace, and nothing after it.  Twice the length of the text is fuel
    enough: with more the scanner returns the same ([JsonFacts.loads_fuel]). *)
Definition loads (s : str) : option value :=
  if starts_with 65279 s then None
  else
    match scan_once (S (2 * length s)) (skip_ws s) with
    | Some (v, rest) =>
        match skip_ws rest with [] => Some v | _ :: _ => None end
    | None => None
    end.

(** *** The values that survive the round trip *)

(** A code point that is a Unicode scalar value: below 0x110000 and not a
    surrogate. *)
Definition is_scalar (c : N) : bool :=
  (c <? 55296) || ((57343 <? c) && (c <? 1114112)).

Definition scalar_str (s : str) : bool := forallb is_scalar s.

Definition string_key (k : key) : bool :=
  match k with
  | KStr s => scalar_str s
  | _ => false
  end.

(** [None], booleans, integers, strings of scalar values, lists of such
    values, and dicts of such values whose keys are strings, each key once. *)
Fixpoint json_native (v : value) : bool :=
  match v with
  | PNone | PBool _ | PInt _ => true
  | PStr s => scalar_str s
  | PFloat _ | PObj _ => false
  | PList items => forallb json_native items
  | PDict items =>
      bool_decide (NoDup items.*1) &&
      forallb (λ kv, string_key kv.1 && json_native kv.2) items
  end.

(** *** The values that come back as they were written

    The round trip loses only three things: a dict key that is not a string
    (written as a string), a high surrogate followed in the string by a low
    surrogate (the two escapes are read back as one character) and a foreign
    object (written as a string).  [NaN] comes back as [NaN], which Python
    does not hold equal to itself, and is left out as well. *)

Definition is_code_point (c : N) : bool := c <? 1114112.

(** No high surrogate is followed by a low surrogate. *)
Fixpoint no_surrogate_pair (s : str) : bool :=
  match s with
  | c :: s' =>
      negb (is_high_surrogate c &&
            match s' with c' :: _ => is_low_surrogate c' | [] => false end) &&
      no_surrogate_pair s'
  | [] => true
  end.

Definition storable_str (s : str) : bool :=
  forallb is_code_point s && no_surrogate_pair s.

(** The numeral of a float is a whole match of [NUMBER_RE] with a fraction
    or an exponent, as every [float.__repr__] of a finite float is. *)
Definition float_numeral (numeral : str) : bool :=
  match scan_number numeral with
  | Some (PFloat _, []) => true
  | _ => false
  end.

Definition storable_float (f : float) : bool :=
  match f with
  | FNumeral numeral => float_numeral numeral
  | FInfinity | FNegInfinity => true
  | FNaN => false
  end.

Definition storable_key (k : key) : bool :=
  match k with
  | KStr s => storable_str s
  | _ => false
  end.

(** [None], booleans, integers, floats other than [NaN], strings without a
    surrogate pair, lists of such values, and dicts of such values whose
    keys are such strings, each key once. *)
Fixpoint storable (v : value) : bool :=
  match v with
  | PNone | PBool _ | PInt _ => true
  | PFloat f => storable_float f
  | PStr s => storable_str s
  | PObj _ => false
  | PList items => forallb storable items
  | PDict items =>
      bool_decide (NoDup items.*1) &&
      forallb (λ kv, storable_key kv.1 && storable kv.2) items
  end.

(** Fuel that is enough to scan the text of a value: one unit for the value
    and one more for each item of a container. *)
Fixpoint need (v : value) : nat :=
  match v with
  | PList items => S (sum_list ((λ x, S (need x)) <$> items))
  | PDict items => S (sum_list ((λ kv, S (need kv.2)) <$> items))
  | _ => 1%nat
  end.

(** What follows the text of a value inside the text of a container, or at
    the end of the document: nothing, a comma or a newline. *)
Definition closes (rest : str) : bool :=
  match rest with
  | [] => true
  | c :: _ => (c =? 44) || (c =? 10)
  end.

(** The first character of the text of a value. *)
Definition value_head (c : N) : bool :=
  (c =? 34) || (c =? 45) || is_digit c || (c =? 91) || (c =? 123) ||
  (c =? 110) || (c =? 116) || (c =? 102) || (c =? 73).

(** *** Notions used in the proofs *)

(** The text does not go on with a digit. *)
Definition no_digit_head (s : str) : Prop :=
  match s with
  | c :: _ => is_digit c = false
  | [] => True
  end.

(** The first digit of a numeral is not 0. *)
Definition nonzero_head (u : Decimal.uint) : Prop :=
  match u with
  | Decimal.Nil | Decimal.D0 _ => False
  | _ => True
  end.

(** The text does not go on with the escape of a low surrogate. *)
Definition no_low_escape (s : str) : Prop :=
  ∀ s', s = 92 :: 117 :: s' →
        ∃ g1 g2 g3 g4 s4 u2,
          s' = g1 :: g2 :: g3 :: g4 :: s4 ∧
          decode_uXXXX g1 g2 g3 g4 = Some u2 ∧ is_low_surrogate u2 = false.

(** The text does not start with whitespace. *)
Definition solid (s : str) : Prop :=
  match s with
  | c :: _ => is_ws c = false
  | [] => True
  end.

(** Enough fuel makes the scanner read the value back from its text, whatever
    the indentation level and the rest of the document. *)
Definition roundtrips (v : value) : Prop :=
  ∀ (level fuel : nat) (rest : str),
    (need v ≤ fuel)%nat → closes rest = true →
    scan_once fuel (encode level v ++ rest) = Some (v, rest).

(** The text of one item of a dict. *)
Definition item_text (level : nat) (kv : key * value) : str :=
  encode_basestring_ascii (key_str kv.1) ++ [58; 32] ++ encode level kv.2.

End Json.

(** ** utils/storage.py *)

Module Storage.
Import Py.

(** The result of a call: a returned value or a raised exception. *)
Inductive outcome (A : Type) :=
| Returned (a : A)
| Raised.
Arguments Returned {A} a.
Arguments Raised {A}.

(** The files of the data directory: path to text content.  The directory
    is there and can be searched, and its files are regular, readable text
    files. *)
Abbreviation files := (gmap string str).

Definition DATA_DIR : string := "data".

(** [f"{key}.json"], the name of the file in the data directory. *)
Definition file_name (key : string) : string := String.append key ".json".

(** [DATA_DIR / f"{key}.json"] *)
Definition file_of (key : string) : string :=
  String.append DATA_DIR (String.append "/" (String.append key ".json")).

(** [NAME_MAX] of the file system: the bytes a file name can have. *)
Definition NAME_MAX : nat := 255.

(** The operating system takes the file name.  With a longer one every
    system call on the path fails with [ENAMETOOLONG].  A key is the name
    of a collection, given by its bytes: a plain name, as at every call in
    the application.  A key with a path separator is measured as a whole,
    so that an accepted key has no part that is too long. *)
Definition accepted (key : string) : bool :=
  (String.length (file_name key) <=? NAME_MAX)%nat.

(** [file.exists()]: [os.stat] on the path.  [Path.exists] answers [False]
    when there is no such file and lets every other [OSError] through, as
    the one for a name that is too long. *)
Definition file_exists (fs : files) (key : string) : outcome bool :=
  if accepted key then Returned (bool_decide (is_Some (fs !! file_of key)))
  else Raised.

(** [json.load(f)]: the parsed value, or an exception on text that is not
    JSON. *)
Definition json_load (content : str) : outcome value :=
  match Json.loads content with
  | Some data => Returned data
  | None => Raised
  end.

(** [default is None] *)
Definition is_None (v : value) : bool :=
  match v with PNone => true | _ => false end.

(** [default if default is not None else []] *)
Definition default_or_empty_list (default : value) : value :=
  if is_None default then PList [] else default.

(** [read(key, default=None)].  [file.exists()] is called before the [try]:
    what it raises reaches the caller.  The body of the [try] is [open], the
    call of [json_load] and the two [return]s after it; the bare [except]
    turns any exception raised there into the fallback value. *)
Definition read (fs : files) (key : string) (default : value) : outcome value :=
  let file := file_of key in
  match file_exists fs key with
  | Raised => Raised
  | Returned true =>
      match fs !! file with
      | Some content =>
          match json_load content with
          | Returned data =>
              if is_None default then
                Returned (if isinstance data list_type then data else PList [])
              else
                Returned (if isinstance data (type_of default) then data
                          else default)
          | Raised => Returned (default_or_empty_list default)
          end
      | None => Returned (default_or_empty_list default)
      end
  | Returned false => Returned (default_or_empty_list default)
  end.

(** [write(key, data)]: the files the call leaves when it returns; the file
    is created or overwritten with the JSON text of [data].  With a key that
    is not [accepted], [open] raises and there is no such state. *)
Definition write (fs : files) (key : string) (data : value) : files :=
  let file := file_of key in
  <[file := Json.dumps data]> fs.

(** A collection used as a test point: one record with an integer, a list
    of strings and a boolean. *)
Definition sample_cases : value :=
  PList [PDict [(KStr (txt "id"), PInt 7);
                (KStr (txt "tags"), PList [PStr [97; 34; 233; 128512]%N]);
                (KStr (txt "ok"), PBool true)]].

(** A collection with what the application stores in its records: numbers
    with a fraction, a timestamp as text, text in any script, and a string
    that ends in a high surrogate. *)
Definition sample_sightings : value :=
  PList [PDict [(KStr (txt "id"), PInt 7);
                (KStr (txt "lat"), PFloat (FNumeral (txt "13.0827")));
                (KStr (txt "lon"), PFloat (FNumeral (txt "-80.2707")));
                (KStr (txt "dose"), PFloat (FNumeral (txt "1e-07")));
                (KStr (txt "range"), PFloat FInfinity);
                (KStr (txt "time"), PStr (txt "2024-05-01 10:00:00.123456"));
                (KStr [110; 243; 116; 97]%N,
                 PList [PStr [97; 34; 233; 128512; 55357]%N]);
                (KStr (txt "ok"), PBool true)]].

(** A key of 300 characters, 300 times the letter k. *)
Definition long_key : string :=
  String.string_of_list_ascii (replicate 300 "k"%char).

End Storage.

(** ** pages/ai_detection.py: the helpers around the scoring engine *)

Module AiDetectionHelpers.
Import AiDetection.

(** *** [severity_from_score]

    [str.lower] is a function of the Python library; it is a parameter
    here. *)

Section Severity.
Variable lower : string → string.

(** [severity_from_score(score, pred_class)]: a label and a number. *)
Definition severity_from_score (score : Z) (pred_class : string) : string * Z :=
  if bool_decide (lower pred_class = "healthy") then ("Mild", 1)
  else if score <? 30 then ("Mild", if 15 <=? score then 2 else 1)
  else if score <? 60 then ("Moderate", 3)
  else ("Severe", if score <? 85 then 4 else 5).

End Severity.

(** The [color] of [severity_badge(label)]:
    [{...}.get(label, "#6366f1")]. *)
Definition severity_colors : gmap string string :=
  list_to_map [ ("Mild", "#10b981"); ("Moderate", "#f59e0b");
                ("Severe", "#ef4444") ].

Definition severity_badge_color (label : string) : string :=
  default "#6366f1" (severity_colors !! label).

(** *** [risk_level_badge] and the hotspot of [render] *)

(** The [colors] of [risk_level_badge]. *)
Definition colors : gmap string string :=
  list_to_map [ ("Low Risk", "#10b981"); ("Moderate Risk", "#f59e0b");
                ("High Risk", "#ef4444"); ("Critical Risk", "#dc2626") ].

(** The [color] of [risk_level_badge(level)]: [colors.get(level, "#6366f1")]. *)
Definition risk_level_badge_color (level : string) : string :=
  default "#6366f1" (colors !! level).

(** The [hotspot_colors] of [render]. *)
Definition hotspot_colors : gmap string string :=
  list_to_map [ ("Low Risk", "#10b981"); ("Moderate Risk", "#3b82f6");
                ("High Risk", "#f59e0b"); ("Critical Risk", "#ef4444") ].

(** [hotspot_colors.get(risk_level, "#6b7280")] *)
Definition hotspot_color (risk_level : string) : string :=
  default "#6b7280" (hotspot_colors !! risk_level).

(** *** The questionnaire of [render] *)

(** The options the ten [st.selectbox] widgets offer, under the key each
    answer gets in [responses]. *)
Definition form_options : list (string * list string) :=
  [ ("aggression",
      [ "Friendly/Calm"; "Neutral/Cautious"; "Defensive"; "Aggressive/Growling";
        "Attacking/Lunging" ]);
    ("body_language",
      [ "Relaxed (wagging tail, soft ears)"; "Alert (ears up, attentive)";
        "Tense (stiff body, raised hackles)"; "Cowering/Fearful";
        "Showing teeth/Snarling" ]);
    ("eye_contact",
      [ "Soft/Avoidant"; "Normal"; "Direct stare"; "Fixed stare with tension" ]);
    ("territorial",
      [ "Not territorial"; "Mild (barking)"; "Moderate (blocking path)";
        "Highly territorial (charging)" ]);
    ("past_behavior",
      [ "Never aggressive"; "Rare incidents"; "Multiple incidents";
        "Frequent attacks" ]);
    ("approach",
      [ "Friendly approach"; "Cautious but friendly"; "Avoidant/Backing away";
        "Warning signs (barking/growling)"; "Charging/Lunging" ]);
    ("food_guarding",
      [ "No guarding"; "Mild (tense when eating)"; "Moderate (growls near food)";
        "Severe (snaps/bites near food)" ]);
    ("space",
      [ "Comfortable with proximity"; "Prefers distance";
        "Shows discomfort when approached"; "Actively defends space" ]);
    ("health",
      [ "Appears healthy"; "Minor issues (limping)"; "Visible injuries";
        "Signs of rabies/severe illness" ]);
    ("pack",
      [ "Alone"; "With one other dog"; "In small pack (2-3)"; "Large pack (4+)" ]) ].

(** The dict literal [responses = {"aggression": q1, ..., "pack": q10}]. *)
Definition collect_responses (q1 q2 q3 q4 q5 q6 q7 q8 q9 q10 : string)
    : responses :=
  list_to_map
    [ ("aggression", q1); ("body_language", q2); ("eye_contact", q3);
      ("territorial", q4); ("past_behavior", q5); ("approach", q6);
      ("food_guarding", q7); ("space", q8); ("health", q9); ("pack", q10) ].

(** A response set the form can submit: every question of the form is
    answered with one of the options offered for it. *)
Definition submitted (r : responses) : Prop :=
  Forall (λ qo, ∃ o, r !! qo.1 = Some o ∧ o ∈ qo.2) form_options.

(** The smallest weight of the options that trigger a rule. *)
Definition rule_floor (ru : rule) : Z :=
  foldr Z.min 30 (weight (rule_question ru) <$> rule_triggers ru).

(** Two response sets of the form with the same score and different
    advice, and one that is critical and gets no advice. *)
Definition calm_but_sick : responses :=
  collect_responses "Friendly/Calm" "Relaxed (wagging tail, soft ears)"
    "Soft/Avoidant" "Not territorial" "Never aggressive" "Friendly approach"
    "No guarding" "Comfortable with proximity" "Signs of rabies/severe illness"
    "With one other dog".

Definition snarling_but_healthy : responses :=
  collect_responses "Friendly/Calm" "Showing teeth/Snarling"
    "Soft/Avoidant" "Not territorial" "Never aggressive" "Friendly approach"
    "No guarding" "Comfortable with proximity" "Appears healthy"
    "With one other dog".

Definition critical_without_advice : responses :=
  collect_responses "Defensive" "Showing teeth/Snarling"
    "Fixed stare with tension" "Mild (barking)" "Frequent attacks"
    "Avoidant/Backing away" "Mild (tense when eating)" "Actively defends space"
    "Visible injuries" "With one other dog".

End AiDetectionHelpers.

(** ** Notions for more facts about the store *)

Module JsonMore.
Import Py Json.

Local Open Scope N_scope.


(** What the decoder can return: values of the JSON types only, dicts with
    string keys, each key once. *)
Fixpoint json_shaped (v : value) : bool :=
  match v with
  | PObj _ => false
  | PList items => forallb json_shaped items
  | PDict items =>
      bool_decide (NoDup items.*1) &&
      forallb (λ kv, match kv.1 with KStr _ => true | _ => false end &&
                     json_shaped kv.2) items
  | _ => true
  end.

(** An item of such a dict. *)
Definition shaped_item (kv : key * value) : bool :=
  match kv.1 with KStr _ => true | _ => false end && json_shaped kv.2.

(** No float occurs in the value. *)
Fixpoint float_free (v : value) : bool :=
  match v with
  | PFloat _ => false
  | PList items => forallb float_free items
  | PDict items => forallb (λ kv, float_free kv.2) items
  | _ => true
  end.

(** A character of printable ASCII, or a newline. *)
Definition is_plain_ascii (c : N) : bool :=
  (c =? 10) || ((32 <=? c) && (c <=? 126)).

(** A text of such characters only. *)
Definition plain_ascii (s : str) : bool := forallb is_plain_ascii s.

Abbreviation ascii_text := (Forall (λ c, is_plain_ascii c = true)).

(** A key that is a plain file name: no path separator in it. *)
Definition plain_key (key : string) : bool :=
  forallb (λ a, negb (Ascii.eqb a "/")) (String.list_ascii_of_string key).

End JsonMore.

(** ** utils/auth.py *)

Module Auth.
Import Py Json Storage.

(** [d.get(k)] on the items of a dict, for a string key; [None] when the
    key is absent. *)
Fixpoint dict_get (items : list (key * value)) (k : str) : value :=
  match items with
  | [] => PNone
  | (k', v) :: items' =>
      if key_eqb k' (KStr k) then v else dict_get items' k
  end.

(** [u.get(k)]: only a dict has the method, on anything else of a JSON type
    the call raises [AttributeError].  The values it is called on come out
    of the store, where there are no other objects. *)
Definition get (u : value) (k : str) : outcome value :=
  match u with
  | PDict items => Returned (dict_get items k)
  | _ => Raised
  end.

(** [v == s] for a string [s]: among the JSON types only an equal string
    is equal to a string. *)
Definition eq_str (v : value) (s : str) : bool :=
  match v with
  | PStr s' => bool_decide (s' = s)
  | _ => false
  end.

(** [any(u.get("email") == email for u in users)]: the entries are visited
    in order, up to the first one that matches. *)
Fixpoint any_email (users : list value) (email : str) : outcome bool :=
  match users with
  | [] => Returned false
  | u :: users' =>
      match get u (txt "email") with
      | Raised => Raised
      | Returned e =>
          if eq_str e email then Returned true else any_email users' email
      end
  end.

Definition admin_email : str := txt "admin@rescuepaws.ai".

(** The default admin account; [now] is [str(datetime.now())]. *)
Definition admin_user (now : str) : value :=
  PDict [(KStr (txt "email"), PStr admin_email);
         (KStr (txt "name"), PStr (txt "Admin"));
         (KStr (txt "password"), PStr (txt "admin123"));
         (KStr (txt "role"), PStr (txt "admin"));
         (KStr (txt "phone"), PStr (txt "+919840277042"));
         (KStr (txt "profile_picture"), PNone);
         (KStr (txt "active"), PBool true);
         (KStr (txt "created_at"), PStr now)].

(** [ensure_admin_exists()], as a function of the files and the clock.
    [storage.read("users", [])] returns a list; the branch for anything
    else is never taken. *)
Definition ensure_admin_exists (fs : files) (now : str) : outcome files :=
  match read fs "users" (PList []) with
  | Returned (PList users) =>
      match any_email users admin_email with
      | Raised => Raised
      | Returned admin_exists =>
          if negb admin_exists
          then Returned (write fs "users" (PList (users ++ [admin_user now])))
          else Returned fs
      end
  | _ => Raised
  end.

(** The loop of [login]: the first entry whose email and password both
    match; [and] asks for the password only where the email matches. *)
Fixpoint find_user (users : list value) (email password : str)
    : outcome (option value) :=
  match users with
  | [] => Returned None
  | user :: users' =>
      match get user (txt "email") with
      | Raised => Raised
      | Returned e =>
          if eq_str e email then
            match get user (txt "password") with
            | Raised => Raised
            | Returned p =>
                if eq_str p password then Returned (Some user)
                else find_user users' email password
            end
          else find_user users' email password
      end
  end.

(** [login(email, password)] for two strings: the files it leaves and the
    triple it returns. *)
Definition login (fs : files) (now : str) (email password : str)
    : outcome (files * (bool * string * value)) :=
  match ensure_admin_exists fs now with
  | Raised => Raised
  | Returned fs1 =>
      match read fs1 "users" (PList []) with
      | Returned (PList users) =>
          match find_user users email password with
          | Raised => Raised
          | Returned (Some user) =>
              Returned (fs1, (true, "Login successful", user))
          | Returned None =>
              Returned (fs1, (false, "Invalid credentials", PNone))
          end
      | _ => Raised
      end
  end.

(** The account [register] appends. *)
Definition new_user (now email name password role phone : str)
    (profile_picture : value) : value :=
  PDict [(KStr (txt "email"), PStr email);
         (KStr (txt "name"), PStr name);
         (KStr (txt "password"), PStr password);
         (KStr (txt "role"), PStr role);
         (KStr (txt "phone"), PStr phone);
         (KStr (txt "profile_picture"), profile_picture);
         (KStr (txt "active"), PBool true);
         (KStr (txt "created_at"), PStr now)].

(** [register(email, name, password, role, phone, profile_picture)] for
    strings and a picture that is [None] or an encoded file. *)
Definition register (fs : files) (now : str)
    (email name password role phone : str) (profile_picture : value)
    : outcome (files * (bool * string)) :=
  match read fs "users" (PList []) with
  | Returned (PList users) =>
      match any_email users email with
      | Raised => Raised
      | Returned true => Returned (fs, (false, "Email already registered"))
      | Returned false =>
          Returned (write fs "users"
                      (PList (users ++
                              [new_user now email name password role phone
                                 profile_picture])),
                    (true, "Account created successfully"))
      end
  | _ => Raised
  end.

(** *** Notions for the statements *)

Definition is_dict (v : value) : bool :=
  match v with PDict _ => true | _ => false end.

(** The email of an entry. *)
Definition account_email (u : value) : value :=
  match u with
  | PDict items => dict_get items (txt "email")
  | _ => PNone
  end.

(** The entry has this email. *)
Definition has_email (email : str) (u : value) : bool :=
  eq_str (account_email u) email.

(** The entry has this password. *)
Definition has_password (password : str) (u : value) : bool :=
  match u with
  | PDict items => eq_str (dict_get items (txt "password")) password
  | _ => false
  end.

(** The users file holds this list of accounts: JSON-native records, which
    is what [register] and [ensure_admin_exists] write themselves.  A
    missing file holds the empty list. *)
Definition holds_users (fs : files) (users : list value) : Prop :=
  read fs "users" (PList []) = Returned (PList users) ∧
  json_native (PList users) = true ∧
  Forall (λ u, is_dict u = true) users.

(** The emails of the accounts, in order. *)
Definition emails (users : list value) : list value := account_email <$> users.

(** The accounts [login] looks through, and the files it leaves: the
    default admin is added when no account has its email. *)
Definition with_admin (now : str) (users : list value) : list value :=
  if existsb (has_email admin_email) users then users
  else users ++ [admin_user now].

(** The account with this email and password, if any. *)
Definition matching (email password : str) (users : list value)
    : option value :=
  List.find (λ u, has_email email u && has_password password u) users.

(** Two accounts and a users file that holds them, used as test points. *)
Definition asha : value :=
  new_user (txt "2024-01-01 09:00:00.000001") (txt "asha@example.org")
    (txt "Asha") (txt "pw-asha") (txt "volunteer") (txt "+911234567890")
    PNone.

Definition ravi : value :=
  new_user (txt "2024-02-01 09:00:00.000001") (txt "ravi@example.org")
    (txt "Ravi") (txt "pw-ravi") (txt "vet") [] (PStr (txt "aGVsbG8="))%N.

Definition mina : value :=
  new_user (txt "2024-03-01 09:00:00.000001") (txt "mina@example.org")
    (txt "Mina") (txt "pw-mina") (txt "user") [] PNone.

Definition two_accounts : files := write ∅ "users" (PList [asha; ravi]).

End Auth.

(** ** components.py: roles, access and the audit log *)

Module Components.
Import Py Json Storage Auth.

(** [st.session_state.user]: [None], or the record of the user who is
    logged in. *)
Abbreviation session_user := (option (list (key * value))).

(** [d.get(k, d0)] for a string key. *)
Fixpoint dict_get_or (items : list (key * value)) (k : str) (d0 : value)
    : value :=
  match items with
  | [] => d0
  | (k', v) :: items' =>
      if key_eqb k' (KStr k) then v else dict_get_or items' k d0
  end.

(** [not st.session_state.get("user")]: no user, or an empty record. *)
Definition no_user (user : session_user) : bool :=
  match user with
  | Some (_ :: _) => false
  | _ => true
  end.

(** [st.session_state.user.get("role", "user")] *)
Definition user_role (user : session_user) : value :=
  dict_get_or (default [] user) (txt "role") (PStr (txt "user")).

(** [v in roles], for strings [roles]. *)
Definition among (v : value) (roles : list str) : bool :=
  existsb (eq_str v) roles.

(** [has_role], called with the strings [roles]. *)
Definition has_role (user : session_user) (roles : list str) : bool :=
  if no_user user then false else among (user_role user) roles.

Definition public_pages : list str :=
  txt <$> ["Dashboard"; "AI Disease Detection"; "Hotspot Mapping";
           "Emergency SOS"; "Awareness Hub"; "Community Feed";
           "Adoption Portal"; "Donations"; "Contacts"; "Messages";
           "Profile"].

Definition admin_pages : list str := txt <$> ["Admin Panel"; "Impact Analytics"].

Definition vet_pages : list str := txt <$> ["Vet Desk"; "Case Management"].

Definition volunteer_pages : list str :=
  txt <$> ["Volunteer Desk"; "Feeding Schedule"].

Definition admin_vet_volunteer_pages : list str := txt <$> ["Vaccination Tracker"].

(** [can_access_feature(feature_name)] *)
Definition can_access_feature (user : session_user) (feature_name : str)
    : bool :=
  if no_user user then false
  else
    let user_role := user_role user in
    if bool_decide (feature_name ∈ public_pages) then true
    else if bool_decide (feature_name ∈ admin_pages) then
      eq_str user_role (txt "admin")
    else if bool_decide (feature_name ∈ vet_pages) then
      among user_role [txt "vet"; txt "admin"]
    else if bool_decide (feature_name ∈ volunteer_pages) then
      among user_role [txt "volunteer"; txt "admin"]
    else if bool_decide (feature_name ∈ admin_vet_volunteer_pages) then
      among user_role [txt "admin"; txt "vet"; txt "volunteer"]
    else true.

(** The pages that are not open to every user who is logged in. *)
Definition restricted_pages : list str :=
  admin_pages ++ vet_pages ++ volunteer_pages ++ admin_vet_volunteer_pages.

(** The roles the pages ask for themselves, in the guard at the top of
    their [render]: [pages/admin_panel.py], [pages/vet_desk.py],
    [pages/case_management.py], [pages/volunteer_desk.py],
    [pages/feeding_schedule.py] and [pages/vaccination_tracker.py]. *)
Definition page_guards : list (str * list str) :=
  [(txt "Admin Panel", [txt "admin"]);
   (txt "Vet Desk", [txt "vet"; txt "admin"]);
   (txt "Case Management", [txt "vet"; txt "admin"]);
   (txt "Volunteer Desk", [txt "volunteer"; txt "admin"]);
   (txt "Feeding Schedule", [txt "volunteer"; txt "admin"]);
   (txt "Vaccination Tracker", [txt "admin"; txt "vet"; txt "volunteer"])].

(** [x or {}], for [x] that is [None] or a dict. *)
Definition or_empty (d : option (list (key * value))) : list (key * value) :=
  match d with
  | Some (kv :: items) => kv :: items
  | _ => []
  end.

(** The entry [audit_log] appends; [now] is
    [dt.datetime.now().isoformat()]. *)
Definition audit_record (now : str) (user : session_user) (event : str)
    (meta : option (list (key * value))) : value :=
  PDict [(KStr (txt "time"), PStr now);
         (KStr (txt "event"), PStr event);
         (KStr (txt "user"), dict_get (or_empty user) (txt "email"));
         (KStr (txt "role"), dict_get (or_empty user) (txt "role"));
         (KStr (txt "meta"), PDict (or_empty meta))].

(** [audit_log(event, meta=None)] for a string [event]: the files it
    leaves.  What [read] returned is replaced by the empty list when it is
    not a list. *)
Definition audit_log (fs : files) (now : str) (user : session_user)
    (event : str) (meta : option (list (key * value))) : outcome files :=
  match read fs "audit" (PList []) with
  | Returned logs =>
      let logs := match logs with PList items => items | _ => [] end in
      Returned (write fs "audit"
                  (PList (logs ++ [audit_record now user event meta])))
  | Raised => Raised
  end.





End Components.

(** ** Facts about the scoring engine *)

Module AiDetectionFacts.
Import AiDetection.

Lemma foldl_add_Zsum {A} (f : A → Z) (l : list A) (a : Z) :
  foldl (λ acc x, acc + f x) a l = a + Zsum (f <$> l).
Proof.
  revert a. induction l as [|x l IH]; intros a.
  - simpl. lia.
  - change (foldl (λ acc x, acc + f x) (a + f x) l = a + (f x + Zsum (f <$> l))).
    rewrite IH. lia.
Qed.

Lemma Zsum_perm (l1 l2 : list Z) : l1 ≡ₚ l2 → Zsum l1 = Zsum l2.
Proof. unfold Zsum. induction 1; simpl; lia. Qed.

Lemma total_score_Zsum (r : responses) :
  total_score r = Zsum (entry_weight <$> map_to_list r).
Proof.
  unfold total_score. rewrite (foldl_add_Zsum entry_weight). lia.
Qed.

Lemma total_score_empty : total_score ∅ = 0.
Proof. rewrite total_score_Zsum, map_to_list_empty. reflexivity. Qed.

Lemma total_score_insert (r : responses) (q o : string) :
  r !! q = None → total_score (<[q:=o]> r) = weight q o + total_score r.
Proof.
  intros Hq. rewrite !total_score_Zsum.
  rewrite (Zsum_perm _ (entry_weight <$> (q, o) :: map_to_list r)).
  - reflexivity.
  - apply fmap_Permutation, map_to_list_insert, Hq.
Qed.

Lemma total_score_delete (r : responses) (q o : string) :
  r !! q = Some o → total_score r = weight q o + total_score (delete q r).
Proof.
  intros Hq. rewrite <- (total_score_insert (delete q r) q o).
  - by rewrite insert_delete_id.
  - apply lookup_delete_eq.
Qed.

Lemma total_score_zero (r : responses) :
  (∀ q o, r !! q = Some o → weight q o = 0) → total_score r = 0.
Proof.
  induction r as [|q o r Hq IH] using map_ind; intros Hzero.
  - apply total_score_empty.
  - rewrite total_score_insert by done.
    rewrite (Hzero q o) by apply lookup_insert_eq.
    rewrite IH; [done|]. intros q' o' Hq'. apply Hzero.
    rewrite lookup_insert_ne; [done|]. intros ->. congruence.
Qed.

(** Splits a [map_Forall] over a literal table into one goal per entry. *)
Ltac map_entries :=
  repeat match goal with
         | |- map_Forall _ (<[_:=_]> _) => apply map_Forall_insert_2
         | |- map_Forall _ ∅ => apply map_Forall_empty
         | |- _ => progress cbv beta
         end.

Ltac table_entries :=
  unfold table_Forall, score_map; simpl list_to_map; map_entries.

Lemma table_Forall_lookup (P : string → string → Z → Prop) q tbl o w :
  table_Forall P → score_map !! q = Some tbl → tbl !! o = Some w → P q o w.
Proof.
  intros HP Hq Ho.
  exact (map_Forall_lookup_1 _ _ _ _ (map_Forall_lookup_1 _ _ _ _ HP Hq) Ho).
Qed.

(** The weight of a pair is the table entry when there is one, and 0 when the
    question or the option is not in the table. *)
Lemma weight_table q tbl o w :
  score_map !! q = Some tbl → tbl !! o = Some w → weight q o = w.
Proof. intros Hq Ho. unfold weight. rewrite Hq. simpl. by rewrite Ho. Qed.

Lemma weight_unknown_question q o : score_map !! q = None → weight q o = 0.
Proof. intros Hq. unfold weight. rewrite Hq. simpl. by rewrite lookup_empty. Qed.

Lemma weight_unknown_option q tbl o :
  score_map !! q = Some tbl → tbl !! o = None → weight q o = 0.
Proof. intros Hq Ho. unfold weight. rewrite Hq. simpl. by rewrite Ho. Qed.

Lemma weight_Forall (P : string → string → Z → Prop) q o :
  table_Forall P → (∀ q o, P q o 0) → P q o (weight q o).
Proof.
  intros HP H0. destruct (score_map !! q) as [tbl|] eqn:Hq.
  - destruct (tbl !! o) as [w|] eqn:Ho.
    + rewrite (weight_table q tbl o w) by done. by eapply table_Forall_lookup.
    + rewrite (weight_unknown_option q tbl o) by done. apply H0.
  - rewrite weight_unknown_question by done. apply H0.
Qed.

Lemma bound_range q : 0 ≤ bound q ≤ 30.
Proof.
  unfold bound.
  destruct ((list_to_map question_max : gmap string Z) !! q) as [b|] eqn:Hb;
    simpl; [|lia].
  apply elem_of_list_to_map_2 in Hb. unfold question_max in Hb.
  repeat (apply elem_of_cons in Hb as [Hb|Hb]; [injection Hb as _ ->; lia|]).
  by apply elem_of_nil in Hb.
Qed.

Lemma table_bounds : table_Forall (λ q _ w, 0 ≤ w ≤ bound q).
Proof. table_entries; vm_compute; split; discriminate. Qed.

Lemma weight_bounds q o : 0 ≤ weight q o ≤ bound q.
Proof.
  apply (weight_Forall (λ q _ w, 0 ≤ w ≤ bound q)); [apply table_bounds|].
  intros q' _. pose proof (bound_range q'). lia.
Qed.

Lemma score_map_questions q tbl : score_map !! q = Some tbl → q ∈ questions.
Proof.
  intros Hq. apply elem_of_list_to_map_2 in Hq.
  repeat (apply elem_of_cons in Hq as [Hq|Hq];
          [injection Hq as -> _; unfold questions; simpl; set_solver|]).
  by apply elem_of_nil in Hq.
Qed.

Lemma total_score_nonneg (r : responses) : 0 ≤ total_score r.
Proof.
  induction r as [|q o r Hq IH] using map_ind.
  - by rewrite total_score_empty.
  - rewrite total_score_insert by done. pose proof (weight_bounds q o). lia.
Qed.

Lemma total_score_le_bounds (r : responses) (qs : list string) :
  total_score r ≤ Zsum (bound <$> qs) + total_score (foldr delete r qs).
Proof.
  induction qs as [|q qs IH].
  - simpl. unfold Zsum. simpl. lia.
  - change (total_score r ≤
            (bound q + Zsum (bound <$> qs)) +
            total_score (delete q (foldr delete r qs))).
    destruct (foldr delete r qs !! q) as [o|] eqn:Hq.
    + rewrite (total_score_delete (foldr delete r qs) q o) in IH by done.
      pose proof (weight_bounds q o). lia.
    + rewrite delete_id by done. pose proof (bound_range q). lia.
Qed.

Lemma total_score_le_228 (r : responses) : total_score r ≤ 228.
Proof.
  pose proof (total_score_le_bounds r questions) as Hle.
  rewrite (total_score_zero (foldr delete r questions)) in Hle.
  - exact Hle.
  - intros q o [Hq _]%lookup_foldr_delete_Some.
    destruct (score_map !! q) as [tbl|] eqn:Htbl.
    + by apply score_map_questions in Htbl.
    + by apply weight_unknown_question.
Qed.

Lemma total_score_split (r : responses) (qs : list string) :
  NoDup qs →
  total_score r = Zsum (contribution r <$> qs) + total_score (foldr delete r qs).
Proof.
  induction 1 as [|q qs Hq Hqs IH].
  - simpl. unfold Zsum. simpl. lia.
  - change (total_score r =
            (contribution r q + Zsum (contribution r <$> qs)) +
            total_score (delete q (foldr delete r qs))).
    unfold contribution at 1.
    destruct (r !! q) as [o|] eqn:Hrq.
    + rewrite (total_score_delete (foldr delete r qs) q o) in IH; [lia|].
      by rewrite lookup_foldr_delete_not_elem_of.
    + rewrite delete_id; [lia|].
      by rewrite lookup_foldr_delete_not_elem_of.
Qed.

Lemma Zsum_fmap_ext {A} (f g : A → Z) (l : list A) :
  Forall (λ x, f x = g x) l → Zsum (f <$> l) = Zsum (g <$> l).
Proof.
  induction 1 as [|x l Hx Hl IH]; [done|].
  change (f x + Zsum (f <$> l) = g x + Zsum (g <$> l)). lia.
Qed.

Lemma questions_NoDup : NoDup questions.
Proof. apply (bool_decide_unpack _). by vm_compute. Qed.

Lemma total_score_questions (r : responses) :
  total_score r = Zsum (contribution r <$> questions).
Proof.
  rewrite (total_score_split r questions questions_NoDup).
  rewrite (total_score_zero (foldr delete r questions)); [lia|].
  intros q o [Hq _]%lookup_foldr_delete_Some.
  destruct (score_map !! q) as [tbl|] eqn:Htbl.
  - by apply score_map_questions in Htbl.
  - by apply weight_unknown_question.
Qed.

Lemma answered_is_in (r : responses) (q o : string) :
  answered_is r q o = answered_in r q [o].
Proof.
  unfold answered_is, answered_in. destruct (r !! q) as [o'|].
  - apply bool_decide_ext. rewrite list_elem_of_singleton. naive_solver.
  - by apply bool_decide_eq_false.
Qed.

Lemma recommendations_fired (r : responses) :
  generate_safety_recommendations r = fired_advisories r.
Proof.
  unfold generate_safety_recommendations, fired_advisories, rules, fires.
  rewrite answered_is_in. simpl.
  repeat match goal with
         | |- context [answered_in r ?q ?t] => destruct (answered_in r q t)
         end; reflexivity.
Qed.



Lemma fired_advisories_nil (r : responses) :
  Forall (λ ru, fires r ru = false) rules → fired_advisories r = [].
Proof.
  unfold fired_advisories. generalize rules. intros l.
  induction 1 as [|ru l Hru Hl IH]; simpl; [done|].
  by rewrite Hru.
Qed.



(** *** Bucketing *)

Lemma risk_level_cases (s : Z) :
  (s ≤ 20 ∧ risk_level s = "Low Risk") ∨
  (20 < s ≤ 50 ∧ risk_level s = "Moderate Risk") ∨
  (50 < s ≤ 80 ∧ risk_level s = "High Risk") ∨
  (80 < s ∧ risk_level s = "Critical Risk").
Proof.
  unfold risk_level.
  destruct (Z.leb_spec s 20); [by left|].
  destruct (Z.leb_spec s 50); [right; left; split; [lia|done]|].
  destruct (Z.leb_spec s 80); [right; right; left; split; [lia|done]|].
  right; right; right. split; [lia|done].
Qed.

Lemma risk_level_rank_mono (s1 s2 : Z) :
  s1 ≤ s2 → (level_rank (risk_level s1) ≤ level_rank (risk_level s2))%nat.
Proof.
  intros Hle.
  destruct (risk_level_cases s1) as [[? ->]|[[? ->]|[[? ->]|[? ->]]]];
    destruct (risk_level_cases s2) as [[? ->]|[[? ->]|[[? ->]|[? ->]]]];
    try lia; vm_compute; lia.
Qed.

(** C1. [calculate_bite_risk_score] puts the total into exactly one of the
    four levels, with inclusive upper bounds 20, 50 and 80: at most 20 is
    "Low Risk", above 20 and at most 50 is "Moderate Risk", above 50 and at
    most 80 is "High Risk", above 80 is "Critical Risk".  In particular the
    totals 20, 21, 50, 51, 80 and 81 give Low, Moderate, Moderate, High, High
    and Critical. *)
Theorem score_buckets (r : responses) (s : Z) (l : string) :
  calculate_bite_risk_score r = (s, l) →
  ((s ≤ 20 ∧ l = "Low Risk") ∨
   (20 < s ≤ 50 ∧ l = "Moderate Risk") ∨
   (50 < s ≤ 80 ∧ l = "High Risk") ∨
   (80 < s ∧ l = "Critical Risk")) ∧
  (s = 20 → l = "Low Risk") ∧
  (s = 21 → l = "Moderate Risk") ∧
  (s = 50 → l = "Moderate Risk") ∧
  (s = 51 → l = "High Risk") ∧
  (s = 80 → l = "High Risk") ∧
  (s = 81 → l = "Critical Risk").
Proof.
  unfold calculate_bite_risk_score. intros [= <- <-].
  split; [apply risk_level_cases|].
  repeat split; intros ->; reflexivity.
Qed.

(** The six boundary totals are reached by actual response sets. *)
Lemma score_buckets_witness :
  calculate_bite_risk_score responses_20 = (20, "Low Risk") ∧
  calculate_bite_risk_score responses_21 = (21, "Moderate Risk") ∧
  calculate_bite_risk_score responses_50 = (50, "Moderate Risk") ∧
  calculate_bite_risk_score responses_51 = (51, "High Risk") ∧
  calculate_bite_risk_score responses_80 = (80, "High Risk") ∧
  calculate_bite_risk_score responses_81 = (81, "Critical Risk") ∧
  ((20 ≤ 20 ∧ "Low Risk" = "Low Risk") ∨
   (20 < 20 ≤ 50 ∧ "Low Risk" = "Moderate Risk") ∨
   (50 < 20 ≤ 80 ∧ "Low Risk" = "High Risk") ∨
   (80 < 20 ∧ "Low Risk" = "Critical Risk")).
Proof.
  repeat (split; [vm_compute; reflexivity|]).
  apply (score_buckets responses_20 20 "Low Risk"). vm_compute. reflexivity.
Defined.

(** *** The score as a sum of weights *)

Lemma spec_weight_weight q o : spec_weight q o = weight q o.
Proof.
  unfold spec_weight, weight. destruct (score_map !! q) as [tbl|]; simpl.
  - by destruct (tbl !! o).
  - by rewrite lookup_empty.
Qed.

Lemma total_score_spec (r : responses) : total_score r = spec_score r.
Proof.
  rewrite total_score_Zsum. unfold spec_score. apply Zsum_fmap_ext.
  apply Forall_forall. intros [q o] _. unfold entry_weight. simpl.
  by rewrite spec_weight_weight.
Qed.

(** C3. The score is the sum, over the entries of the mapping, of the weight
    the table gives to the (question, option) pair, 0 for a pair that is not
    in the table; it is a non-negative integer; and the level depends on the
    score alone and never goes down when the score goes up. *)
Theorem score_is_weight_sum (r : responses) :
  (calculate_bite_risk_score r).1 = spec_score r ∧
  0 ≤ (calculate_bite_risk_score r).1 ∧
  (∀ r' : responses,
     (calculate_bite_risk_score r).1 = (calculate_bite_risk_score r').1 →
     (calculate_bite_risk_score r).2 = (calculate_bite_risk_score r').2) ∧
  (∀ r' : responses,
     (calculate_bite_risk_score r).1 ≤ (calculate_bite_risk_score r').1 →
     (level_rank (calculate_bite_risk_score r).2 ≤
      level_rank (calculate_bite_risk_score r').2)%nat).
Proof.
  unfold calculate_bite_risk_score. simpl. repeat split.
  - apply total_score_spec.
  - apply total_score_nonneg.
  - intros r' ->. reflexivity.
  - intros r'. apply risk_level_rank_mono.
Qed.

(** *** Monotonicity *)

Lemma total_score_replace (r : responses) (q o1 o2 : string) :
  r !! q = Some o1 →
  total_score (<[q:=o2]> r) = total_score r - weight q o1 + weight q o2.
Proof.
  intros Hq. rewrite <- insert_delete_eq.
  rewrite total_score_insert by apply lookup_delete_eq.
  rewrite (total_score_delete r q o1) by done. lia.
Qed.

(** C4. If [r2] is [r1] with the answer to one question replaced by an option
    of strictly higher weight in that question's table, the score of [r2] is
    at least the score of [r1]. *)
Theorem score_monotone (r1 r2 : responses) (q o1 o2 : string)
    (tbl : gmap string Z) (w1 w2 : Z) :
  r1 !! q = Some o1 →
  r2 = <[q:=o2]> r1 →
  score_map !! q = Some tbl →
  tbl !! o1 = Some w1 →
  tbl !! o2 = Some w2 →
  w1 < w2 →
  (calculate_bite_risk_score r1).1 ≤ (calculate_bite_risk_score r2).1.
Proof.
  intros Hq -> Htbl Ho1 Ho2 Hlt. unfold calculate_bite_risk_score. simpl.
  rewrite (total_score_replace r1 q o1 o2) by done.
  rewrite (weight_table q tbl o1 w1), (weight_table q tbl o2 w2) by done.
  lia.
Qed.

Lemma score_monotone_witness :
  responses_20 !! "aggression" = Some "Aggressive/Growling" ∧
  score_map !! "aggression" = Some aggression_weights ∧
  aggression_weights !! "Aggressive/Growling" = Some 20 ∧
  aggression_weights !! "Attacking/Lunging" = Some 30 ∧
  20 < 30 ∧
  (calculate_bite_risk_score responses_20).1 ≤
  (calculate_bite_risk_score
     (<["aggression":="Attacking/Lunging"]> responses_20)).1.
Proof.
  repeat (split; [vm_compute; reflexivity|]).
  apply (score_monotone responses_20 _ "aggression" "Aggressive/Growling"
           "Attacking/Lunging" aggression_weights 20 30);
    vm_compute; reflexivity.
Defined.

(** The same holds when the replaced answer is not in the table at all: it
    then counted for 0. *)
Lemma score_monotone_weight (r : responses) (q o1 o2 : string) :
  r !! q = Some o1 → weight q o1 ≤ weight q o2 →
  total_score r ≤ total_score (<[q:=o2]> r).
Proof. intros Hq Hle. rewrite (total_score_replace r q o1 o2) by done. lia. Qed.

(** *** The upper bound *)

Lemma bounds_sum : Zsum (bound <$> questions) = 228.
Proof. vm_compute. reflexivity. Qed.

(** C10. The total is at most 228, the sum of the largest weights of the ten
    tables (30 + 25 + 20 + 20 + 30 + 25 + 20 + 18 + 25 + 15); keys outside
    the table count for 0, and each answer counts for between 0 and 30.  The
    bound is reached. *)
Theorem score_at_most_228 (r : responses) :
  (calculate_bite_risk_score r).1 ≤ 228 ∧
  30 + 25 + 20 + 20 + 30 + 25 + 20 + 18 + 25 + 15 = 228 ∧
  question_max.*2 = [30; 25; 20; 20; 30; 25; 20; 18; 25; 15] ∧
  (∀ q o, weight q o ≤ bound q) ∧
  (∀ q o, score_map !! q = None → weight q o = 0) ∧
  (∀ q o, r !! q = Some o → 0 ≤ weight q o ≤ 30) ∧
  (calculate_bite_risk_score worst_responses).1 = 228.
Proof.
  repeat split.
  - apply total_score_le_228.
  - apply weight_bounds.
  - intros. by apply weight_unknown_question.
  - apply weight_bounds.
  - pose proof (weight_bounds q o). pose proof (bound_range q). lia.
Qed.

(** *** Recommendations *)



(** *** The two scenarios *)

(** C8. The end-to-end scenario: score 193, "Critical Risk", and exactly the
    four advisories of the aggression, territorial, approach and
    food-guarding rules; the health rule does not fire. *)
Theorem scenario_end_to_end :
  calculate_bite_risk_score scenario_responses = (193, "Critical Risk") ∧
  generate_safety_recommendations scenario_responses =
    [msg_aggression; msg_territorial; msg_approach; msg_food] ∧
  length (generate_safety_recommendations scenario_responses) = 4%nat ∧
  (msg_health ∉ generate_safety_recommendations scenario_responses) ∧
  30 + 25 + 20 + 20 + 30 + 25 + 20 + 18 + 0 + 5 = 193.
Proof.
  assert (generate_safety_recommendations scenario_responses =
          [msg_aggression; msg_territorial; msg_approach; msg_food]) as Hrecs
    by (vm_compute; reflexivity).
  rewrite Hrecs.
  split; [vm_compute; reflexivity|].
  split; [reflexivity|]. split; [reflexivity|]. split; [|reflexivity].
  intros Hin. apply (bool_decide_pack _) in Hin. vm_compute in Hin. done.
Qed.

(** *** The friendliest answers *)

Lemma table_floor : table_Forall (λ q _ w, floor q ≤ w).
Proof. table_entries; vm_compute; discriminate. Qed.

Lemma floor_attained :
  map_Forall (λ q tbl, ∃ o, tbl !! o = Some (floor q)) score_map.
Proof.
  unfold score_map. simpl list_to_map. map_entries.
  all: try (by exists "Friendly/Calm"); try (by exists "Soft/Avoidant");
    try (by exists "Relaxed (wagging tail, soft ears)");
    try (by exists "Not territorial"); try (by exists "Never aggressive");
    try (by exists "Friendly approach"); try (by exists "No guarding");
    try (by exists "Comfortable with proximity");
    try (by exists "Appears healthy"); try (by exists "With one other dog").
Qed.

Lemma questions_in_table q : q ∈ questions → is_Some (score_map !! q).
Proof.
  unfold questions, question_max. simpl. intros Hq.
  repeat (apply elem_of_cons in Hq as [->|Hq]; [by eexists|]).
  by apply elem_of_nil in Hq.
Qed.

Lemma friendliest_answer (r : responses) (q : string) :
  all_friendliest r → q ∈ questions →
  ∃ o, r !! q = Some o ∧ weight q o = floor q.
Proof.
  intros Hall [tbl Htbl]%questions_in_table.
  destruct (map_Forall_lookup_1 _ _ _ _ Hall Htbl) as (o & Hro & w & Ho & Hmin).
  exists o. split; [done|]. rewrite (weight_table q tbl o w) by done.
  destruct (map_Forall_lookup_1 _ _ _ _ floor_attained Htbl) as [o0 Ho0].
  pose proof (map_Forall_lookup_1 _ _ _ _ Hmin Ho0) as Hle. simpl in Hle.
  pose proof (table_Forall_lookup _ q tbl o w table_floor Htbl Ho) as Hge.
  simpl in Hge. lia.
Qed.

Lemma friendliest_total (r : responses) : all_friendliest r → total_score r = 3.
Proof.
  intros Hall. rewrite total_score_questions.
  rewrite (Zsum_fmap_ext (contribution r) floor).
  - vm_compute. reflexivity.
  - apply Forall_forall. intros q Hq.
    destruct (friendliest_answer r q Hall Hq) as (o & Hro & Hw).
    unfold contribution. by rewrite Hro.
Qed.

Lemma triggers_above_floor :
  Forall (λ ru, rule_question ru ∈ questions ∧
                Forall (λ t, floor (rule_question ru) < weight (rule_question ru) t)
                       (rule_triggers ru)) rules.
Proof.
  unfold rules.
  repeat (apply List.Forall_cons;
          [split; [apply (bool_decide_unpack _); by vm_compute
                  |repeat (apply List.Forall_cons; [by vm_compute|]);
                   apply List.Forall_nil]|]).
  apply List.Forall_nil.
Qed.

Lemma friendliest_fires_none (r : responses) (ru : rule) :
  all_friendliest r → ru ∈ rules → fires r ru = false.
Proof.
  intros Hall Hru.
  pose proof (proj1 (Forall_forall _ _) triggers_above_floor ru Hru)
    as [Hq Htrig].
  destruct (friendliest_answer r _ Hall Hq) as (o & Hro & Hw).
  unfold fires, answered_in. rewrite Hro.
  apply bool_decide_eq_false. intros Ho.
  pose proof (proj1 (Forall_forall _ _) Htrig o Ho) as Hlt. simpl in Hlt. lia.
Qed.

Lemma friendliest_responses_friendliest : all_friendliest friendliest_responses.
Proof.
  unfold all_friendliest, score_map. simpl list_to_map. map_entries.
  all: eexists; split; [reflexivity|]; eexists; split; [reflexivity|];
    map_entries; by vm_compute.
Qed.

(** C7, as the specification states it, fails: the table of the pack question
    has no option of weight 0 (its lowest weight is 3, for "With one other
    dog"), so answering every question with its lowest-weighted option gives
    a score of 3. *)
Lemma friendliest_score_not_zero :
  ¬ (∀ r : responses,
       all_friendliest r →
       calculate_bite_risk_score r = (0, "Low Risk") ∧
       generate_safety_recommendations r = []).
Proof.
  intros Hclaim.
  destruct (Hclaim friendliest_responses friendliest_responses_friendliest)
    as [Hscore _].
  vm_compute in Hscore. discriminate Hscore.
Qed.

(** C7, amended. A response mapping in which every one of the ten questions
    is answered with its lowest-weighted option has score 3, level
    "Low Risk" and no recommendation. *)
Theorem friendliest_scenario (r : responses) :
  all_friendliest r →
  calculate_bite_risk_score r = (3, "Low Risk") ∧
  generate_safety_recommendations r = [].
Proof.
  intros Hall. unfold calculate_bite_risk_score.
  rewrite (friendliest_total r Hall). split; [reflexivity|].
  rewrite recommendations_fired. apply fired_advisories_nil, Forall_forall.
  intros ru Hru. by apply friendliest_fires_none.
Qed.

(** With the first option of every question the pack answer is "Alone",
    which weighs 5. *)
Example first_option_scenario :
  calculate_bite_risk_score first_option_responses = (5, "Low Risk") ∧
  generate_safety_recommendations first_option_responses = [].
Proof. split; vm_compute; reflexivity. Qed.

Lemma friendliest_scenario_witness :
  all_friendliest friendliest_responses ∧
  calculate_bite_risk_score friendliest_responses = (3, "Low Risk") ∧
  generate_safety_recommendations friendliest_responses = [].
Proof.
  split; [exact friendliest_responses_friendliest|].
  apply (friendliest_scenario friendliest_responses).
  exact friendliest_responses_friendliest.
Defined.

End AiDetectionFacts.
(** ** Facts about the JSON encoder and decoder *)

Module JsonFacts.
Import Py Json.

Local Open Scope N_scope.

(** Linear arithmetic with division and remainder by constants. *)
Ltac div_lia := zify; Z.to_euclidean_division_equations; lia.

(** *** Hexadecimal escapes *)

Lemma N_below (P : N → Prop) (n : nat) :
  (∀ k : nat, (k < n)%nat → P (N.of_nat k)) → ∀ d, d < N.of_nat n → P d.
Proof.
  intros HP d Hd. rewrite <- (N2Nat.id d). apply HP. lia.
Qed.

Lemma hex_value_digit (d : N) : d < 16 → hex_value (hex_digit d) = Some d.
Proof.
  revert d. apply (N_below _ 16). intros k Hk.
  do 16 (destruct k as [|k]; [reflexivity|]). lia.
Qed.

Lemma hex_digits_value (n : N) :
  n < 65536 →
  ((n / 4096 mod 16 * 16 + n / 256 mod 16) * 16 + n / 16 mod 16) * 16 + n mod 16
  = n.
Proof. intros Hn. div_lia. Qed.

Lemma decode_hex4 (n : N) :
  n < 65536 →
  ∃ h1 h2 h3 h4, hex4 n = [h1; h2; h3; h4] ∧ decode_uXXXX h1 h2 h3 h4 = Some n.
Proof.
  intros Hn. eexists _, _, _, _. split; [reflexivity|].
  unfold decode_uXXXX.
  rewrite !hex_value_digit by (apply N.mod_lt; lia).
  by rewrite hex_digits_value.
Qed.

(** *** Surrogate pairs *)

Lemma land_shiftl_low (h l : N) : l < 1024 → N.land (N.shiftl h 10) l = 0.
Proof.
  intros Hl. apply N.bits_inj_0. intros n. rewrite N.land_spec.
  destruct (N.lt_ge_cases n 10) as [Hn|Hn].
  - by rewrite N.shiftl_spec_low by lia.
  - rewrite (N.bits_above_log2 l n); [apply Bool.andb_false_r|].
    destruct (N.eq_dec l 0) as [->|Hne]; [simpl; lia|].
    apply N.log2_lt_pow2; [lia|].
    assert (2 ^ 10 ≤ 2 ^ n) by (apply N.pow_le_mono_r; lia).
    change (2 ^ 10) with 1024 in *. lia.
Qed.

Lemma lor_shiftl_low (h l : N) :
  l < 1024 → N.lor (N.shiftl h 10) l = h * 1024 + l.
Proof.
  intros Hl. rewrite <- N.lxor_lor by by apply land_shiftl_low.
  rewrite <- N.add_nocarry_lxor by by apply land_shiftl_low.
  by rewrite N.shiftl_mul_pow2.
Qed.

(** The two halves the encoder writes for a code point above 0xFFFF. *)
Lemma surrogate_high (n : N) :
  n < 1048576 →
  N.lor 55296 (N.land (N.shiftr n 10) 1023) = 55296 + n / 1024.
Proof.
  intros Hn. change 55296 with (N.shiftl 54 10) at 1.
  change 1023 with (N.ones 10). rewrite N.land_ones, N.shiftr_div_pow2.
  change (2 ^ 10) with 1024.
  assert (n / 1024 < 1024) by (apply N.Div0.div_lt_upper_bound; lia).
  rewrite N.mod_small by done. rewrite lor_shiftl_low by done. lia.
Qed.

Lemma surrogate_low (n : N) :
  N.lor 56320 (N.land n 1023) = 56320 + n mod 1024.
Proof.
  change 56320 with (N.shiftl 55 10) at 1.
  change 1023 with (N.ones 10). rewrite N.land_ones.
  change (2 ^ 10) with 1024.
  rewrite lor_shiftl_low by (apply N.mod_lt; lia). lia.
Qed.

Lemma surrogate_combine (n : N) :
  n < 1048576 →
  65536 + N.lor (N.shiftl (55296 + n / 1024 - 55296) 10)
                (56320 + n mod 1024 - 56320) = 65536 + n.
Proof.
  intros Hn.
  rewrite (N.add_comm 55296), (N.add_comm 56320), !N.add_sub.
  rewrite lor_shiftl_low by (apply N.mod_lt; lia).
  pose proof (N.div_mod n 1024). lia.
Qed.

(** *** Strings *)

Lemma scanstring_plain (c : N) (s : str) :
  c ≠ 34 → c ≠ 92 → 32 ≤ c → scanstring (c :: s) = add_char c (scanstring s).
Proof.
  intros H34 H92 H32. cbn [scanstring].
  rewrite (proj2 (N.eqb_neq c 34)), (proj2 (N.eqb_neq c 92)) by done.
  by rewrite (proj2 (N.ltb_ge c 32)).
Qed.

Lemma scanstring_uXXXX (h1 h2 h3 h4 uni : N) (s : str) :
  decode_uXXXX h1 h2 h3 h4 = Some uni →
  is_high_surrogate uni = false →
  scanstring (92 :: 117 :: h1 :: h2 :: h3 :: h4 :: s) =
  add_char uni (scanstring s).
Proof.
  intros Hdec Hhigh. cbn [scanstring N.eqb Pos.eqb]. by rewrite Hdec, Hhigh.
Qed.

Lemma scanstring_pair (h1 h2 h3 h4 g1 g2 g3 g4 uni uni2 : N) (s : str) :
  decode_uXXXX h1 h2 h3 h4 = Some uni →
  is_high_surrogate uni = true →
  decode_uXXXX g1 g2 g3 g4 = Some uni2 →
  is_low_surrogate uni2 = true →
  scanstring (92 :: 117 :: h1 :: h2 :: h3 :: h4 ::
              92 :: 117 :: g1 :: g2 :: g3 :: g4 :: s) =
  add_char (65536 + N.lor (N.shiftl (uni - 55296) 10) (uni2 - 56320))
           (scanstring s).
Proof.
  intros Hdec Hhigh Hdec2 Hlow. cbn [scanstring N.eqb Pos.eqb andb].
  by rewrite Hdec, Hhigh, Hdec2, Hlow.
Qed.

Lemma scanstring_high (h1 h2 h3 h4 uni : N) (s : str) :
  decode_uXXXX h1 h2 h3 h4 = Some uni →
  is_high_surrogate uni = true →
  no_low_escape s →
  scanstring (92 :: 117 :: h1 :: h2 :: h3 :: h4 :: s) =
  add_char uni (scanstring s).
Proof.
  intros Hdec Hhigh Hs. cbn [scanstring N.eqb Pos.eqb]. rewrite Hdec, Hhigh.
  destruct s as [|b [|u s']]; [done|done|].
  destruct (N.eqb_spec b 92) as [->|]; [|done].
  destruct (N.eqb_spec u 117) as [->|]; [|done].
  cbn [andb].
  destruct (Hs s' eq_refl) as (g1 & g2 & g3 & g4 & s4 & u2 & -> & Hd2 & Hl).
  by rewrite Hd2, Hl.
Qed.

Lemma no_low_escape_quote (rest : str) : no_low_escape (34 :: rest).
Proof. by intros s' [=]. Qed.

Lemma no_low_escape_char (c : N) (t : str) :
  is_code_point c = true → is_low_surrogate c = false →
  no_low_escape (escape_char c ++ t).
Proof.
  intros Hc%N.ltb_lt Hlow. unfold escape_char.
  repeat match goal with
         | |- context [c =? ?k] =>
             destruct (N.eqb_spec c k) as [->|?]; [by intros s' [=]|]
         end.
  destruct ((32 <=? c) && (c <=? 126)); [intros s' [=]; congruence|].
  destruct (N.ltb_spec c 65536).
  - destruct (decode_hex4 c) as (h1 & h2 & h3 & h4 & -> & Hdec); [done|].
    intros s' [= <-]. by eexists _, _, _, _, _, _.
  - assert (c - 65536 < 1048576) as Hm by lia.
    rewrite surrogate_high by done.
    assert ((c - 65536) / 1024 < 1024)
      by (apply N.Div0.div_lt_upper_bound; lia).
    destruct (decode_hex4 (55296 + (c - 65536) / 1024))
      as (h1 & h2 & h3 & h4 & -> & Hdec); [lia|].
    intros s' [= <-]. eexists _, _, _, _, _, _.
    split; [reflexivity|]. split; [exact Hdec|].
    unfold is_low_surrogate. apply andb_false_intro1, N.leb_gt. lia.
Qed.

Lemma scanstring_escape_char (c : N) (s : str) :
  is_code_point c = true →
  (is_high_surrogate c = true → no_low_escape s) →
  scanstring (escape_char c ++ s) = add_char c (scanstring s).
Proof.
  intros Hc%N.ltb_lt Hs. unfold escape_char.
  repeat match goal with
         | |- context [c =? ?k] =>
             destruct (N.eqb_spec c k) as [->|?]; [reflexivity|]
         end.
  destruct (N.leb_spec 32 c); simpl andb.
  - destruct (N.leb_spec c 126).
    + by apply scanstring_plain.
    + destruct (N.ltb_spec c 65536).
      * destruct (decode_hex4 c) as (h1 & h2 & h3 & h4 & -> & Hdec); [done|].
        destruct (is_high_surrogate c) eqn:Hhigh.
        -- apply scanstring_high; auto.
        -- by apply scanstring_uXXXX.
      * assert (∃ m, c = m + 65536 ∧ m < 1048576) as (m & -> & Hm).
        { exists (c - 65536). lia. }
        rewrite N.add_sub, surrogate_high, surrogate_low by done.
        assert (m / 1024 < 1024) by (apply N.Div0.div_lt_upper_bound; lia).
        assert (m mod 1024 < 1024) by (apply N.mod_lt; lia).
        destruct (decode_hex4 (55296 + m / 1024))
          as (h1 & h2 & h3 & h4 & -> & Hdec); [div_lia|].
        destruct (decode_hex4 (56320 + m mod 1024))
          as (g1 & g2 & g3 & g4 & -> & Hdec2); [div_lia|].
        cbn [backslash_u app].
        rewrite (scanstring_pair _ _ _ _ _ _ _ _ _ _ s Hdec) with (2 := Hdec2).
        -- rewrite surrogate_combine by done. by rewrite N.add_comm.
        -- unfold is_high_surrogate.
           apply andb_true_intro; split; apply N.leb_le; div_lia.
        -- unfold is_low_surrogate.
           apply andb_true_intro; split; apply N.leb_le; div_lia.
  - destruct (decode_hex4 c) as (h1 & h2 & h3 & h4 & Hhex & Hdec); [lia|].
    destruct (N.ltb_spec c 65536); [|lia]. rewrite Hhex.
    apply scanstring_uXXXX; [done|].
    unfold is_high_surrogate. destruct (N.leb_spec 55296 c); [lia|done].
Qed.

Lemma scanstring_escape (s rest : str) :
  forallb is_code_point s = true → no_surrogate_pair s = true →
  scanstring (concat (escape_char <$> s) ++ 34 :: rest) = Some (s, rest).
Proof.
  induction s as [|c s IH]; intros Hs Hp; [reflexivity|].
  apply andb_prop in Hs as [Hc Hs]. cbn [no_surrogate_pair] in Hp.
  apply andb_prop in Hp as [Hpair Hp].
  rewrite fmap_cons. cbn [concat]. rewrite <- app_assoc.
  rewrite scanstring_escape_char; [by rewrite IH|done|].
  intros Hhigh. rewrite Hhigh in Hpair.
  destruct s as [|c' s']; [apply no_low_escape_quote|].
  apply andb_prop in Hs as [Hc' _].
  rewrite fmap_cons. cbn [concat]. rewrite <- app_assoc.
  apply no_low_escape_char; [done|]. by destruct (is_low_surrogate c').
Qed.

(** The text of a string scans back to the string. *)
Lemma scanstring_encode (s rest : str) :
  storable_str s = true →
  ∃ body, encode_basestring_ascii s ++ rest = 34 :: body ∧
          scanstring body = Some (s, rest).
Proof.
  intros [Hs Hp]%andb_prop.
  exists (concat (escape_char <$> s) ++ 34 :: rest). split.
  - unfold encode_basestring_ascii. cbn [app]. by rewrite <- app_assoc.
  - by apply scanstring_escape.
Qed.

Lemma scalar_storable_str (s : str) : scalar_str s = true → storable_str s = true.
Proof.
  unfold storable_str. intros Hs. apply andb_true_intro.
  induction s as [|c s IH]; [done|].
  apply andb_prop in Hs as [Hc Hs]. destruct (IH Hs) as [IH1 IH2].
  assert (is_code_point c = true ∧ is_high_surrogate c = false) as [H1 H2].
  { unfold is_scalar, is_code_point, is_high_surrogate in *.
    destruct (N.ltb_spec c 55296), (N.ltb_spec 57343 c),
      (N.ltb_spec c 1114112), (N.leb_spec 55296 c), (N.leb_spec c 56319);
      simpl in *; try done; lia. }
  split; cbn [forallb no_surrogate_pair]; [by rewrite H1, IH1|].
  by rewrite H2, IH2.
Qed.

(** *** Integers *)

Lemma scan_digits_uint_text (u : Decimal.uint) (rest : str) :
  no_digit_head rest → scan_digits (uint_text u ++ rest) = (u, rest).
Proof.
  intros Hrest. induction u; cbn [uint_text app];
    [|cbn [scan_digits];
      match goal with
      | |- context [is_digit (digit_char ?k)] =>
          change (is_digit (digit_char k)) with true
      end; cbn iota; rewrite IHu; reflexivity ..].
  destruct rest as [|c rest]; [reflexivity|].
  simpl in Hrest. cbn [scan_digits]. by rewrite Hrest.
Qed.

Lemma nzhead_not_D0 (u u' : Decimal.uint) : Decimal.nzhead u ≠ Decimal.D0 u'.
Proof. induction u; simpl; done. Qed.

Lemma unorm_fixpoint (u : Decimal.uint) :
  Decimal.unorm u = u → u = Decimal.D0 Decimal.Nil ∨ nonzero_head u.
Proof.
  intros Hu. destruct u as [|u| | | | | | | | |];
    [discriminate Hu| |by right ..].
  left. rewrite unorm_D0 in Hu. unfold Decimal.unorm in Hu.
  destruct (Decimal.nzhead u) eqn:Hnz; try discriminate Hu.
  - by injection Hu as <-.
  - by apply nzhead_not_D0 in Hnz.
Qed.

Lemma to_int_norm (z : Z) : Decimal.norm (Z.to_int z) = Z.to_int z.
Proof. rewrite <- (DecimalZ.to_of (Z.to_int z)). by rewrite DecimalZ.of_to. Qed.

Lemma to_int_cases (z : Z) :
  (∃ u, Z.to_int z = Decimal.Pos u ∧
        (u = Decimal.D0 Decimal.Nil ∨ nonzero_head u)) ∨
  (∃ u, Z.to_int z = Decimal.Neg u ∧ nonzero_head u).
Proof.
  pose proof (to_int_norm z) as Hnorm.
  destruct (Z.to_int z) as [u|u]; simpl in Hnorm.
  - left. exists u. split; [done|]. apply unorm_fixpoint. congruence.
  - right. exists u. split; [done|].
    destruct (Decimal.nzhead u) eqn:Hnz; try discriminate Hnorm;
      [by apply nzhead_not_D0 in Hnz|injection Hnorm as <-; exact I ..].
Qed.

Lemma scan_integer_digits (neg : bool) (u : Decimal.uint) (rest : str) :
  u = Decimal.D0 Decimal.Nil ∨ nonzero_head u →
  no_digit_head rest →
  scan_integer ((if neg then [45] else []) ++ uint_text u ++ rest) =
  Some (neg, u, rest).
Proof.
  intros Hu Hrest.
  assert (∀ s, scan_integer ((if neg then [45] else []) ++ uint_text u ++ s) =
               match uint_text u ++ s with
               | c :: s2 =>
                   if c =? 48 then Some (neg, Decimal.D0 Decimal.Nil, s2)
                   else if is_digit c then
                     let '(u, rest) := scan_digits (uint_text u ++ s) in
                     Some (neg, u, rest)
                   else None
               | [] => None
               end) as ->.
  { intros s. destruct neg; [reflexivity|].
    destruct Hu as [->|Hu]; [reflexivity|].
    destruct u; try done; reflexivity. }
  destruct Hu as [->|Hu]; [reflexivity|].
  pose proof (scan_digits_uint_text u rest Hrest) as Hscan.
  destruct u; try done; cbn [uint_text app] in *;
    match goal with
    | |- context [digit_char ?k =? 48] =>
        change (digit_char k =? 48) with false;
        change (is_digit (digit_char k)) with true
    end; cbn iota; by rewrite Hscan.
Qed.

Lemma closes_cases (rest : str) :
  closes rest = true →
  rest = [] ∨ ∃ r, rest = 44 :: r ∨ rest = 10 :: r.
Proof.
  destruct rest as [|c r]; [by left|]. simpl. intros Hc. right. exists r.
  destruct (N.eqb_spec c 44) as [->|]; [by left|].
  destruct (N.eqb_spec c 10) as [->|]; [by right|]. done.
Qed.

Lemma scan_number_int (z : Z) (rest : str) :
  closes rest = true → scan_number (int_repr z ++ rest) = Some (PInt z, rest).
Proof.
  intros Hrest.
  assert (no_digit_head rest ∧ scan_frac rest = None ∧ scan_exp rest = None)
    as (Hnd & Hfrac & Hexp).
  { destruct (closes_cases rest Hrest) as [->|[r [->| ->]]]; [done|..];
      repeat split; try done; by destruct r. }
  assert (∃ (neg : bool) u,
            int_repr z ++ rest =
            (if neg then [45] else [] : str) ++ uint_text u ++ rest ∧
                   (u = Decimal.D0 Decimal.Nil ∨ nonzero_head u) ∧
                   Z.to_int z = if neg then Decimal.Neg u else Decimal.Pos u)
    as (neg & u & -> & Hu & Hz).
  { unfold int_repr.
    destruct (to_int_cases z) as [(u & -> & Hu)|(u & -> & Hu)].
    - by exists false, u.
    - exists true, u. auto. }
  unfold scan_number. rewrite scan_integer_digits by done.
  cbv zeta. rewrite Hfrac. cbn [from_option id]. rewrite Hexp.
  rewrite <- Hz. by rewrite DecimalZ.of_to.
Qed.

Lemma int_repr_head (z : Z) :
  ∃ c t, int_repr z = c :: t ∧ (c = 45 ∨ is_digit c = true).
Proof.
  unfold int_repr.
  destruct (to_int_cases z) as [(u & -> & Hu)|(u & -> & Hu)].
  - destruct Hu as [->|Hu]; [by eexists _, _; split; [reflexivity|right]|].
    destruct u; try done; by eexists _, _; split; [reflexivity|right].
  - eexists _, _. split; [reflexivity|by left].
Qed.

Lemma scan_once_number (fuel : nat) (c : N) (s : str) (r : value * str) :
  c = 45 ∨ is_digit c = true →
  scan_number (c :: s) = Some r →
  scan_once (S fuel) (c :: s) = Some r.
Proof.
  intros Hc Hnum.
  assert (c ≠ 34 ∧ c ≠ 123 ∧ c ≠ 91 ∧ 110 ≠ c ∧ 116 ≠ c ∧ 102 ≠ c)
    as (H1 & H2 & H3 & H4 & H5 & H6).
  { destruct Hc as [->|Hc]; [done|]. unfold is_digit in Hc.
    apply andb_prop in Hc as [?%N.leb_le ?%N.leb_le]. lia. }
  cbn [scan_once].
  rewrite (proj2 (N.eqb_neq c 34)), (proj2 (N.eqb_neq c 123)),
    (proj2 (N.eqb_neq c 91)) by done.
  change (txt "null") with [110; 117; 108; 108].
  change (txt "true") with [116; 114; 117; 101].
  change (txt "false") with [102; 97; 108; 115; 101].
  cbn [strip_prefix].
  rewrite (proj2 (N.eqb_neq 110 c)), (proj2 (N.eqb_neq 116 c)),
    (proj2 (N.eqb_neq 102 c)) by done.
  by rewrite Hnum.
Qed.

Lemma scan_once_int (fuel : nat) (z : Z) (rest : str) :
  closes rest = true →
  scan_once (S fuel) (int_repr z ++ rest) = Some (PInt z, rest).
Proof.
  intros Hrest. pose proof (scan_number_int z rest Hrest) as Hnum.
  destruct (int_repr_head z) as (c & t & Hrepr & Hc). rewrite Hrepr in *.
  by apply scan_once_number.
Qed.

(** *** Floats *)

Lemma closes_no_digit (rest : str) : closes rest = true → no_digit_head rest.
Proof. intros [->|[r [->| ->]]]%closes_cases; done. Qed.

Lemma scan_digits_app (s rest : str) :
  no_digit_head rest →
  scan_digits (s ++ rest) = ((scan_digits s).1, (scan_digits s).2 ++ rest).
Proof.
  intros Hr. induction s as [|c s IH].
  - destruct rest as [|c r]; [done|]. simpl in *. by rewrite Hr.
  - cbn [app scan_digits]. destruct (is_digit c); [|done].
    rewrite IH. by destruct (scan_digits s).
Qed.

Lemma scan_integer_app (s rest : str) (neg : bool) (u : Decimal.uint)
    (r : str) :
  no_digit_head rest →
  scan_integer s = Some (neg, u, r) →
  scan_integer (s ++ rest) = Some (neg, u, r ++ rest).
Proof.
  intros Hr Hs.
  assert (∀ (sign : bool) (s1 : str),
            match s1 with
            | c :: s2 =>
                if c =? 48 then Some (sign, Decimal.D0 Decimal.Nil, s2)
                else if is_digit c then
                  let '(u, rest) := scan_digits s1 in Some (sign, u, rest)
                else None
            | [] => None
            end = Some (neg, u, r) →
            match s1 ++ rest with
            | c :: s2 =>
                if c =? 48 then Some (sign, Decimal.D0 Decimal.Nil, s2)
                else if is_digit c then
                  let '(u, rest) := scan_digits (s1 ++ rest) in
                  Some (sign, u, rest)
                else None
            | [] => None
            end = Some (neg, u, r ++ rest)) as Hdigits.
  { intros sign [|c s2]; [done|]. cbn [app].
    destruct (c =? 48); [by intros [= -> -> ->]|].
    destruct (is_digit c); [|done].
    change (c :: s2 ++ rest) with ((c :: s2) ++ rest).
    rewrite scan_digits_app by done.
    destruct (scan_digits (c :: s2)) as [u' r']. by intros [= -> -> ->]. }
  unfold scan_integer in *. destruct s as [|c s]; [done|]. cbn [app].
  destruct (c =? 45); [by apply Hdigits|].
  by apply (Hdigits false (c :: s)).
Qed.

Lemma scan_frac_app (s rest : str) :
  closes rest = true →
  scan_frac (s ++ rest) = (λ r, r ++ rest) <$> scan_frac s.
Proof.
  intros Hrest. pose proof (closes_no_digit rest Hrest) as Hnd.
  destruct s as [|c [|d s]].
  - by destruct (closes_cases rest Hrest) as [->|[[|? r] [->| ->]]].
  - destruct (closes_cases rest Hrest) as [->|[r [->| ->]]]; [done|..];
      cbn [app scan_frac is_digit]; by rewrite andb_false_r.
  - cbn [app scan_frac tail]. destruct ((c =? 46) && is_digit d); [|done].
    change (d :: s ++ rest) with ((d :: s) ++ rest).
    by rewrite scan_digits_app.
Qed.

Lemma scan_exp_app (s rest : str) :
  closes rest = true →
  scan_exp (s ++ rest) = (λ r, r ++ rest) <$> scan_exp s.
Proof.
  intros Hrest. pose proof (closes_no_digit rest Hrest) as Hnd.
  assert (scan_exp rest = None) as Hnone.
  { by destruct (closes_cases rest Hrest) as [->|[r [->| ->]]]. }
  assert (∀ s2 : str,
            match s2 ++ rest with
            | d :: _ =>
                if is_digit d then Some (scan_digits (s2 ++ rest)).2 else None
            | [] => None
            end =
            (λ r, r ++ rest) <$>
            match s2 with
            | d :: _ => if is_digit d then Some (scan_digits s2).2 else None
            | [] => None
            end) as Hdigits.
  { intros [|d s2].
    - cbn [app]. destruct rest as [|d r]; [done|]. simpl in Hnd.
      by rewrite Hnd.
    - cbn [app]. destruct (is_digit d); [|done].
      change (d :: s2 ++ rest) with ((d :: s2) ++ rest).
      by rewrite scan_digits_app. }
  destruct s as [|c s1]; [done|]. cbn [app scan_exp].
  destruct ((c =? 101) || (c =? 69)); [|done].
  destruct s1 as [|g s'].
  - cbn [app]. rewrite <- (Hdigits []). cbn [app].
    by destruct (closes_cases rest Hrest) as [->|[r [->| ->]]].
  - cbn [app]. destruct ((g =? 45) || (g =? 43)); [apply Hdigits|].
    apply (Hdigits (g :: s')).
Qed.

(** What follows the match of [NUMBER_RE] does not change it. *)
Lemma scan_number_app (s rest : str) (v : value) (r : str) :
  closes rest = true →
  scan_number s = Some (v, r) →
  scan_number (s ++ rest) = Some (v, r ++ rest).
Proof.
  intros Hrest. pose proof (closes_no_digit rest Hrest) as Hnd.
  unfold scan_number.
  destruct (scan_integer s) as [[[neg u] r0]|] eqn:Hint; [|done].
  rewrite (scan_integer_app _ _ _ _ _ Hnd Hint). cbv zeta.
  rewrite scan_frac_app by done.
  assert (∀ r2 : str,
            take (length (s ++ rest) - length (r2 ++ rest)) (s ++ rest) =
            take (length s - length r2) s) as Htake.
  { intros r2. rewrite !length_app.
    replace (length s + length rest - (length r2 + length rest))%nat
      with (length s - length r2)%nat by lia.
    apply take_app_le. lia. }
  destruct (scan_frac r0) as [r1|]; cbn [fmap option_fmap option_map default
                                          from_option id].
  - rewrite scan_exp_app by done.
    destruct (scan_exp r1) as [r2|]; cbn [fmap option_fmap option_map default
                                            from_option id];
      intros [= <- <-]; by rewrite Htake.
  - rewrite scan_exp_app by done.
    destruct (scan_exp r0) as [r2|]; cbn [fmap option_fmap option_map default
                                            from_option id];
      intros [= <- <-]; by rewrite ?Htake.
Qed.

Lemma scan_number_numeral (s : str) (f : float) (r : str) :
  scan_number s = Some (PFloat f, r) →
  f = FNumeral (take (length s - length r) s).
Proof.
  unfold scan_number. intros Hs. by repeat case_match; simplify_eq.
Qed.

Lemma scan_number_head (s : str) (r : value * str) :
  scan_number s = Some r →
  ∃ c t, s = c :: t ∧ (c = 45 ∨ is_digit c = true).
Proof.
  unfold scan_number, scan_integer. intros Hs.
  destruct s as [|c t]; [done|]. exists c, t. split; [done|].
  destruct (N.eqb_spec c 45); [by left|right].
  destruct (N.eqb_spec c 48) as [->|]; [done|].
  by destruct (is_digit c).
Qed.

Lemma scan_number_float (numeral rest : str) :
  float_numeral numeral = true → closes rest = true →
  scan_number (numeral ++ rest) = Some (PFloat (FNumeral numeral), rest).
Proof.
  unfold float_numeral. intros Hn Hrest.
  destruct (scan_number numeral) as [[[] [|]]|] eqn:Hscan; try done.
  rewrite (scan_number_app _ _ _ _ Hrest Hscan).
  apply scan_number_numeral in Hscan. subst f. cbn [length app].
  by rewrite Nat.sub_0_r, firstn_all.
Qed.

Lemma float_repr_head (f : float) :
  storable_float f = true →
  ∃ c t, float_repr f = c :: t ∧ value_head c = true.
Proof.
  destruct f as [numeral| | |]; try done; intros Hf;
    try (by eexists _, _; split; [reflexivity|]).
  unfold storable_float, float_numeral in Hf.
  destruct (scan_number numeral) as [r|] eqn:Hscan; [|done].
  destruct (scan_number_head _ _ Hscan) as (c & t & -> & Hc).
  exists c, t. split; [done|]. unfold value_head.
  destruct Hc as [->| ->]; [done|]. by rewrite !orb_true_r.
Qed.

Lemma scan_once_float (fuel : nat) (f : float) (rest : str) :
  storable_float f = true → closes rest = true →
  scan_once (S fuel) (float_repr f ++ rest) = Some (PFloat f, rest).
Proof.
  destruct f as [numeral| | |]; try done; intros Hf Hrest.
  pose proof (scan_number_float numeral rest Hf Hrest) as Hnum.
  unfold storable_float, float_numeral in Hf.
  destruct (scan_number numeral) as [r|] eqn:Hscan; [|done].
  destruct (scan_number_head _ _ Hscan) as (c & t & -> & Hc).
  by apply scan_once_number.
Qed.

(** *** Induction on values *)

Lemma value_nested_ind (P : value → Prop) :
  P PNone →
  (∀ b, P (PBool b)) →
  (∀ z, P (PInt z)) →
  (∀ f, P (PFloat f)) →
  (∀ s, P (PStr s)) →
  (∀ items, Forall P items → P (PList items)) →
  (∀ items, Forall (λ kv, P kv.2) items → P (PDict items)) →
  (∀ shown, P (PObj shown)) →
  ∀ v, P v.
Proof.
  intros HNone HBool HInt HFloat HStr HList HDict HObj.
  refine (fix go (v : value) : P v :=
            match v with
            | PNone => HNone
            | PBool b => HBool b
            | PInt z => HInt z
            | PFloat f => HFloat f
            | PStr s => HStr s
            | PList items =>
                HList items
                  ((fix all (l : list value) : Forall P l :=
                      match l with
                      | [] => @List.Forall_nil _ P
                      | x :: l' => @List.Forall_cons _ P x l' (go x) (all l')
                      end) items)
            | PDict items =>
                HDict items
                  ((fix all (l : list (key * value))
                      : Forall (λ kv, P kv.2) l :=
                      match l with
                      | [] => @List.Forall_nil _ _
                      | kv :: l' =>
                          @List.Forall_cons _ (λ kv, P kv.2) kv l' (go kv.2)
                                            (all l')
                      end) items)
            | PObj shown => HObj shown
            end).
Qed.

(** *** Whitespace and first characters *)

Lemma skip_ws_solid (s : str) : solid s → skip_ws s = s.
Proof. destruct s as [|c s]; [done|]. simpl. by intros ->. Qed.

Lemma skip_ws_spaces (n : nat) (s : str) :
  solid s → skip_ws (replicate n 32 ++ s) = s.
Proof.
  intros Hs. induction n as [|n IH]; [by apply skip_ws_solid|]. exact IH.
Qed.

Lemma skip_ws_newline_indent (level : nat) (s : str) :
  solid s → skip_ws (newline_indent level ++ s) = s.
Proof. intros Hs. unfold newline_indent. by apply skip_ws_spaces. Qed.

Lemma value_head_cases (c : N) :
  value_head c = true →
  48 ≤ c ≤ 57 ∨ c = 34 ∨ c = 45 ∨ c = 91 ∨ c = 123 ∨ c = 110 ∨ c = 116 ∨
  c = 102 ∨ c = 73.
Proof.
  unfold value_head, is_digit.
  rewrite !orb_true_iff, andb_true_iff, !N.eqb_eq, !N.leb_le. tauto.
Qed.

Lemma value_head_solid (c : N) (s : str) : value_head c = true → solid (c :: s).
Proof.
  intros Hc%value_head_cases. unfold solid, is_ws.
  rewrite !orb_false_iff, !N.eqb_neq. lia.
Qed.

Lemma value_head_starts (c k : N) (s : str) :
  value_head c = true → k = 93 ∨ k = 125 ∨ k = 65279 →
  starts_with k (c :: s) = false.
Proof.
  intros Hc%value_head_cases Hk. unfold starts_with. apply N.eqb_neq. lia.
Qed.

Lemma encode_head (level : nat) (v : value) :
  storable v = true →
  ∃ c t, encode level v = c :: t ∧ value_head c = true.
Proof.
  destruct v as [|[]|z|f|s|[|x items]|[|kv items]|shown]; try done;
    intros Hv; try (by eexists _, _; split; [reflexivity|]);
    [|by apply float_repr_head].
  destruct (int_repr_head z) as (c & t & Hz & Hc). exists c, t. split; [done|].
  unfold value_head. destruct Hc as [->| ->]; [done|].
  by rewrite !orb_true_r.
Qed.

(** *** Lists *)

Lemma join_cons_cons (sep c c' : str) (chunks : list str) :
  join sep (c :: c' :: chunks) = c ++ sep ++ join sep (c' :: chunks).
Proof. reflexivity. Qed.

Lemma join_cons_solid (sep : str) (level : nat) (x : value) (items : list value)
    (rest : str) :
  storable x = true →
  solid (join sep (encode level <$> x :: items) ++ rest).
Proof.
  intros Hx. destruct (encode_head level x Hx) as (c & t & Henc & Hc).
  rewrite fmap_cons, Henc.
  destruct items; cbn [join fmap list_fmap app]; by apply value_head_solid.
Qed.

Lemma array_items_encode (items : list value) (level fuel : nat) (rest : str) :
  items ≠ [] →
  Forall (λ v, storable v = true ∧ roundtrips v) items →
  (sum_list ((λ x, S (need x)) <$> items) ≤ fuel)%nat →
  array_items fuel
    (join (44 :: newline_indent (S level)) (encode (S level) <$> items) ++
     newline_indent level ++ 93 :: rest) = Some (items, rest).
Proof.
  revert fuel. induction items as [|x items IH]; [done|].
  intros fuel _ [[Hnat Hx] Hitems]%Forall_cons Hfuel.
  change (S (need x) + sum_list ((λ x, S (need x)) <$> items) ≤ fuel)%nat
    in Hfuel.
  destruct fuel as [|fuel]; [lia|].
  destruct items as [|y items].
  - cbn [fmap list_fmap join array_items].
    rewrite Hx; [|lia|reflexivity].
    rewrite skip_ws_newline_indent by done.
    by rewrite N.eqb_refl.
  - rewrite 2!fmap_cons, join_cons_cons, <- fmap_cons.
    rewrite <- !app_assoc. cbn [array_items].
    rewrite Hx; [|lia|reflexivity]. cbn [app skip_ws is_ws N.eqb Pos.eqb orb].
    rewrite skip_ws_newline_indent
      by (apply join_cons_solid; by apply Forall_cons in Hitems as [[? _] _]).
    rewrite IH; [done|done|done|]. lia.
Qed.

(** *** Dicts *)

Lemma key_eqb_str (k : key) (s : str) : k ≠ KStr s → key_eqb k (KStr s) = false.
Proof.
  destruct k as [s'| | |]; try done. intros Hne. simpl.
  apply bool_decide_eq_false. congruence.
Qed.

Lemma dict_set_new (d : list (key * value)) (s : str) (v : value) :
  KStr s ∉ d.*1 → dict_set d (KStr s) v = d ++ [(KStr s, v)].
Proof.
  induction d as [|[k' v'] d IH]; [done|].
  rewrite fmap_cons, not_elem_of_cons. intros [Hne Hd]. cbn [dict_set].
  rewrite key_eqb_str by done. by rewrite IH.
Qed.

Lemma dict_of_pairs_acc (acc : list (key * value)) (pairs : list (str * value)) :
  NoDup ((acc ++ string_keys pairs).*1) →
  foldl (λ d kv, dict_set d kv.1 kv.2) acc (string_keys pairs) =
  acc ++ string_keys pairs.
Proof.
  revert acc. induction pairs as [|[s v] pairs IH]; intros acc Hnd.
  - by rewrite app_nil_r.
  - change (string_keys ((s, v) :: pairs))
      with ((KStr s, v) :: string_keys pairs) in *.
    cbn [foldl fst snd].
    rewrite (cons_middle _ acc) in Hnd. rewrite app_assoc in Hnd.
    rewrite dict_set_new.
    + rewrite IH by done. by rewrite <- app_assoc.
    + rewrite fmap_app in Hnd. apply NoDup_app in Hnd as [Hacc _].
      rewrite fmap_app in Hacc. apply NoDup_app in Hacc as (_ & Hdisj & _).
      intros Hin. apply (Hdisj _ Hin). apply list_elem_of_singleton.
      reflexivity.
Qed.

Lemma dict_of_string_keys (pairs : list (str * value)) :
  NoDup (string_keys pairs).*1 →
  dict_of_pairs (string_keys pairs) = string_keys pairs.
Proof. intros Hnd. unfold dict_of_pairs. by rewrite dict_of_pairs_acc. Qed.

Lemma string_keys_of (items : list (key * value)) :
  forallb (λ kv, storable_key kv.1 && storable kv.2) items = true →
  ∃ pairs, items = string_keys pairs ∧
           Forall (λ kv, storable_str kv.1 = true ∧ storable kv.2 = true) pairs.
Proof.
  induction items as [|[k v] items IH]; simpl.
  - intros _. by exists [].
  - intros [[Hk Hv]%andb_prop Hitems]%andb_prop.
    destruct (IH Hitems) as (pairs & -> & Hpairs).
    destruct k as [s| | |]; try done.
    exists ((s, v) :: pairs). split; [done|]. by constructor.
Qed.

Lemma object_items_encode (pairs : list (str * value)) (level fuel : nat)
    (rest : str) :
  pairs ≠ [] →
  Forall (λ kv, storable_str kv.1 = true ∧ storable kv.2 = true ∧
                roundtrips kv.2) pairs →
  (sum_list ((λ kv, S (need kv.2)) <$> pairs) ≤ fuel)%nat →
  object_items fuel
    (join (44 :: newline_indent (S level))
          (item_text (S level) <$> string_keys pairs) ++
     newline_indent level ++ 125 :: rest) = Some (pairs, rest).
Proof.
  revert fuel. induction pairs as [|[s v] pairs IH]; [done|].
  intros fuel _ [(Hs & Hnat & Hv) Hpairs]%Forall_cons Hfuel.
  cbn [fst snd] in Hs, Hnat, Hv.
  change (S (need v) + sum_list ((λ kv, S (need kv.2)) <$> pairs) ≤ fuel)%nat
    in Hfuel.
  destruct fuel as [|fuel]; [lia|].
  assert (∀ tail,
            object_items (S fuel) (item_text (S level) (KStr s, v) ++ tail) =
            match scan_once fuel (encode (S level) v ++ tail) with
            | None => None
            | Some (v', r2) =>
                match skip_ws r2 with
                | c :: r3 =>
                    if c =? 125 then Some ([(s, v')], r3)
                    else if c =? 44 then
                      match object_items fuel (skip_ws r3) with
                      | Some (pairs, rest) => Some ((s, v') :: pairs, rest)
                      | None => None
                      end
                    else None
                | [] => None
                end
            end) as Hstep.
  { intros tail. unfold item_text. cbn [fst snd key_str].
    rewrite <- !app_assoc.
    destruct (scanstring_encode s ([58; 32] ++ encode (S level) v ++ tail) Hs)
      as (body & -> & Hbody).
    cbn [object_items]. rewrite N.eqb_refl, Hbody.
    cbn [app skip_ws is_ws N.eqb Pos.eqb orb].
    destruct (encode_head (S level) v Hnat) as (c & t & Henc & Hc).
    rewrite Henc. cbn [app]. by rewrite skip_ws_solid by by apply value_head_solid. }
  destruct pairs as [|[s' v'] pairs].
  - cbn [string_keys fmap list_fmap join]. rewrite Hstep.
    rewrite Hv; [|lia|reflexivity].
    rewrite skip_ws_newline_indent by done.
    by rewrite N.eqb_refl.
  - change (item_text (S level) <$> string_keys ((s, v) :: (s', v') :: pairs))
      with (item_text (S level) (KStr s, v) ::
            item_text (S level) (KStr s', v') ::
            (item_text (S level) <$> string_keys pairs)).
    rewrite join_cons_cons.
    change (item_text (S level) (KStr s', v') ::
            (item_text (S level) <$> string_keys pairs))
      with (item_text (S level) <$> string_keys ((s', v') :: pairs)).
    rewrite <- !app_assoc. rewrite Hstep.
    rewrite Hv; [|lia|reflexivity]. cbn [app skip_ws is_ws N.eqb Pos.eqb orb].
    rewrite skip_ws_newline_indent.
    + rewrite IH; [done|done|done|]. lia.
    + change (string_keys ((s', v') :: pairs))
        with ((KStr s', v') :: string_keys pairs).
      rewrite fmap_cons.
      destruct (string_keys pairs); by cbn [join fmap list_fmap app].
Qed.

(** *** Values *)

Lemma forallb_Forall {A} (f : A → bool) (l : list A) :
  forallb f l = true → Forall (λ x, f x = true) l.
Proof.
  induction l as [|x l IH]; simpl; [by constructor|].
  intros [Hx Hl]%andb_prop. constructor; auto.
Qed.

Lemma join_cons_head (sep : str) (level : nat) (x : value) (items : list value)
    (rest : str) :
  storable x = true →
  ∃ c t, join sep (encode level <$> x :: items) ++ rest = c :: t ∧
         value_head c = true.
Proof.
  intros Hx. destruct (encode_head level x Hx) as (c & t & Henc & Hc).
  rewrite fmap_cons, Henc.
  destruct items; cbn [join fmap list_fmap app]; by eexists _, _.
Qed.

Lemma need_string_keys (pairs : list (str * value)) :
  sum_list ((λ kv, S (need kv.2)) <$> string_keys pairs) =
  sum_list ((λ kv, S (need kv.2)) <$> pairs).
Proof. unfold string_keys. by rewrite <- list_fmap_compose. Qed.

(** With enough fuel the scanner reads a native value back from its text. *)
Lemma scan_once_encode (v : value) : storable v = true → roundtrips v.
Proof.
  induction v as [|b|z|f|s|items IH|items IH|shown] using value_nested_ind;
    intros Hnat level fuel rest Hfuel Hrest; try done;
    (destruct fuel as [|fuel]; [simpl in Hfuel; lia|]).
  - reflexivity.
  - by destruct b.
  - by apply scan_once_int.
  - by apply scan_once_float.
  - destruct (scanstring_encode s rest Hnat) as (body & Heq & Hbody).
    cbn [encode]. rewrite Heq. cbn [scan_once]. rewrite N.eqb_refl.
    by rewrite Hbody.
  - destruct items as [|x items]; [reflexivity|].
    assert (Forall (λ v, storable v = true ∧ roundtrips v) (x :: items))
      as Hitems.
    { apply forallb_Forall in Hnat. rewrite Forall_forall in *. naive_solver. }
    pose proof (Forall_inv Hitems) as [Hx _].
    destruct (join_cons_head (44 :: newline_indent (S level)) (S level) x items
                (newline_indent level ++ 93 :: rest) Hx)
      as (c & t & Hjoin & Hc).
    change (encode level (PList (x :: items)) ++ rest)
      with (91 :: ((newline_indent (S level) ++
                    join (44 :: newline_indent (S level))
                      (encode (S level) <$> x :: items) ++
                    newline_indent level ++ [93]) ++ rest)).
    rewrite <- !app_assoc. cbn [scan_once N.eqb Pos.eqb].
    rewrite skip_ws_newline_indent
      by (cbn [app]; rewrite Hjoin; by apply value_head_solid).
    cbn [app]. rewrite Hjoin, value_head_starts by auto. rewrite <- Hjoin.
    rewrite array_items_encode; [done|done|done|].
    cbn [need] in Hfuel. lia.
  - destruct items as [|kv items]; [reflexivity|].
    apply andb_prop in Hnat as [Hnd%bool_decide_eq_true Hkeys].
    destruct (string_keys_of _ Hkeys) as (pairs & Heq & Hpairs).
    rewrite Heq in *. clear Heq.
    destruct pairs as [|[s v] pairs]; [done|].
    assert (Forall (λ kv, storable_str kv.1 = true ∧ storable kv.2 = true ∧
                          roundtrips kv.2) ((s, v) :: pairs)) as Hitems.
    { unfold string_keys in IH. rewrite Forall_fmap in IH.
      rewrite Forall_forall in *. intros sv Hsv.
      destruct (Hpairs sv Hsv) as [? ?]. specialize (IH sv Hsv). auto. }
    change (encode level (PDict (string_keys ((s, v) :: pairs))) ++ rest)
      with (123 :: ((newline_indent (S level) ++
                     join (44 :: newline_indent (S level))
                       (item_text (S level) <$> string_keys ((s, v) :: pairs)) ++
                     newline_indent level ++ [125]) ++ rest)).
    rewrite <- !app_assoc. cbn [scan_once N.eqb Pos.eqb].
    assert (∃ t, join (44 :: newline_indent (S level))
                   (item_text (S level) <$> string_keys ((s, v) :: pairs)) ++
                 newline_indent level ++ [125] ++ rest = 34 :: t) as [t Hjoin].
    { change (string_keys ((s, v) :: pairs))
        with ((KStr s, v) :: string_keys pairs).
      rewrite fmap_cons.
      destruct (string_keys pairs); cbn [join fmap list_fmap app]; by eexists. }
    rewrite skip_ws_newline_indent by by rewrite Hjoin.
    rewrite Hjoin. cbn [starts_with N.eqb Pos.eqb]. rewrite <- Hjoin.
    change ([125] ++ rest) with (125 :: rest).
    rewrite object_items_encode; [|done|done|].
    + by rewrite dict_of_string_keys.
    + cbn [need] in Hfuel. rewrite need_string_keys in Hfuel. lia.
Qed.

(** *** Fuel *)

Lemma sum_list_fmap_le {A} (f g : A → nat) (l : list A) :
  Forall (λ x, (f x ≤ g x)%nat) l →
  (sum_list (f <$> l) ≤ sum_list (g <$> l))%nat.
Proof.
  induction 1 as [|x l Hx Hl IH]; [done|].
  change (f x + sum_list (f <$> l) ≤ g x + sum_list (g <$> l))%nat. lia.
Qed.

Lemma sum_list_join (sep : str) (chunks : list str) :
  (1 ≤ length sep)%nat →
  (sum_list ((λ c, S (length c)) <$> chunks) ≤ S (length (join sep chunks)))%nat.
Proof.
  intros Hsep. induction chunks as [|c chunks IH]; [simpl; lia|].
  change (S (length c) + sum_list ((λ c, S (length c)) <$> chunks)
          ≤ S (length (join sep (c :: chunks))))%nat.
  destruct chunks as [|c' chunks].
  - simpl. lia.
  - rewrite join_cons_cons, !length_app. lia.
Qed.

Lemma need_le_length (v : value) (level : nat) :
  storable v = true → (need v ≤ length (encode level v))%nat.
Proof.
  revert level.
  induction v as [|b|z|f|s|items IH|items IH|shown] using value_nested_ind;
    intros level Hnat; try done.
  - simpl. lia.
  - destruct b; simpl; lia.
  - destruct (int_repr_head z) as (c & t & Hz & _). simpl. rewrite Hz.
    simpl. lia.
  - destruct (float_repr_head f Hnat) as (c & t & Hf & _). simpl. rewrite Hf.
    simpl. lia.
  - unfold encode, encode_basestring_ascii. rewrite !length_app. simpl. lia.
  - destruct items as [|x items]; [simpl; lia|].
    change (encode level (PList (x :: items)))
      with ([91] ++ newline_indent (S level) ++
            join (44 :: newline_indent (S level))
              (encode (S level) <$> x :: items) ++
            newline_indent level ++ [93]).
    rewrite !length_app.
    pose proof (sum_list_join (44 :: newline_indent (S level))
                  (encode (S level) <$> x :: items)) as Hjoin.
    rewrite <- list_fmap_compose in Hjoin.
    assert (sum_list ((λ x, S (need x)) <$> x :: items) ≤
            sum_list ((λ c, S (length c)) ∘ encode (S level) <$> x :: items))%nat
      as Hsum.
    { apply sum_list_fmap_le. apply forallb_Forall in Hnat.
      rewrite Forall_forall in *. intros y Hy. simpl.
      specialize (IH y Hy (S level) (Hnat y Hy)). lia. }
    specialize (Hjoin ltac:(simpl; lia)).
    cbn [need]. change (length [91]) with 1%nat.
    change (length [93]) with 1%nat. lia.
  - destruct items as [|kv items]; [simpl; lia|].
    change (encode level (PDict (kv :: items)))
      with ([123] ++ newline_indent (S level) ++
            join (44 :: newline_indent (S level))
              (item_text (S level) <$> kv :: items) ++
            newline_indent level ++ [125]).
    rewrite !length_app.
    pose proof (sum_list_join (44 :: newline_indent (S level))
                  (item_text (S level) <$> kv :: items)) as Hjoin.
    rewrite <- list_fmap_compose in Hjoin.
    assert (sum_list ((λ kv, S (need kv.2)) <$> kv :: items) ≤
            sum_list ((λ c, S (length c)) ∘ item_text (S level) <$> kv :: items))%nat
      as Hsum.
    { apply sum_list_fmap_le. apply andb_prop in Hnat as [_ Hnat].
      apply forallb_Forall in Hnat.
      rewrite Forall_forall in *. intros y Hy.
      destruct (andb_prop _ _ (Hnat y Hy)) as [_ Hy2].
      specialize (IH y Hy (S level) Hy2).
      unfold compose, item_text. rewrite !length_app. lia. }
    specialize (Hjoin ltac:(simpl; lia)).
    cbn [need]. change (length [123]) with 1%nat.
    change (length [125]) with 1%nat. lia.
Qed.

(** The values of the narrower class are among them. *)
Lemma json_native_storable (v : value) :
  json_native v = true → storable v = true.
Proof.
  induction v as [|b|z|f|s|items IH|items IH|shown] using value_nested_ind;
    intros Hnat; try done.
  - by apply scalar_storable_str.
  - cbn [storable]. apply forallb_Forall in Hnat. apply forallb_forall.
    rewrite Forall_forall in *. intros x Hx%list_elem_of_In. auto.
  - cbn [json_native storable] in *. apply andb_prop in Hnat as [Hnd Hnat].
    rewrite Hnd. cbn [andb]. apply forallb_Forall in Hnat.
    apply forallb_forall. rewrite Forall_forall in *.
    intros [k x] Hx%list_elem_of_In. specialize (IH _ Hx).
    specialize (Hnat _ Hx). cbn [fst snd] in *.
    apply andb_prop in Hnat as [Hk Hv]. rewrite IH by done.
    destruct k; try done. cbn [string_key storable_key] in *.
    by rewrite scalar_storable_str.
Qed.

(** *** The round trip *)

Lemma loads_dumps (v : value) : storable v = true → loads (dumps v) = Some v.
Proof.
  intros Hnat. unfold loads, dumps.
  pose proof (need_le_length v 0 Hnat) as Hneed.
  pose proof (scan_once_encode v Hnat 0%nat (S (2 * length (encode 0 v))) [])
    as Hscan.
  rewrite app_nil_r in Hscan.
  destruct (encode_head 0 v Hnat) as (c & t & Henc & Hc).
  rewrite Henc in *.
  rewrite value_head_starts by auto.
  rewrite skip_ws_solid by by apply value_head_solid.
  rewrite Hscan; [done| |done]. lia.
Qed.

(** *** The fuel of the scanner

    Every successful scan consumes at least one character, so the result of
    the scanner no longer depends on the fuel once the fuel is twice the
    length of the text: [loads] gives the scanner enough. *)

Lemma skip_ws_length (s : str) : (length (skip_ws s) ≤ length s)%nat.
Proof.
  induction s as [|c s IH]; [done|]. simpl. destruct (is_ws c); simpl; lia.
Qed.

Lemma strip_prefix_length (lit s rest : str) :
  strip_prefix lit s = Some rest → length s = (length lit + length rest)%nat.
Proof.
  revert s. induction lit as [|a lit IH]; intros s; simpl.
  - by intros [= ->].
  - destruct s as [|b s]; [done|].
    destruct (a =? b); [|done]. intros Hs%IH. simpl. lia.
Qed.

Lemma scan_digits_length (s : str) :
  (length (scan_digits s).2 ≤ length s)%nat.
Proof.
  induction s as [|c s IH]; [done|]. simpl.
  destruct (is_digit c); [|done].
  destruct (scan_digits s) as [u rest]. simpl in *. lia.
Qed.

Lemma add_char_Some (c : N) (r : option (str * str)) (chars rest : str) :
  add_char c r = Some (chars, rest) → ∃ chars', r = Some (chars', rest).
Proof. destruct r as [[chars' rest']|]; [|done]. intros [= _ ->]. by eexists. Qed.

Lemma scanstring_shorter (s chars rest : str) :
  scanstring s = Some (chars, rest) → (length rest < length s)%nat.
Proof.
  remember (length s) as n eqn:Hn. revert s chars rest Hn.
  induction n as [n IH] using lt_wf_ind. intros s chars rest -> Hscan.
  assert (∀ c s' chars' rest',
            (length s' < length s)%nat →
            add_char c (scanstring s') = Some (chars', rest') →
            (length rest' < length s)%nat) as Hrec.
  { intros c s' chars' rest' Hlen [chars'' Hs']%add_char_Some.
    specialize (IH (length s') Hlen s' chars'' rest' eq_refl Hs'). lia. }
  destruct s as [|c s1]; [done|]. cbn [scanstring] in Hscan.
  repeat case_match; simplify_eq; try done; simpl length in *;
    try lia; (eapply Nat.lt_le_trans; [eapply Hrec; [|done]|]); simpl; lia.
Qed.

Lemma scan_integer_shorter (s rest : str) (neg : bool) (u : Decimal.uint) :
  scan_integer s = Some (neg, u, rest) → (length rest < length s)%nat.
Proof.
  unfold scan_integer. intros Hscan.
  repeat case_match; simplify_eq; simpl length in *; try lia;
    match goal with
    | Hd : is_digit ?c = true, H : scan_digits (?c :: ?t) = (_, ?r) |- _ =>
        cbn [scan_digits] in H; rewrite Hd in H;
        pose proof (scan_digits_length t) as Hlen;
        destruct (scan_digits t); simplify_eq; simpl in Hlen; lia
    end.
Qed.

Lemma scan_frac_shorter (s rest : str) :
  scan_frac s = Some rest → (length rest ≤ length s)%nat.
Proof.
  unfold scan_frac. intros Hscan.
  repeat case_match; simplify_eq.
  match goal with
  | |- (length (scan_digits ?t).2 ≤ _)%nat =>
      pose proof (scan_digits_length t); simpl in *; lia
  end.
Qed.

Lemma scan_exp_shorter (s rest : str) :
  scan_exp s = Some rest → (length rest ≤ length s)%nat.
Proof.
  unfold scan_exp. intros Hscan.
  repeat case_match; simplify_eq;
    match goal with
    | |- (length (scan_digits ?t).2 ≤ _)%nat =>
        pose proof (scan_digits_length t); simpl in *; lia
    end.
Qed.

Lemma scan_number_shorter (s rest : str) (v : value) :
  scan_number s = Some (v, rest) → (length rest < length s)%nat.
Proof.
  unfold scan_number. intros Hscan.
  destruct (scan_integer s) as [[[neg u] r0]|] eqn:Hint; [|done].
  apply scan_integer_shorter in Hint.
  assert (length (default r0 (scan_frac r0)) ≤ length r0)%nat as Hfrac.
  { destruct (scan_frac r0) eqn:H; [by apply scan_frac_shorter|done]. }
  assert (length (default (default r0 (scan_frac r0))
                     (scan_exp (default r0 (scan_frac r0))))
          ≤ length (default r0 (scan_frac r0)))%nat as Hexp.
  { destruct (scan_exp _) eqn:H; [by apply scan_exp_shorter|done]. }
  cbv zeta in Hscan.
  destruct (scan_frac r0), (scan_exp _); simplify_eq; simpl in *; lia.
Qed.

(** A successful scan leaves a strictly shorter text. *)
Lemma scan_shorter (fuel : nat) :
  (∀ s v rest, scan_once fuel s = Some (v, rest) →
               (length rest < length s)%nat) ∧
  (∀ s vs rest, array_items fuel s = Some (vs, rest) →
                (length rest < length s)%nat) ∧
  (∀ s kvs rest, object_items fuel s = Some (kvs, rest) →
                 (length rest < length s)%nat).
Proof.
  induction fuel as [|fuel (IHs & IHa & IHo)]; [done|].
  split; [|split].
  - intros s v rest Hscan. destruct s as [|c s']; [done|].
    cbn [scan_once] in Hscan.
    pose proof (skip_ws_length s') as Hws.
    repeat case_match; simplify_eq; simpl length in *;
      repeat match goal with
        | H : scanstring _ = Some _ |- _ => apply scanstring_shorter in H
        | H : object_items fuel _ = Some _ |- _ => apply IHo in H
        | H : array_items fuel _ = Some _ |- _ => apply IHa in H
        | H : scan_number _ = Some _ |- _ => apply scan_number_shorter in H
        | H : strip_prefix _ _ = Some _ |- _ => apply strip_prefix_length in H
        | H : skip_ws s' = _ |- _ => rewrite H in *
        end; simpl in *; try lia.
    all: destruct (skip_ws s'); simpl in *; lia.
  - intros s vs rest Hscan. cbn [array_items] in Hscan.
    repeat case_match; simplify_eq;
      repeat match goal with
        | H : scan_once fuel _ = Some _ |- _ => apply IHs in H
        | H : array_items fuel _ = Some _ |- _ => apply IHa in H
        | H : skip_ws ?r = _ :: ?r' |- _ =>
            let Hw := fresh in
            pose proof (skip_ws_length r) as Hw; rewrite H in Hw; clear H
        end; simpl in *;
      try match goal with
        | H : (length ?a < length (skip_ws ?b))%nat |- _ =>
            pose proof (skip_ws_length b)
        end; lia.
  - intros s kvs rest Hscan. cbn [object_items] in Hscan.
    repeat case_match; simplify_eq;
      repeat match goal with
        | H : scanstring _ = Some _ |- _ => apply scanstring_shorter in H
        | H : scan_once fuel _ = Some _ |- _ => apply IHs in H
        | H : object_items fuel _ = Some _ |- _ => apply IHo in H
        | H : skip_ws ?r = _ :: ?r' |- _ =>
            let Hw := fresh in
            pose proof (skip_ws_length r) as Hw; rewrite H in Hw; clear H
        end; simpl in *;
      repeat match goal with
        | H : (length ?a < length (skip_ws ?b))%nat |- _ =>
            pose proof (skip_ws_length b); revert H
        end; intros; lia.
Qed.

(** One step of each of the three functions. *)
Lemma scan_once_S (fuel : nat) (c : N) (s : str) :
  scan_once (S fuel) (c :: s) =
  ltac:(let body := eval cbn [scan_once] in (scan_once (S fuel) (c :: s)) in
        exact body).
Proof. reflexivity. Qed.

Lemma array_items_S (fuel : nat) (s : str) :
  array_items (S fuel) s =
  ltac:(let body := eval cbn [array_items] in (array_items (S fuel) s) in
        exact body).
Proof. reflexivity. Qed.

Lemma object_items_S (fuel : nat) (s : str) :
  object_items (S fuel) s =
  ltac:(let body := eval cbn [object_items] in (object_items (S fuel) s) in
        exact body).
Proof. reflexivity. Qed.

(** One more unit of fuel changes nothing once there is twice the length of
    the text. *)
Lemma scan_fuel_step (fuel : nat) :
  (∀ s, (2 * length s ≤ fuel)%nat → scan_once (S fuel) s = scan_once fuel s) ∧
  (∀ s, (2 * length s + 1 ≤ fuel)%nat →
        array_items (S fuel) s = array_items fuel s) ∧
  (∀ s, (2 * length s + 1 ≤ fuel)%nat →
        object_items (S fuel) s = object_items fuel s).
Proof.
  induction fuel as [|fuel (IHs & IHa & IHo)].
  { split; [|split]; intros s Hlen; [|simpl in Hlen; lia ..].
    destruct s; [done|simpl in Hlen; lia]. }
  split; [|split].
  - intros [|c s'] Hlen; [done|]. simpl length in Hlen.
    pose proof (skip_ws_length s') as Hws.
    rewrite (scan_once_S (S fuel)), (scan_once_S fuel).
    rewrite (IHa (skip_ws s')), (IHo (skip_ws s')) by lia. reflexivity.
  - intros s Hlen.
    rewrite (array_items_S (S fuel)), (array_items_S fuel).
    rewrite (IHs s) by lia.
    destruct (scan_once fuel s) as [[v r]|] eqn:Hscan; [|done].
    apply (proj1 (scan_shorter fuel)) in Hscan.
    pose proof (skip_ws_length r) as Hws.
    destruct (skip_ws r) as [|c r']; [done|]. simpl length in Hws.
    pose proof (skip_ws_length r') as Hws'.
    by rewrite (IHa (skip_ws r')) by lia.
  - intros s Hlen.
    rewrite (object_items_S (S fuel)), (object_items_S fuel).
    destruct s as [|q s1]; [done|]. simpl length in Hlen.
    destruct (q =? 34); [|done].
    destruct (scanstring s1) as [[k r]|] eqn:Hkey; [|done].
    apply scanstring_shorter in Hkey.
    pose proof (skip_ws_length r) as Hws.
    destruct (skip_ws r) as [|colon r1]; [done|]. simpl length in Hws.
    destruct (colon =? 58); [|done].
    pose proof (skip_ws_length r1) as Hws1.
    rewrite (IHs (skip_ws r1)) by lia.
    destruct (scan_once fuel (skip_ws r1)) as [[v r2]|] eqn:Hscan; [|done].
    apply (proj1 (scan_shorter fuel)) in Hscan.
    pose proof (skip_ws_length r2) as Hws2.
    destruct (skip_ws r2) as [|c r3]; [done|]. simpl length in Hws2.
    pose proof (skip_ws_length r3) as Hws3.
    by rewrite (IHo (skip_ws r3)) by lia.
Qed.

Lemma scan_once_fuel (s : str) (fuel extra : nat) :
  (2 * length s ≤ fuel)%nat → scan_once (extra + fuel) s = scan_once fuel s.
Proof.
  intros Hlen. induction extra as [|extra IH]; [done|].
  rewrite <- IH. apply scan_fuel_step. lia.
Qed.

(** The result of [loads] is the result of the scanner with any larger
    amount of fuel. *)
Lemma loads_fuel (s : str) (fuel : nat) :
  (S (2 * length s) ≤ fuel)%nat →
  scan_once fuel (skip_ws s) = scan_once (S (2 * length s)) (skip_ws s).
Proof.
  intros Hfuel. pose proof (skip_ws_length s) as Hws.
  replace fuel with ((fuel - S (2 * length s)) + S (2 * length s))%nat by lia.
  apply scan_once_fuel. lia.
Qed.

End JsonFacts.
(** ** Facts about the document store *)

Module StorageFacts.
Import Py Json Storage AiDetection AiDetectionFacts.

(** *** What [read] returns *)

Lemma accepted_length (key : string) :
  accepted key = true ↔ (String.length key ≤ 250)%nat.
Proof.
  unfold accepted, file_name, NAME_MAX. rewrite Nat.leb_le.
  assert (String.length (String.append key ".json") =
          (String.length key + 5)%nat) as ->; [|lia].
  induction key as [|c key IH]; [done|]. simpl. by rewrite IH.
Qed.

Lemma read_refused (fs : files) (key : string) (default : value) :
  accepted key = false → read fs key default = Raised.
Proof. intros Hkey. unfold read, file_exists. by rewrite Hkey. Qed.

Lemma read_accepted (fs : files) (key : string) (default : value) :
  accepted key = true →
  read fs key default =
  match fs !! file_of key with
  | Some content =>
      match json_load content with
      | Returned data =>
          if is_None default then
            Returned (if isinstance data list_type then data else PList [])
          else
            Returned (if isinstance data (type_of default) then data
                      else default)
      | Raised => Returned (default_or_empty_list default)
      end
  | None => Returned (default_or_empty_list default)
  end.
Proof.
  intros Hkey. unfold read, file_exists. rewrite Hkey.
  by destruct (fs !! file_of key).
Qed.

Lemma read_missing (fs : files) (key : string) (default : value) :
  accepted key = true → fs !! file_of key = None →
  read fs key default = Returned (default_or_empty_list default).
Proof. intros Hkey Hfile. rewrite read_accepted by done. by rewrite Hfile. Qed.

Lemma read_invalid (fs : files) (key : string) (default : value) (content : str) :
  accepted key = true →
  fs !! file_of key = Some content → loads content = None →
  read fs key default = Returned (default_or_empty_list default).
Proof.
  intros Hkey Hfile Hload. rewrite read_accepted by done.
  unfold json_load. by rewrite Hfile, Hload.
Qed.

Lemma read_parsed (fs : files) (key : string) (default data : value)
    (content : str) :
  accepted key = true →
  fs !! file_of key = Some content → loads content = Some data →
  read fs key default =
  Returned (if is_None default
            then (if isinstance data list_type then data else PList [])
            else (if isinstance data (type_of default) then data else default)).
Proof.
  intros Hkey Hfile Hload. rewrite read_accepted by done.
  unfold json_load. rewrite Hfile, Hload. by destruct (is_None default).
Qed.

(** [read] returns exactly for the keys the operating system accepts. *)
Lemma read_returns (fs : files) (key : string) (default : value) :
  accepted key = true ↔ ∃ v, read fs key default = Returned v.
Proof.
  split.
  - intros Hkey. destruct (fs !! file_of key) as [content|] eqn:Hfile.
    + destruct (loads content) as [data|] eqn:Hload.
      * rewrite (read_parsed fs key default data content) by done.
        by eexists.
      * rewrite (read_invalid fs key default content) by done. by eexists.
    + rewrite read_missing by done. by eexists.
  - intros [v Hv]. destruct (accepted key) eqn:Hkey; [done|].
    by rewrite read_refused in Hv.
Qed.

Lemma read_returned (fs : files) (key : string) (default v : value) :
  read fs key default = Returned v → accepted key = true.
Proof. intros Hv. apply (read_returns fs key default). by eexists. Qed.

Lemma container_not_None (default : value) :
  is_container default = true → default_or_empty_list default = default.
Proof. by destruct default. Qed.

Lemma isinstance_container (data default : value) :
  is_container default = true →
  isinstance data (type_of default) = true ↔ type_of data = type_of default.
Proof. destruct default; try done; intros _; destruct data; simpl; naive_solver. Qed.

Lemma isinstance_list (data : value) :
  isinstance data list_type = true ↔ type_of data = list_type.
Proof. apply (isinstance_container data (PList [])). reflexivity. Qed.

(** *** Write, then read *)

Lemma read_write (fs : files) (key : string) (d default : value) :
  accepted key = true → storable d = true →
  read (write fs key d) key default =
  Returned (if is_None default
            then (if isinstance d list_type then d else PList [])
            else (if isinstance d (type_of default) then d else default)).
Proof.
  intros Hkey Hd. apply (read_parsed _ _ _ _ (dumps d)); [done|..].
  - unfold write. apply lookup_insert_eq.
  - by apply JsonFacts.loads_dumps.
Qed.
(** *** The fail-soft contract *)


(** What [read] does there. *)
Example read_long_key : read ∅ long_key (PList []) = Raised.
Proof. by vm_compute. Qed.






(** *** The round trip *)

(** C5, as the specification states it, fails: [json.dump] accepts a dict
    with an [int] key and writes the key as a string, so [{1: "a"}] is read
    back as [{"1": "a"}]. *)
Lemma roundtrip_fails_on_int_key :
  ¬ (∀ (fs : files) (k : string) (d default : value),
       is_container d = true → json_types_only d = true →
       type_of default = type_of d →
       read (write fs k d) k default = Returned d).
Proof.
  intros Hclaim.
  specialize (Hclaim ∅ "k" (PDict [(KInt 1, PStr (txt "a"))]) (PDict [])
                eq_refl eq_refl eq_refl).
  vm_compute in Hclaim. discriminate Hclaim.
Qed.

(** What is read back in that case. *)
Lemma roundtrip_int_key :
  read (write ∅ "k" (PDict [(KInt 1, PStr (txt "a"))])) "k" (PDict []) =
  Returned (PDict [(KStr (txt "1"), PStr (txt "a"))]).
Proof. vm_compute. reflexivity. Qed.

(** C5, amended.  For every list or dict [d] made of [None], booleans,
    integers, floats other than [NaN], strings in which no high surrogate
    is followed by a low surrogate, lists, and dicts whose keys are such
    strings, [read(k, default)] after [write(k, d)], with a [default] of
    the type of [d], returns [d].  The key is one the operating system
    accepts, as it is whenever the write has returned. *)
Theorem read_after_write (fs : files) (k : string) (d default : value) :
  accepted k = true →
  is_container d = true → storable d = true →
  type_of default = type_of d →
  read (write fs k d) k default = Returned d.
Proof.
  intros Hkey Hcont Hnat Htype. rewrite read_write by done.
  assert (is_None default = false) as -> by (by destruct default, d).
  rewrite Htype.
  assert (isinstance d (type_of d) = true) as -> by (by destruct d).
  reflexivity.
Qed.

Lemma read_after_write_witness :
  is_container sample_sightings = true ∧
  storable sample_sightings = true ∧
  type_of (PList []) = type_of sample_sightings ∧
  read (write ∅ "sightings" sample_sightings) "sightings" (PList []) =
  Returned sample_sightings.
Proof.
  split; [reflexivity|]. split; [vm_compute; reflexivity|].
  split; [reflexivity|].
  apply (read_after_write ∅ "sightings");
    [reflexivity|reflexivity|vm_compute; reflexivity|reflexivity].
Defined.

(** Values outside the amended claim do change on the way: an object that
    is not of a JSON type comes back as the string [str()] gives for it, a
    string holding a surrogate pair comes back with the pair merged into
    one code point, and [NaN] comes back as [NaN], which Python holds
    different from the one that was written. *)
Example roundtrip_foreign_object :
  read (write ∅ "k" (PList [PObj (txt "2024-05-01 10:00:00")])) "k" (PList []) =
  Returned (PList [PStr (txt "2024-05-01 10:00:00")]).
Proof. vm_compute. reflexivity. Qed.

Example roundtrip_nan :
  read (write ∅ "k" (PList [PFloat FNaN])) "k" (PList []) =
  Returned (PList [PFloat FNaN]).
Proof. vm_compute. reflexivity. Qed.

Example roundtrip_surrogate_pair :
  read (write ∅ "k" (PList [PStr [55357; 56832]%N])) "k" (PList []) =
  Returned (PList [PStr [128512]%N]).
Proof. vm_compute. reflexivity. Qed.

End StorageFacts.

(** ** Facts about the helpers of the scoring engine *)

Module AiDetectionHelpersFacts.
Import AiDetection AiDetectionFacts AiDetectionHelpers.

(** *** Severity *)

(** X1. Whatever the score and the class, [severity_from_score] returns a
    number from 1 to 5 and the label that goes with it: "Mild" with 1 and 2,
    "Moderate" with 3, "Severe" with 4 and 5.  The label is one of the three
    [severity_badge] has a colour for. *)
Theorem severity_label_number (lower : string → string) (score : Z)
    (pred_class : string) :
  let '(label, number) := severity_from_score lower score pred_class in
  1 ≤ number ≤ 5 ∧
  (label = "Mild" ∧ number ≤ 2 ∨
   label = "Moderate" ∧ number = 3 ∨
   label = "Severe" ∧ 4 ≤ number) ∧
  is_Some (severity_colors !! label).
Proof.
  unfold severity_from_score.
  case_bool_decide;
    [|destruct (score <? 30); [destruct (15 <=? score)|
      destruct (score <? 60); [|destruct (score <? 85)]]];
    (split; [lia|split; [|by eexists]]);
    first [ left; split; [reflexivity|lia]
          | right; left; split; [reflexivity|lia]
          | right; right; split; [reflexivity|lia] ].
Qed.

(** X2. For a given class a higher score never gives a lower severity
    number; for a class that is not "healthy" the number is 1 below 15, 2
    from 15, 3 from 30, 4 from 60 and 5 from 85. *)
Theorem severity_monotone (lower : string → string) (score1 score2 : Z)
    (pred_class : string) :
  score1 ≤ score2 →
  (severity_from_score lower score1 pred_class).2 ≤
  (severity_from_score lower score2 pred_class).2 ∧
  (lower pred_class ≠ "healthy" →
   (severity_from_score lower score1 pred_class).2 =
   if score1 <? 15 then 1 else if score1 <? 30 then 2
   else if score1 <? 60 then 3 else if score1 <? 85 then 4 else 5).
Proof.
  intros Hle. unfold severity_from_score. case_bool_decide as Hhealthy.
  - simpl. split; [lia|done].
  - repeat match goal with
           | |- context [Z.ltb ?a ?b] => destruct (Z.ltb_spec a b)
           | |- context [Z.leb ?a ?b] => destruct (Z.leb_spec a b)
           end; simpl; (split; [|intros _]); lia.
Qed.

Lemma severity_monotone_witness :
  14 ≤ 85 ∧
  (severity_from_score id 14 "Ringworm").2 ≤
  (severity_from_score id 85 "Ringworm").2.
Proof.
  split; [lia|]. apply (severity_monotone id 14 85 "Ringworm"). lia.
Defined.

(** *** The form and the weight table *)

Lemma form_questions : form_options.*1 = questions.
Proof. reflexivity. Qed.

Lemma form_option_weight (q o : string) (opts : list string) :
  (q, opts) ∈ form_options → o ∈ opts →
  ∃ tbl w, score_map !! q = Some tbl ∧ tbl !! o = Some w.
Proof.
  intros Hq Ho.
  assert (Forall (λ qo : string * list string,
                    Forall (λ o, is_Some (score_map !! qo.1 ≫= (.!! o))) qo.2)
                 form_options) as Hall.
  { apply (bool_decide_unpack _). by vm_compute. }
  rewrite Forall_forall in Hall. specialize (Hall _ Hq).
  rewrite Forall_forall in Hall. destruct (Hall _ Ho) as [w Hw].
  cbn [fst] in Hw. destruct (score_map !! q) as [tbl|]; [|done].
  by exists tbl, w.
Qed.

Lemma table_option_offered :
  table_Forall (λ q o _, ∃ opts, (q, opts) ∈ form_options ∧ o ∈ opts).
Proof.
  table_entries;
    (eexists; split;
     [repeat first [apply list_elem_of_here | apply list_elem_of_further]|]);
    apply (bool_decide_unpack _); by vm_compute.
Qed.

Lemma submitted_answer (r : responses) (q : string) :
  submitted r → q ∈ questions →
  ∃ o tbl w, r !! q = Some o ∧ score_map !! q = Some tbl ∧ tbl !! o = Some w.
Proof.
  intros Hsub. rewrite <- form_questions.
  intros ([q' opts] & -> & Hin)%list_elem_of_fmap.
  destruct (proj1 (Forall_forall _ _) Hsub _ Hin) as (o & Hr & Ho).
  destruct (form_option_weight _ _ _ Hin Ho) as (tbl & w & Htbl & Hw).
  by exists o, tbl, w.
Qed.

(** X3. The form and the weight table agree: each option a question offers
    has a weight in that question's table, each entry of the table is
    offered, and the options that trigger a recommendation are offered too.
    So for every response set the form can submit, no answer is silently
    counted as 0 for being unknown, and the score is between 3 and 228. *)
Theorem submitted_score (r : responses) :
  submitted r →
  (∀ q, q ∈ questions →
        ∃ o tbl w, r !! q = Some o ∧ score_map !! q = Some tbl ∧
                   tbl !! o = Some w ∧ weight q o = w) ∧
  (∀ q tbl o w, score_map !! q = Some tbl → tbl !! o = Some w →
                ∃ opts, (q, opts) ∈ form_options ∧ o ∈ opts) ∧
  (∀ ru t, ru ∈ rules → t ∈ rule_triggers ru →
           ∃ opts, (rule_question ru, opts) ∈ form_options ∧ t ∈ opts) ∧
  3 ≤ (calculate_bite_risk_score r).1 ≤ 228.
Proof.
  intros Hsub. split; [|split; [|split]].
  - intros q Hq.
    destruct (submitted_answer r q Hsub Hq) as (o & tbl & w & Hr & Htbl & Hw).
    exists o, tbl, w. repeat split; try done.
    by apply (weight_table q tbl o w).
  - intros q tbl o w Htbl Hw.
    exact (table_Forall_lookup _ q tbl o w table_option_offered Htbl Hw).
  - intros ru t Hru Ht. unfold rules in Hru.
    repeat (apply elem_of_cons in Hru as [->|Hru];
            [simpl in Ht;
             repeat (apply elem_of_cons in Ht as [->|Ht];
                     [eexists; split;
                      [repeat first [apply list_elem_of_here
                                    |apply list_elem_of_further]
                      |apply (bool_decide_unpack _); by vm_compute]|]);
             by apply elem_of_nil in Ht|]).
    by apply elem_of_nil in Hru.
  - unfold calculate_bite_risk_score. simpl.
    split; [|apply total_score_le_228].
    rewrite total_score_questions.
    assert (Zsum (floor <$> questions) = 3) as <- by (by vm_compute).
    assert (Forall (λ q, floor q ≤ contribution r q) questions) as Hall.
    { apply Forall_forall. intros q Hq.
      destruct (submitted_answer r q Hsub Hq) as (o & tbl & w & Hr & Htbl & Hw).
      unfold contribution. rewrite Hr, (weight_table q tbl o w) by done.
      exact (table_Forall_lookup _ q tbl o w table_floor Htbl Hw). }
    clear Hsub. induction Hall as [|q qs Hq Hqs IH]; [done|].
    change (floor q + Zsum (floor <$> qs) ≤
            contribution r q + Zsum (contribution r <$> qs)). lia.
Qed.

Lemma collect_submitted (q1 q2 q3 q4 q5 q6 q7 q8 q9 q10 : string) :
  Forall2 (λ o qo, o ∈ qo.2) [q1; q2; q3; q4; q5; q6; q7; q8; q9; q10]
          form_options →
  submitted (collect_responses q1 q2 q3 q4 q5 q6 q7 q8 q9 q10).
Proof.
  intros Hall. unfold submitted, form_options in *.
  repeat match goal with
         | H : Forall2 _ (_ :: _) (_ :: _) |- _ =>
             apply Forall2_cons in H as [? H]
         end.
  repeat (apply List.Forall_cons; [by eexists; split; [reflexivity|]|]).
  apply List.Forall_nil.
Qed.

Lemma submitted_score_witness :
  submitted friendliest_responses ∧
  3 ≤ (calculate_bite_risk_score friendliest_responses).1 ≤ 228.
Proof.
  assert (submitted friendliest_responses) as Hsub.
  { apply (collect_submitted "Friendly/Calm" "Relaxed (wagging tail, soft ears)"
             "Soft/Avoidant" "Not territorial" "Never aggressive"
             "Friendly approach" "No guarding" "Comfortable with proximity"
             "Appears healthy" "With one other dog").
    repeat (apply List.Forall2_cons;
            [apply (bool_decide_unpack _); by vm_compute|]).
    apply List.Forall2_nil. }
  split; [exact Hsub|]. apply (submitted_score friendliest_responses Hsub).
Defined.

(** *** More answers, more score *)

(** X4. Answering more questions never lowers the score or the level: if
    every answer of [r1] is also in [r2], the score of [r1] is at most the
    score of [r2], and its level is not above that of [r2]. *)
Theorem score_subset (r1 r2 : responses) :
  r1 ⊆ r2 →
  (calculate_bite_risk_score r1).1 ≤ (calculate_bite_risk_score r2).1 ∧
  (level_rank (calculate_bite_risk_score r1).2 ≤
   level_rank (calculate_bite_risk_score r2).2)%nat.
Proof.
  intros Hsub.
  assert (total_score r1 ≤ total_score r2) as Hle.
  { revert r2 Hsub. induction r1 as [|q o r1 Hq IH] using map_ind; intros r2 Hsub.
    - rewrite total_score_empty. apply total_score_nonneg.
    - assert (r2 !! q = Some o) as Hr2.
      { eapply lookup_weaken; [|done]. apply lookup_insert_eq. }
      rewrite total_score_insert by done.
      rewrite (total_score_delete r2 q o) by done.
      specialize (IH (delete q r2)).
      assert (r1 ⊆ delete q r2) as Hsub'.
      { apply map_subseteq_spec. intros q' o' Hq'.
        assert (q' ≠ q) by (intros ->; congruence).
        rewrite lookup_delete_ne by done.
        eapply lookup_weaken; [|done]. by rewrite lookup_insert_ne. }
      specialize (IH Hsub'). lia. }
  split; [done|]. by apply risk_level_rank_mono.
Qed.

Lemma score_subset_witness :
  responses_21 ⊆ responses_51 ∧
  (calculate_bite_risk_score responses_21).1 ≤
  (calculate_bite_risk_score responses_51).1 ∧
  (level_rank (calculate_bite_risk_score responses_21).2 ≤
   level_rank (calculate_bite_risk_score responses_51).2)%nat.
Proof.
  assert (responses_21 ⊆ responses_51) as Hsub.
  { unfold responses_51. change responses_21
      with (list_to_map [ ("space", "Actively defends space");
                          ("eye_contact", "Normal") ] : responses).
    simpl list_to_map. apply insert_subseteq. reflexivity. }
  split; [exact Hsub|]. exact (score_subset responses_21 responses_51 Hsub).
Defined.

(** *** The advice and the score *)

Lemma foldr_min_le (b x : Z) (l : list Z) : x ∈ l → foldr Z.min b l ≤ x.
Proof.
  induction l as [|y l IH]; [by intros ?%elem_of_nil|].
  intros [->|Hx]%elem_of_cons; simpl; [lia|]. specialize (IH Hx). lia.
Qed.

Lemma fired_contribution (r : responses) (ru : rule) :
  fires r ru = true → rule_floor ru ≤ contribution r (rule_question ru).
Proof.
  unfold fires, answered_in, contribution, rule_floor.
  destruct (r !! rule_question ru) as [o|]; [|done].
  intros Ho%bool_decide_eq_true. apply foldr_min_le.
  by apply list_elem_of_fmap_2.
Qed.

Lemma contribution_nonneg (r : responses) (q : string) : 0 ≤ contribution r q.
Proof.
  unfold contribution. destruct (r !! q) as [o|]; [|done]. apply weight_bounds.
Qed.

Lemma risk_level_critical (total : Z) :
  81 ≤ total → risk_level total = "Critical Risk".
Proof.
  intros Hge. unfold risk_level.
  destruct (Z.leb_spec total 20); [lia|].
  destruct (Z.leb_spec total 50); [lia|].
  by destruct (Z.leb_spec total 80); [lia|].
Qed.

Lemma risk_level_not_low (total : Z) : 21 ≤ total → risk_level total ≠ "Low Risk".
Proof.
  intros Hge. unfold risk_level.
  destruct (Z.leb_spec total 20); [lia|].
  by destruct (Z.leb_spec total 50), (Z.leb_spec total 80).
Qed.

Lemma rule_floors : rule_floor <$> rules = [20; 10; 15; 25; 8; 12].
Proof. vm_compute. reflexivity. Qed.

Lemma fired_floor_le (r : responses) (ru : rule) (z : Z) :
  rule_floor ru = z →
  (if fires r ru then z else 0) ≤ contribution r (rule_question ru).
Proof.
  intros <-. destruct (fires r ru) eqn:Hf.
  - by apply fired_contribution.
  - apply contribution_nonneg.
Qed.

Lemma advice_floor_sum (r : responses) :
  Zsum (rule_floor <$> List.filter (fires r) rules) ≤ total_score r.
Proof.
  rewrite total_score_questions.
  pose proof (contribution_nonneg r "body_language").
  pose proof (contribution_nonneg r "eye_contact").
  pose proof (contribution_nonneg r "past_behavior").
  pose proof (contribution_nonneg r "space").
  assert (Forall (λ ru, (if fires r ru then rule_floor ru else 0) ≤
                        contribution r (rule_question ru)) rules) as Hall.
  { apply Forall_forall. intros ru _. by apply fired_floor_le. }
  unfold rules in Hall.
  repeat match goal with
         | H : Forall _ (_ :: _) |- _ => apply Forall_cons_1 in H as [? H]
         end.
  clear Hall. cbn [rule_question] in *.
  change (Zsum (contribution r <$> questions))
    with (contribution r "aggression" + (contribution r "body_language" +
          (contribution r "eye_contact" + (contribution r "territorial" +
          (contribution r "past_behavior" + (contribution r "approach" +
          (contribution r "food_guarding" + (contribution r "space" +
          (contribution r "health" + (contribution r "pack" + 0)))))))))).
  unfold rules. cbn [List.filter].
  repeat match goal with
         | H : context [fires _ _] |- _ => revert H
         end.
  repeat match goal with
         | |- context [fires r ?ru] => destruct (fires r ru)
         end;
    repeat match goal with
           | |- context [rule_floor ?ru] =>
               let z := eval vm_compute in (rule_floor ru) in
               change (rule_floor ru) with z
           end;
    repeat match goal with
           | |- context [Zsum ?l] =>
               let z := eval vm_compute in (Zsum l) in
               change (Zsum l) with z
           end; lia.
Qed.

(** X5. Every recommendation stands for a minimum of score: the score is at
    least the sum, over the rules that fire, of the smallest weight that
    triggers the rule (20, 10, 15, 25, 8 and 12 in rule order).  When all
    six recommendations are given the level is "Critical Risk", and a
    response set with the rabies warning is never "Low Risk". *)
Theorem advice_bounds_score (r : responses) :
  Zsum (rule_floor <$> List.filter (fires r) rules) ≤
  (calculate_bite_risk_score r).1 ∧
  rule_floor <$> rules = [20; 10; 15; 25; 8; 12] ∧
  (length (generate_safety_recommendations r) = 6%nat →
   (calculate_bite_risk_score r).2 = "Critical Risk") ∧
  (msg_health ∈ generate_safety_recommendations r →
   (calculate_bite_risk_score r).2 ≠ "Low Risk").
Proof.
  pose proof (advice_floor_sum r) as Hsum.
  split; [exact Hsum|]. split; [exact rule_floors|].
  rewrite recommendations_fired.
  unfold fired_advisories, calculate_bite_risk_score. cbn [snd].
  unfold rules in *. cbn [List.filter] in *. revert Hsum.
  repeat match goal with
         | |- context [fires r ?ru] => destruct (fires r ru)
         end;
    intros Hsum;
    repeat match type of Hsum with
           | context [Zsum ?l] =>
               let z := eval vm_compute in (Zsum l) in
               change (Zsum l) with z in Hsum
           end;
    (split; [intros Hlen|intros Hin]).
  all: try (by vm_compute in Hlen).
  all: try (apply risk_level_critical; lia).
  all: try (apply risk_level_not_low; lia).
  all: by apply (bool_decide_pack _) in Hin.
Qed.

(** X6. The recommendations are not a function of the score: two response
    sets of the form have the same score and different recommendations, and
    a response set can be "Critical Risk" with no recommendation at all. *)
Theorem advice_not_from_score :
  (¬ ∃ f : Z → list string,
       ∀ r, submitted r →
            generate_safety_recommendations r =
            f (calculate_bite_risk_score r).1) ∧
  submitted critical_without_advice ∧
  (calculate_bite_risk_score critical_without_advice).2 = "Critical Risk" ∧
  generate_safety_recommendations critical_without_advice = [].
Proof.
  assert (∀ q1 q2 q3 q4 q5 q6 q7 q8 q9 q10,
            Forall2 (λ o qo, bool_decide (o ∈ qo.2) = true)
                    [q1; q2; q3; q4; q5; q6; q7; q8; q9; q10] form_options →
            submitted (collect_responses q1 q2 q3 q4 q5 q6 q7 q8 q9 q10))
    as Hsub.
  { intros. apply collect_submitted.
    eapply Forall2_impl; [done|]. intros o qo Ho. simpl in Ho.
    by apply bool_decide_eq_true in Ho. }
  split; [|split; [|split]].
  - intros [f Hf].
    assert (submitted calm_but_sick) as H1
      by (apply Hsub; repeat constructor).
    assert (submitted snarling_but_healthy) as H2
      by (apply Hsub; repeat constructor).
    pose proof (Hf _ H1) as E1. pose proof (Hf _ H2) as E2.
    assert ((calculate_bite_risk_score calm_but_sick).1 =
            (calculate_bite_risk_score snarling_but_healthy).1) as Heq
      by (vm_compute; reflexivity).
    rewrite Heq, <- E2 in E1. vm_compute in E1. discriminate E1.
  - apply Hsub; repeat constructor.
  - vm_compute. reflexivity.
  - vm_compute. reflexivity.
Qed.

(** *** Colours *)

(** X7. The level [calculate_bite_risk_score] returns always has a colour of
    its own in [risk_level_badge] and in the hotspot [render] adds: neither
    lookup falls back on its default, and two different levels never get the
    same colour. *)
Theorem level_has_colour (r r' : responses) :
  is_Some (colors !! (calculate_bite_risk_score r).2) ∧
  is_Some (hotspot_colors !! (calculate_bite_risk_score r).2) ∧
  ((calculate_bite_risk_score r).2 ≠ (calculate_bite_risk_score r').2 →
   risk_level_badge_color (calculate_bite_risk_score r).2 ≠
   risk_level_badge_color (calculate_bite_risk_score r').2 ∧
   hotspot_color (calculate_bite_risk_score r).2 ≠
   hotspot_color (calculate_bite_risk_score r').2).
Proof.
  unfold calculate_bite_risk_score. cbn [snd].
  destruct (risk_level_cases (total_score r)) as [[_ ->]|[[_ ->]|[[_ ->]|[_ ->]]]];
    (split; [by eexists|split; [by eexists|]]);
    destruct (risk_level_cases (total_score r'))
      as [[_ ->]|[[_ ->]|[[_ ->]|[_ ->]]]];
    intros Hne; try done; split; by vm_compute.
Qed.

End AiDetectionHelpersFacts.

(** ** More facts about the document store *)

Module StorageMoreFacts.
Import Py Json Storage JsonMore JsonFacts StorageFacts.

(** *** What [read] can return *)

(** X8. Whatever the files hold, [read] with a list default returns a list
    and [read] with a dict default returns a dict; with [default=None] it
    returns a list.  The [isinstance(..., list)] tests the callers put after
    [read(key, [])] therefore never fail. *)
Theorem read_type (fs : files) (key : string) (default v : value) :
  read fs key default = Returned v →
  (is_container default = true → type_of v = type_of default) ∧
  (default = PNone → type_of v = list_type) ∧
  (type_of default = list_type ∨ default = PNone →
   isinstance v list_type = true).
Proof.
  intros Hread.
  pose proof (read_returned _ _ _ _ Hread) as Hkey.
  rewrite read_accepted in Hread by done.
  assert (is_container default = true → type_of v = type_of default) as H1.
  { intros Hc.
    destruct (fs !! file_of key) as [content|].
    - destruct (json_load content) as [data|].
      + assert (is_None default = false) as Hn by (by destruct default).
        rewrite Hn in Hread.
        destruct (isinstance data (type_of default)) eqn:Hi; simplify_eq;
          [by apply isinstance_container in Hi|done].
      + rewrite container_not_None in Hread by done. by simplify_eq.
    - rewrite container_not_None in Hread by done. by simplify_eq. }
  assert (default = PNone → type_of v = list_type) as H2.
  { intros ->. unfold default_or_empty_list in Hread. cbn [is_None] in Hread.
    destruct (fs !! file_of key) as [content|]; [|by simplify_eq].
    destruct (json_load content) as [data|]; [|by simplify_eq].
    destruct (isinstance data list_type) eqn:Hi; simplify_eq;
      [by apply isinstance_list|done]. }
  split; [done|]. split; [done|].
  intros [Hl| ->]; apply isinstance_list; [|by apply H2].
  rewrite <- Hl. apply H1. by destruct default.
Qed.

Lemma read_type_witness :
  read (<[file_of "cases" := txt "{}"]> ∅) "cases" (PList [PInt 1]) =
  Returned (PList [PInt 1]) ∧
  isinstance (PList [PInt 1]) list_type = true.
Proof.
  split; [by vm_compute|].
  destruct (read_type (<[file_of "cases" := txt "{}"]> ∅) "cases"
              (PList [PInt 1]) (PList [PInt 1])) as (_ & _ & H);
    [by vm_compute|apply H; by left].
Defined.

(** *** One file per collection *)

Lemma string_length_append (a b : string) :
  String.length (String.append a b) = (String.length a + String.length b)%nat.
Proof. induction a as [|c a IH]; simpl; [done|]. by rewrite IH. Qed.

Lemma string_append_inj_r (a b s : string) :
  String.append a s = String.append b s → a = b.
Proof.
  revert b. induction a as [|c a IH]; intros [|c' b] Heq; [done|..].
  - apply (f_equal String.length) in Heq.
    rewrite !string_length_append in Heq. simpl in Heq. lia.
  - apply (f_equal String.length) in Heq.
    rewrite !string_length_append in Heq. simpl in Heq. lia.
  - change (String c (String.append a s) = String c' (String.append b s))
      in Heq.
    injection Heq as -> Heq. f_equal. by apply IH.
Qed.

Lemma file_of_inj (k k' : string) : file_of k = file_of k' → k = k'.
Proof.
  unfold file_of, DATA_DIR. intros Heq.
  apply (string_append_inj_r _ _ ".json").
  by repeat (apply (inj (String.append _)) in Heq || injection Heq as Heq).
Qed.

(** X9. Collections are independent: for two different keys that are plain
    file names, writing one leaves what [read] returns for the other
    unchanged. *)
Theorem write_other_key (fs : files) (k k' : string) (d default : value) :
  plain_key k = true → plain_key k' = true → k ≠ k' →
  read (write fs k d) k' default = read fs k' default.
Proof.
  intros _ _ Hne. unfold read, file_exists, write.
  rewrite lookup_insert_ne; [done|]. intros Heq. by apply file_of_inj in Heq.
Qed.

Lemma write_other_key_witness :
  plain_key "cases" = true ∧ plain_key "users" = true ∧ "cases" ≠ "users" ∧
  read (write ∅ "cases" sample_cases) "users" (PList []) =
  read ∅ "users" (PList []).
Proof.
  split; [reflexivity|]. split; [reflexivity|]. split; [done|].
  by apply (write_other_key ∅ "cases" "users").
Defined.

(** X10. A write replaces the whole collection: after two writes under the
    same key the files are what the second write alone would have left, and
    [read] returns what it returns after the second write alone: the second
    value when that is a list or dict that comes back as written and the
    default is of its type, nothing of the first being kept.  (Where [read]
    returns a value the key is one the operating system accepts, as it is
    whenever the writes have returned.) *)
Theorem last_write_wins (fs : files) (k : string) (d1 d2 default : value) :
  write (write fs k d1) k d2 = write fs k d2 ∧
  read (write (write fs k d1) k d2) k default = read (write fs k d2) k default ∧
  (accepted k = true →
   is_container d2 = true → storable d2 = true →
   type_of default = type_of d2 →
   read (write (write fs k d1) k d2) k default = Returned d2).
Proof.
  assert (write (write fs k d1) k d2 = write fs k d2) as Heq.
  { unfold write. apply insert_insert_eq. }
  rewrite Heq. split; [done|]. split; [done|].
  intros Hkey Hc Hn Ht. rewrite read_write by done.
  assert (is_None default = false) as -> by (by destruct default, d2).
  rewrite Ht.
  by assert (isinstance d2 (type_of d2) = true) as -> by (by destruct d2).
Qed.

Lemma last_write_wins_witness :
  read (write (write ∅ "sightings" sample_cases) "sightings" sample_sightings)
    "sightings" (PList []) = Returned sample_sightings.
Proof.
  destruct (last_write_wins ∅ "sightings" sample_cases sample_sightings
              (PList [])) as (_ & _ & H).
  apply H; [reflexivity|reflexivity|by vm_compute|reflexivity].
Defined.

(** X11. The type guard after a write: when a dict that comes back as
    written has been written and the caller reads with a list default, or
    such a list has been written and the caller reads with a dict default,
    [read] returns the default and not the stored value.  (The key is one
    the operating system accepts, as it is whenever the write has
    returned.) *)
Theorem read_write_mismatch (fs : files) (k : string) (d default : value) :
  accepted k = true →
  is_container d = true → is_container default = true →
  storable d = true → type_of default ≠ type_of d →
  read (write fs k d) k default = Returned default.
Proof.
  intros Hkey Hd Hdef Hnat Htype. rewrite read_write by done.
  assert (is_None default = false) as -> by (by destruct default).
  destruct (isinstance d (type_of default)) eqn:Hi; [|done].
  by apply isinstance_container in Hi.
Qed.

Lemma read_write_mismatch_witness :
  read (write ∅ "sightings"
          (PDict [(KStr (txt "lat"), PFloat (FNumeral (txt "13.0827")))]))
    "sightings" (PList []) = Returned (PList []).
Proof.
  apply (read_write_mismatch ∅ "sightings");
    [reflexivity|reflexivity|reflexivity|by vm_compute|done].
Defined.

(** *** What a round trip does to other data *)





(** *** The shape of what the decoder returns *)

Lemma dict_set_keys (d : list (key * value)) (k x : key) (v : value) :
  x ∈ (dict_set d k v).*1 → x ∈ d.*1 ∨ x = k.
Proof.
  induction d as [|[k' v'] d IH]; cbn [dict_set].
  - simpl. rewrite list_elem_of_singleton. auto.
  - destruct (key_eqb k' k); rewrite !fmap_cons, !elem_of_cons; [tauto|].
    intros [->|Hin]; [by left; left|]. destruct (IH Hin); auto.
Qed.

Lemma dict_set_shaped (d : list (key * value)) (s : str) (v : value) :
  NoDup d.*1 → forallb shaped_item d = true → json_shaped v = true →
  NoDup (dict_set d (KStr s) v).*1 ∧
  forallb shaped_item (dict_set d (KStr s) v) = true.
Proof.
  intros Hnd Hd Hv. induction d as [|[k' v'] d IH]; cbn [dict_set].
  - split; [apply NoDup_singleton|]. unfold shaped_item. simpl. by rewrite Hv.
  - rewrite fmap_cons in Hnd. apply NoDup_cons in Hnd as [Hk' Hnd].
    cbn [forallb] in Hd. apply andb_prop in Hd as [Hkv Hd].
    destruct (IH Hnd Hd) as [IH1 IH2].
    destruct (key_eqb k' (KStr s)) eqn:Heq.
    + split; [change (NoDup (k' :: d.*1)); by apply NoDup_cons_2|].
      cbn [forallb]. rewrite Hd, andb_true_r.
      unfold shaped_item in *. simpl in *. rewrite Hv.
      by destruct k'.
    + split.
      * change (NoDup (k' :: (dict_set d (KStr s) v).*1)).
        apply NoDup_cons_2; [|done].
        intros [Hin| ->]%dict_set_keys; [done|].
        simpl in Heq. by rewrite bool_decide_eq_false in Heq.
      * cbn [forallb]. apply andb_true_intro. by split.
Qed.

Lemma dict_of_pairs_shaped (pairs : list (str * value)) :
  forallb (λ kv, json_shaped kv.2) pairs = true →
  json_shaped (PDict (dict_of_pairs (string_keys pairs))) = true.
Proof.
  intros Hp. unfold dict_of_pairs.
  assert (∀ acc, NoDup acc.*1 → forallb shaped_item acc = true →
            let d := foldl (λ d kv, dict_set d kv.1 kv.2) acc
                       (string_keys pairs) in
            NoDup d.*1 ∧ forallb shaped_item d = true) as Hacc.
  { induction pairs as [|[s v] pairs IH]; intros acc Hnd Hs; [done|].
    cbn [forallb] in Hp. apply andb_prop in Hp as [Hv Hp].
    change (string_keys ((s, v) :: pairs))
      with ((KStr s, v) :: string_keys pairs).
    cbn [foldl fst snd].
    destruct (dict_set_shaped acc s v Hnd Hs Hv) as [H1 H2].
    by apply IH. }
  destruct (Hacc [] (NoDup_nil_2) eq_refl) as [H1 H2].
  cbn [json_shaped]. apply andb_true_intro. split; [|exact H2].
  by apply bool_decide_eq_true_2.
Qed.

Lemma scan_number_shaped (s : str) (v : value) (rest : str) :
  scan_number s = Some (v, rest) → json_shaped v = true.
Proof.
  unfold scan_number. intros Hs. by repeat case_match; simplify_eq.
Qed.

Lemma scan_shaped (fuel : nat) :
  (∀ s v rest, scan_once fuel s = Some (v, rest) → json_shaped v = true) ∧
  (∀ s vs rest, array_items fuel s = Some (vs, rest) →
                forallb json_shaped vs = true) ∧
  (∀ s kvs rest, object_items fuel s = Some (kvs, rest) →
                 forallb (λ kv, json_shaped kv.2) kvs = true).
Proof.
  induction fuel as [|fuel (IHs & IHa & IHo)]; [done|].
  split; [|split].
  - intros s v rest Hscan. destruct s as [|c s']; [done|].
    cbn [scan_once] in Hscan.
    repeat case_match; simplify_eq; try done;
      match goal with
      | H : object_items fuel _ = Some _ |- _ =>
          apply IHo in H; by apply dict_of_pairs_shaped
      | H : array_items fuel _ = Some _ |- _ => by apply IHa in H
      | H : scan_number _ = Some _ |- _ => by apply scan_number_shaped in H
      end.
  - intros s vs rest Hscan. cbn [array_items] in Hscan.
    repeat case_match; simplify_eq; cbn [forallb];
      repeat match goal with
        | H : scan_once fuel _ = Some _ |- _ => apply IHs in H; rewrite H
        | H : array_items fuel _ = Some _ |- _ => apply IHa in H; rewrite H
        end; done.
  - intros s kvs rest Hscan. cbn [object_items] in Hscan.
    repeat case_match; simplify_eq; cbn [forallb snd];
      repeat match goal with
        | H : scan_once fuel _ = Some _ |- _ => apply IHs in H; rewrite H
        | H : object_items fuel _ = Some _ |- _ => apply IHo in H; rewrite H
        end; done.
Qed.

Lemma loads_shaped (s : str) (v : value) :
  loads s = Some v → json_shaped v = true.
Proof.
  unfold loads. intros Hl. repeat case_match; simplify_eq.
  match goal with
  | H : scan_once _ _ = Some _ |- _ => by apply scan_shaped in H
  end.
Qed.

(** X13. Nothing but JSON comes out of the store: whatever the files hold,
    when the default is of JSON shape (no foreign object, dict keys all
    strings and each once) so is the value [read] returns, down to every
    nested record.  With [default=None] no assumption is needed. *)
Theorem read_shaped (fs : files) (key : string) (default v : value) :
  json_shaped default = true →
  read fs key default = Returned v →
  json_shaped v = true.
Proof.
  intros Hd Hread.
  pose proof (read_returned _ _ _ _ Hread) as Hkey.
  rewrite read_accepted in Hread by done.
  unfold json_load, default_or_empty_list in Hread.
  destruct (fs !! file_of key) as [content|].
  - destruct (loads content) as [data|] eqn:Hl.
    + apply loads_shaped in Hl.
      repeat case_match; by simplify_eq.
    + repeat case_match; by simplify_eq.
  - repeat case_match; by simplify_eq.
Qed.

Lemma read_shaped_witness :
  json_shaped sample_cases = true.
Proof.
  apply (read_shaped (write ∅ "cases" sample_cases) "cases" PNone);
    [reflexivity|by vm_compute].
Defined.

(** *** The characters of a file *)

Lemma hex_digit_ascii (d : N) : (d < 16)%N → is_plain_ascii (hex_digit d) = true.
Proof.
  intros Hd. unfold hex_digit, is_plain_ascii.
  destruct (N.ltb_spec d 10);
    apply orb_true_intro; right; apply andb_true_intro;
    split; apply N.leb_le; lia.
Qed.

Lemma hex4_ascii (n : N) : ascii_text (hex4 n).
Proof.
  unfold hex4. repeat apply List.Forall_cons; try apply List.Forall_nil;
    apply hex_digit_ascii; apply N.mod_lt; lia.
Qed.

Lemma escape_char_ascii (c : N) : ascii_text (escape_char c).
Proof.
  unfold escape_char, backslash_u.
  repeat case_match;
    repeat first [ apply Forall_app_2 | apply hex4_ascii
                 | apply List.Forall_cons | apply List.Forall_nil ];
    try reflexivity.
  unfold is_plain_ascii. apply orb_true_intro. by right.
Qed.

Lemma encode_basestring_ascii_ascii (s : str) :
  ascii_text (encode_basestring_ascii s).
Proof.
  unfold encode_basestring_ascii. apply Forall_app_2; [by repeat constructor|].
  apply Forall_app_2; [|by repeat constructor].
  induction s as [|c s IH]; [constructor|].
  rewrite fmap_cons. cbn [concat]. apply Forall_app_2; [|done].
  apply escape_char_ascii.
Qed.

Lemma uint_text_ascii (u : Decimal.uint) : ascii_text (uint_text u).
Proof. induction u; simpl; by constructor. Qed.

Lemma int_repr_ascii (z : Z) : ascii_text (int_repr z).
Proof.
  unfold int_repr. destruct (Z.to_int z); [|constructor; [done|]];
    apply uint_text_ascii.
Qed.

Lemma newline_indent_ascii (level : nat) : ascii_text (newline_indent level).
Proof.
  unfold newline_indent. constructor; [done|].
  apply Forall_replicate. reflexivity.
Qed.

Lemma join_ascii (sep : str) (chunks : list str) :
  ascii_text sep → Forall ascii_text chunks → ascii_text (join sep chunks).
Proof.
  intros Hsep. induction 1 as [|c chunks Hc Hchunks IH]; [constructor|].
  destruct chunks as [|c' chunks]; [done|].
  change (join sep (c :: c' :: chunks))
    with (c ++ sep ++ join sep (c' :: chunks)).
  by repeat apply Forall_app_2.
Qed.

Lemma encode_ascii (v : value) (level : nat) :
  float_free v = true → ascii_text (encode level v).
Proof.
  revert level.
  induction v as [|b|z|f|s|items IH|items IH|shown] using value_nested_ind;
    intros level Hff; try done.
  - by repeat constructor.
  - destruct b; by repeat constructor.
  - apply int_repr_ascii.
  - apply encode_basestring_ascii_ascii.
  - destruct items as [|x items]; [by repeat constructor|].
    cbn [encode]. apply forallb_Forall in Hff.
    repeat apply Forall_app_2; try apply newline_indent_ascii;
      try (by repeat constructor).
    apply join_ascii; [constructor; [done|apply newline_indent_ascii]|].
    apply Forall_fmap. rewrite Forall_forall in *.
    intros y Hy. apply IH; auto.
  - destruct items as [|x items]; [by repeat constructor|].
    cbn [encode]. cbn [float_free] in Hff. apply forallb_Forall in Hff.
    repeat apply Forall_app_2; try apply newline_indent_ascii;
      try (by repeat constructor).
    apply join_ascii; [constructor; [done|apply newline_indent_ascii]|].
    apply Forall_fmap. rewrite Forall_forall in *.
    intros y Hy. cbn beta.
    apply Forall_app_2; [apply encode_basestring_ascii_ascii|].
    apply Forall_app_2; [by repeat constructor|].
    apply (IH y Hy). by apply Hff.
  - apply encode_basestring_ascii_ascii.
Qed.

(** X14. Files are plain ASCII: the text [write] leaves in the file of a
    collection without floats consists of printable ASCII characters and
    newlines only, whatever characters the strings and keys of the data
    hold, so it reads back the same under any encoding of the platform that
    extends ASCII. *)
Theorem write_ascii (fs : files) (k : string) (d : value) :
  float_free d = true →
  ∃ content, write fs k d !! file_of k = Some content ∧
             plain_ascii content = true.
Proof.
  intros Hff. exists (dumps d). split.
  - unfold write. apply lookup_insert_eq.
  - unfold plain_ascii, dumps. apply forallb_forall.
    intros c Hc. pose proof (encode_ascii d 0%nat Hff) as Ha.
    rewrite Forall_forall in Ha. apply Ha. by apply list_elem_of_In.
Qed.

Lemma write_ascii_witness :
  ∃ content, write ∅ "cases" sample_cases !! file_of "cases" = Some content ∧
             plain_ascii content = true.
Proof. apply (write_ascii ∅ "cases" sample_cases). reflexivity. Defined.

End StorageMoreFacts.
(** ** Facts about accounts *)

Module AuthFacts.
Import Py Json Storage Auth JsonFacts StorageFacts.

Lemma any_email_dicts (users : list value) (email : str) :
  Forall (λ u, is_dict u = true) users →
  any_email users email = Returned (existsb (has_email email) users).
Proof.
  induction 1 as [|u users Hu Husers IH]; [done|].
  destruct u; try done. cbn [any_email get existsb].
  unfold has_email at 1. cbn [account_email].
  destruct (eq_str _ email); [done|]. by rewrite IH.
Qed.

Lemma find_user_dicts (users : list value) (email password : str) :
  Forall (λ u, is_dict u = true) users →
  find_user users email password = Returned (matching email password users).
Proof.
  unfold matching.
  induction 1 as [|u users Hu Husers IH]; [done|].
  destruct u; try done. cbn [find_user get List.find].
  unfold has_email at 1, has_password at 1. cbn [account_email].
  destruct (eq_str _ email); [|by rewrite IH].
  destruct (eq_str _ password); [done|by rewrite IH].
Qed.

Lemma native_snoc (users : list value) (u : value) :
  json_native (PList users) = true → json_native u = true →
  json_native (PList (users ++ [u])) = true.
Proof.
  cbn [json_native]. intros Hus Hu.
  rewrite forallb_app, Hus. cbn [forallb]. by rewrite Hu.
Qed.

Lemma native_admin_user (now : str) :
  scalar_str now = true → json_native (admin_user now) = true.
Proof.
  intros Hnow. unfold admin_user. cbn [json_native forallb fst snd string_key].
  rewrite Hnow. by vm_compute.
Qed.

Lemma holds_users_write (fs : files) (users : list value) :
  json_native (PList users) = true →
  Forall (λ u, is_dict u = true) users →
  holds_users (write fs "users" (PList users)) users.
Proof.
  intros Hnat Hd. split; [|done].
  rewrite read_write; [done|reflexivity|by apply json_native_storable].
Qed.

Lemma holds_users_snoc (fs : files) (users : list value) (u : value) :
  holds_users fs users → json_native u = true → is_dict u = true →
  holds_users (write fs "users" (PList (users ++ [u]))) (users ++ [u]).
Proof.
  intros (_ & Hnat & Hd) Hu Hdu. apply holds_users_write.
  - by apply native_snoc.
  - apply Forall_app_2; [done|]. by constructor.
Qed.

Lemma existsb_snoc {A} (f : A → bool) (l : list A) (x : A) :
  existsb f (l ++ [x]) = existsb f l || f x.
Proof. rewrite existsb_app. simpl. by rewrite orb_false_r. Qed.

Lemma find_none_app {A} (f : A → bool) (l l' : list A) :
  existsb f l = false → List.find f (l ++ l') = List.find f l'.
Proof.
  induction l as [|x l IH]; [done|]. simpl.
  intros [Hx Hl]%orb_false_elim. rewrite Hx. by apply IH.
Qed.

Lemma existsb_and_false {A} (f g : A → bool) (l : list A) :
  existsb f l = false → existsb (λ x, f x && g x) l = false.
Proof.
  induction l as [|x l IH]; [done|]. simpl.
  intros [Hx Hl]%orb_false_elim. by rewrite Hx, IH.
Qed.

Lemma has_email_inj (e1 e2 : str) (u : value) :
  has_email e1 u = true → has_email e2 u = true → e1 = e2.
Proof.
  unfold has_email, eq_str. destruct (account_email u); try done.
  intros H1%bool_decide_eq_true H2%bool_decide_eq_true. congruence.
Qed.

(** What [ensure_admin_exists] does on a users file in good order. *)
Lemma ensure_admin_holds (fs : files) (users : list value) (now : str) :
  holds_users fs users → scalar_str now = true →
  ∃ fs1, ensure_admin_exists fs now = Returned fs1 ∧
         holds_users fs1 (with_admin now users) ∧
         (existsb (has_email admin_email) users = true → fs1 = fs).
Proof.
  intros Hh Hnow. pose proof Hh as (Hr & Hnat & Hd).
  unfold ensure_admin_exists, with_admin.
  rewrite Hr, any_email_dicts by done.
  destruct (existsb (has_email admin_email) users); simpl.
  - by exists fs.
  - eexists. split; [done|]. split; [|done].
    apply holds_users_snoc; [done| |done]. by apply native_admin_user.
Qed.

(** What [login] does on a users file in good order. *)
Lemma login_holds (fs : files) (users : list value) (now email password : str) :
  holds_users fs users → scalar_str now = true →
  ∃ fs1, login fs now email password =
         Returned (fs1,
                   match matching email password (with_admin now users) with
                   | Some user => (true, "Login successful", user)
                   | None => (false, "Invalid credentials", PNone)
                   end) ∧
         holds_users fs1 (with_admin now users) ∧
         (existsb (has_email admin_email) users = true → fs1 = fs).
Proof.
  intros Hh Hnow.
  destruct (ensure_admin_holds fs users now Hh Hnow) as (fs1 & He & Hh1 & Hfs).
  exists fs1. split; [|done]. unfold login. rewrite He.
  destruct Hh1 as (Hr & _ & Hd). rewrite Hr, find_user_dicts by done.
  by destruct (matching _ _ _).
Qed.

(** What [register] does on a users file in good order. *)
Lemma register_holds (fs : files) (users : list value)
    (now email name password role phone : str) (pic : value) :
  holds_users fs users →
  register fs now email name password role phone pic =
  if existsb (has_email email) users
  then Returned (fs, (false, "Email already registered"))
  else Returned (write fs "users"
                   (PList (users ++
                           [new_user now email name password role phone pic])),
                 (true, "Account created successfully")).
Proof.
  intros (Hr & _ & Hd). unfold register.
  rewrite Hr, any_email_dicts by done.
  by destruct (existsb (has_email email) users).
Qed.

Lemma new_user_email (now email name password role phone : str) (pic : value)
    (e : str) :
  has_email e (new_user now email name password role phone pic) =
  bool_decide (email = e).
Proof. reflexivity. Qed.

Lemma new_user_password (now email name password role phone : str)
    (pic : value) (p : str) :
  has_password p (new_user now email name password role phone pic) =
  bool_decide (password = p).
Proof. reflexivity. Qed.

Lemma admin_user_email (now e : str) :
  has_email e (admin_user now) = bool_decide (admin_email = e).
Proof. reflexivity. Qed.

(** The account [login] finds after a registration. *)
Lemma matching_registered (users : list value)
    (now now' email name password role phone : str) (pic : value)
    (attempt : str) :
  existsb (has_email email) users = false →
  matching email attempt
    (with_admin now'
       (users ++ [new_user now email name password role phone pic])) =
  if bool_decide (password = attempt)
  then Some (new_user now email name password role phone pic)
  else None.
Proof.
  intros Hnew. unfold matching, with_admin.
  rewrite existsb_snoc, new_user_email.
  assert (∀ rest,
    (rest = [] ∨ (email ≠ admin_email ∧ rest = [admin_user now'])) →
    List.find (λ u, has_email email u && has_password attempt u)
      ((users ++ [new_user now email name password role phone pic]) ++ rest) =
    if bool_decide (password = attempt)
    then Some (new_user now email name password role phone pic)
    else None) as Hfind.
  { intros rest Hrest. rewrite <- app_assoc.
    rewrite find_none_app by (by apply existsb_and_false).
    cbn [app List.find]. rewrite new_user_email, new_user_password.
    rewrite bool_decide_eq_true_2 by done. cbn [andb].
    destruct (bool_decide (password = attempt)); [done|].
    destruct Hrest as [->|[Hne ->]]; [done|].
    cbn [List.find]. rewrite admin_user_email.
    by rewrite bool_decide_eq_false_2 by done. }
  destruct (existsb (has_email admin_email) users) eqn:Hadmin; cbn [orb].
  - rewrite <- (app_nil_r (users ++ _)). apply Hfind. by left.
  - destruct (decide (email = admin_email)) as [Heq|Hne].
    + rewrite (bool_decide_eq_true_2 _ Heq).
      rewrite <- (app_nil_r (users ++ _)). apply Hfind. by left.
    + rewrite (bool_decide_eq_false_2 _ Hne). apply Hfind. by right.
Qed.

Lemma holds_two_accounts : holds_users two_accounts [asha; ravi].
Proof.
  split; [by vm_compute|]. split; [by vm_compute|]. by repeat constructor.
Qed.

(** X15. [register] on a users file in good order never raises.  When an
    account has the email nothing is written and the answer is the refusal;
    otherwise the new account is appended after the existing ones, which
    are kept as they are and in their order. *)
Theorem register_outcome (fs : files) (users : list value)
    (now email name password role phone : str) (pic : value) :
  holds_users fs users →
  json_native (new_user now email name password role phone pic) = true →
  (existsb (has_email email) users = true ∧
   register fs now email name password role phone pic =
   Returned (fs, (false, "Email already registered"))) ∨
  (existsb (has_email email) users = false ∧
   ∃ fs', register fs now email name password role phone pic =
          Returned (fs', (true, "Account created successfully")) ∧
          holds_users fs'
            (users ++ [new_user now email name password role phone pic])).
Proof.
  intros Hh Hnat. rewrite (register_holds fs users) by done.
  destruct (existsb (has_email email) users); [by left|right].
  split; [done|]. eexists. split; [done|]. by apply holds_users_snoc.
Qed.

Lemma register_outcome_witness :
  register two_accounts (txt "2024-03-01 09:00:00.000001")
    (txt "ravi@example.org") (txt "Ravi K") (txt "pw-other") (txt "user") []
    PNone =
  Returned (two_accounts, (false, "Email already registered")) ∧
  ∃ fs', register two_accounts (txt "2024-03-01 09:00:00.000001")
           (txt "mina@example.org") (txt "Mina") (txt "pw-mina") (txt "user")
           [] PNone =
         Returned (fs', (true, "Account created successfully")) ∧
         holds_users fs' [asha; ravi; mina].
Proof.
  split.
  - destruct (register_outcome two_accounts [asha; ravi]
                (txt "2024-03-01 09:00:00.000001") (txt "ravi@example.org")
                (txt "Ravi K") (txt "pw-other") (txt "user") [] PNone)
      as [[_ H]|[Hex _]];
      [exact holds_two_accounts|by vm_compute|exact H|by vm_compute in Hex].
  - destruct (register_outcome two_accounts [asha; ravi]
                (txt "2024-03-01 09:00:00.000001") (txt "mina@example.org")
                (txt "Mina") (txt "pw-mina") (txt "user") [] PNone)
      as [[Hex _]|[_ H]];
      [exact holds_two_accounts|by vm_compute|by vm_compute in Hex|exact H].
Defined.

(** X16. After a successful registration, [login] with the same email
    succeeds exactly with the registered password, and then returns the
    account as it was registered; with any other password the answer is
    the refusal. *)
Theorem register_then_login (fs fs' : files) (users : list value)
    (now now' email name password role phone : str) (pic : value)
    (attempt : str) :
  holds_users fs users →
  json_native (new_user now email name password role phone pic) = true →
  scalar_str now' = true →
  register fs now email name password role phone pic =
  Returned (fs', (true, "Account created successfully")) →
  ∃ fs'', login fs' now' email attempt =
          Returned (fs'',
                    if bool_decide (password = attempt)
                    then (true, "Login successful",
                          new_user now email name password role phone pic)
                    else (false, "Invalid credentials", PNone)).
Proof.
  intros Hh Hnat Hnow' Hreg. rewrite (register_holds fs users) in Hreg by done.
  destruct (existsb (has_email email) users) eqn:Hex; [done|].
  injection Hreg as <-.
  destruct (login_holds _ _ now' email attempt
              (holds_users_snoc fs users _ Hh Hnat eq_refl) Hnow')
    as (fs'' & Hlogin & _).
  exists fs''. rewrite Hlogin, (matching_registered _ now) by done.
  by destruct (bool_decide (password = attempt)).
Qed.

Lemma register_then_login_witness :
  ∃ fs'', login (write ∅ "users"
                   (PList [new_user (txt "t0") (txt "a@b.org") (txt "Asha")
                             (txt "pw") (txt "user") [] PNone]))
            (txt "t1") (txt "a@b.org") (txt "pw") =
          Returned (fs'', (true, "Login successful",
                           new_user (txt "t0") (txt "a@b.org") (txt "Asha")
                             (txt "pw") (txt "user") [] PNone)).
Proof.
  apply (register_then_login ∅ _ [] (txt "t0") (txt "t1") (txt "a@b.org")
           (txt "Asha") (txt "pw") (txt "user") [] PNone (txt "pw"));
    [by repeat split|by vm_compute|by vm_compute|by vm_compute].
Defined.

(** X17. An email registers once: after a successful registration every
    further [register] with that email, whatever the other details, is
    refused and leaves the files as they are. *)
Theorem register_twice (fs fs' : files) (users : list value)
    (now email name password role phone : str) (pic : value)
    (now2 name2 password2 role2 phone2 : str) (pic2 : value) :
  holds_users fs users →
  json_native (new_user now email name password role phone pic) = true →
  register fs now email name password role phone pic =
  Returned (fs', (true, "Account created successfully")) →
  register fs' now2 email name2 password2 role2 phone2 pic2 =
  Returned (fs', (false, "Email already registered")).
Proof.
  intros Hh Hnat Hreg. rewrite (register_holds fs users) in Hreg by done.
  destruct (existsb (has_email email) users) eqn:Hex; [done|].
  injection Hreg as <-.
  rewrite (register_holds _ _ _ _ _ _ _ _ _
             (holds_users_snoc fs users _ Hh Hnat eq_refl)).
  rewrite existsb_snoc, new_user_email, bool_decide_eq_true_2 by done.
  by rewrite orb_true_r.
Qed.

Lemma register_twice_witness :
  register (write ∅ "users"
              (PList [new_user (txt "t0") (txt "a@b.org") (txt "Asha")
                        (txt "pw") (txt "user") [] PNone]))
    (txt "t1") (txt "a@b.org") (txt "Other") (txt "pw2") (txt "vet") [] PNone =
  Returned (write ∅ "users"
              (PList [new_user (txt "t0") (txt "a@b.org") (txt "Asha")
                        (txt "pw") (txt "user") [] PNone]),
            (false, "Email already registered")).
Proof.
  apply (register_twice ∅ _ [] (txt "t0") (txt "a@b.org") (txt "Asha")
           (txt "pw") (txt "user") [] PNone);
    [by repeat split|by vm_compute|by vm_compute].
Defined.

Lemma no_email_not_in (users : list value) (email : str) :
  existsb (has_email email) users = false → PStr email ∉ emails users.
Proof.
  unfold emails. induction users as [|u users IH]; simpl.
  - intros _. apply not_elem_of_nil.
  - intros [Hu Hus]%orb_false_elim. apply not_elem_of_cons. split; [|auto].
    intros Heq. unfold has_email in Hu. rewrite <- Heq in Hu. simpl in Hu.
    by rewrite bool_decide_eq_true_2 in Hu.
Qed.

Lemma emails_snoc_NoDup (users : list value) (u : value) (email : str) :
  NoDup (emails users) → existsb (has_email email) users = false →
  account_email u = PStr email → NoDup (emails (users ++ [u])).
Proof.
  intros Hnd Hex Hu. unfold emails. rewrite fmap_app. apply NoDup_app.
  split; [done|]. split; [|apply NoDup_singleton].
  intros x Hx [->|[]%elem_of_nil]%elem_of_cons.
  rewrite Hu in Hx. by apply no_email_not_in in Hex.
Qed.

(** X18. No two accounts with one email: when the emails of the accounts on
    file are pairwise different, they still are in the files [register]
    leaves, whatever it answers, and in the files [login] leaves. *)
Theorem emails_stay_unique (fs : files) (users : list value) :
  holds_users fs users → NoDup (emails users) →
  (∀ now email name password role phone pic fs' answer,
     json_native (new_user now email name password role phone pic) = true →
     register fs now email name password role phone pic =
     Returned (fs', answer) →
     ∃ users', holds_users fs' users' ∧ NoDup (emails users')) ∧
  (∀ now email password fs' answer,
     scalar_str now = true →
     login fs now email password = Returned (fs', answer) →
     ∃ users', holds_users fs' users' ∧ NoDup (emails users')).
Proof.
  intros Hh Hnd. split.
  - intros now email name password role phone pic fs' answer Hnat Hreg.
    rewrite (register_holds fs users) in Hreg by done.
    destruct (existsb (has_email email) users) eqn:Hex; simplify_eq.
    + by exists users.
    + eexists. split; [by apply holds_users_snoc|].
      by apply (emails_snoc_NoDup _ _ email).
  - intros now email password fs' answer Hnow Hlogin.
    destruct (login_holds fs users now email password Hh Hnow)
      as (fs1 & Hl & Hh1 & _).
    rewrite Hl in Hlogin. simplify_eq.
    exists (with_admin now users). split; [done|]. unfold with_admin.
    destruct (existsb (has_email admin_email) users) eqn:Hex; [done|].
    by apply (emails_snoc_NoDup _ _ admin_email).
Qed.

Lemma emails_stay_unique_witness :
  (∃ users',
     holds_users (write two_accounts "users" (PList [asha; ravi; mina]))
       users' ∧
     NoDup (emails users')) ∧
  (∃ users',
     holds_users
       (write two_accounts "users"
          (PList [asha; ravi; admin_user (txt "2024-04-01 08:00:00")]))
       users' ∧
     NoDup (emails users')).
Proof.
  destruct (emails_stay_unique two_accounts [asha; ravi]) as [Hreg Hlogin];
    [exact holds_two_accounts| |].
  { change (NoDup [PStr (txt "asha@example.org");
                   PStr (txt "ravi@example.org")]).
    apply NoDup_cons_2; [|apply NoDup_singleton].
    intros Hin%list_elem_of_singleton. by vm_compute in Hin. }
  split.
  - apply (Hreg (txt "2024-03-01 09:00:00.000001") (txt "mina@example.org")
             (txt "Mina") (txt "pw-mina") (txt "user") [] PNone _
             (true, "Account created successfully"));
      by vm_compute.
  - apply (Hlogin (txt "2024-04-01 08:00:00") (txt "ravi@example.org")
             (txt "pw-ravi") _ (true, "Login successful", ravi));
      by vm_compute.
Defined.

(** X19. [ensure_admin_exists] does its work once: on a users file in good
    order it never raises, afterwards an account with the admin email is
    on file, and every further call leaves the files as they are. *)
Theorem ensure_admin_once (fs : files) (users : list value) (now : str) :
  holds_users fs users → scalar_str now = true →
  ∃ fs1 users1,
    ensure_admin_exists fs now = Returned fs1 ∧
    holds_users fs1 users1 ∧
    existsb (has_email admin_email) users1 = true ∧
    ∀ now', ensure_admin_exists fs1 now' = Returned fs1.
Proof.
  intros Hh Hnow.
  destruct (ensure_admin_holds fs users now Hh Hnow) as (fs1 & He & Hh1 & _).
  exists fs1, (with_admin now users).
  assert (existsb (has_email admin_email) (with_admin now users) = true)
    as Hex.
  { unfold with_admin.
    destruct (existsb (has_email admin_email) users) eqn:Hex; [done|].
    by rewrite existsb_snoc, orb_true_r. }
  split; [done|]. split; [done|]. split; [done|].
  intros now'. destruct Hh1 as (Hr & _ & Hd).
  unfold ensure_admin_exists. by rewrite Hr, any_email_dicts, Hex.
Qed.

Lemma ensure_admin_once_witness :
  ∃ fs1, ensure_admin_exists ∅ (txt "t0") = Returned fs1 ∧
         ensure_admin_exists fs1 (txt "t1") = Returned fs1.
Proof.
  destruct (ensure_admin_once ∅ [] (txt "t0")) as (fs1 & _ & H1 & _ & _ & H2);
    [by repeat split|by vm_compute|].
  exists fs1. split; [exact H1|apply H2].
Defined.

(** X20. The admin email is open to registration: while no account has it,
    [register] accepts it like any other email, with whatever role and
    password are given; then [login] adds no default admin account, and
    the default password is refused unless it is the one registered. *)
Theorem admin_email_preempted (fs : files) (users : list value)
    (now now' name password role phone : str) (pic : value) :
  holds_users fs users →
  existsb (has_email admin_email) users = false →
  json_native (new_user now admin_email name password role phone pic) = true →
  scalar_str now' = true →
  password ≠ txt "admin123" →
  ∃ fs',
    register fs now admin_email name password role phone pic =
    Returned (fs', (true, "Account created successfully")) ∧
    holds_users fs'
      (users ++ [new_user now admin_email name password role phone pic]) ∧
    login fs' now' admin_email (txt "admin123") =
    Returned (fs', (false, "Invalid credentials", PNone)).
Proof.
  intros Hh Hex Hnat Hnow' Hpw.
  pose proof (holds_users_snoc fs users _ Hh Hnat eq_refl) as Hh'.
  eexists. split; [by rewrite (register_holds fs users), Hex|].
  split; [done|].
  destruct (login_holds _ _ now' admin_email (txt "admin123") Hh' Hnow')
    as (fs1 & Hl & _ & Hfs).
  rewrite Hl, (matching_registered _ now) by done.
  rewrite bool_decide_eq_false_2 by done.
  rewrite Hfs; [done|]. by rewrite existsb_snoc, orb_true_r.
Qed.

Lemma admin_email_preempted_witness :
  ∃ fs',
    register ∅ (txt "t0") admin_email (txt "Eve") (txt "pw") (txt "user") []
      PNone =
    Returned (fs', (true, "Account created successfully")) ∧
    login fs' (txt "t1") admin_email (txt "admin123") =
    Returned (fs', (false, "Invalid credentials", PNone)).
Proof.
  destruct (admin_email_preempted ∅ [] (txt "t0") (txt "t1") (txt "Eve")
              (txt "pw") (txt "user") [] PNone) as (fs' & H1 & _ & H2);
    [by repeat split|reflexivity|by vm_compute|by vm_compute|done|].
  by exists fs'.
Defined.

Lemma any_email_raises (pre post : list value) (u : value) (email : str) :
  Forall (λ u, is_dict u = true) pre →
  existsb (has_email email) pre = false →
  is_dict u = false →
  any_email (pre ++ u :: post) email = Raised.
Proof.
  intros Hpre Hex Hu. induction Hpre as [|x pre Hx Hpre IH].
  - by destruct u.
  - simpl in Hex. apply orb_false_elim in Hex as [Hx' Hex].
    destruct x; try done. cbn [app any_email get].
    unfold has_email in Hx'. cbn [account_email] in Hx'. rewrite Hx'.
    by apply IH.
Qed.

(** X21. One bad entry locks everybody out: when the users file holds a
    list with an entry that is not a record, and no entry before it has
    the admin email, every [login] raises, whatever the email and
    password; and [register] raises for every email that no entry before
    the bad one has. *)
Theorem bad_entry_raises (fs : files) (pre post : list value) (u : value) :
  read fs "users" (PList []) = Returned (PList (pre ++ u :: post)) →
  Forall (λ u, is_dict u = true) pre →
  is_dict u = false →
  (existsb (has_email admin_email) pre = false →
   ∀ now email password, login fs now email password = Raised) ∧
  (∀ now email name password role phone pic,
     existsb (has_email email) pre = false →
     register fs now email name password role phone pic = Raised).
Proof.
  intros Hr Hpre Hu. split.
  - intros Hex now email password. unfold login, ensure_admin_exists.
    by rewrite Hr, any_email_raises.
  - intros now email name password role phone pic Hex. unfold register.
    by rewrite Hr, any_email_raises.
Qed.

Lemma bad_entry_raises_witness :
  login (<[file_of "users" := txt "[7]"]> ∅) (txt "t0") (txt "a@b.org")
    (txt "pw") = Raised.
Proof.
  destruct (bad_entry_raises (<[file_of "users" := txt "[7]"]> ∅) [] []
              (PInt 7)) as [H _];
    [by vm_compute|constructor|reflexivity|by apply H].
Defined.

End AuthFacts.

(** ** Facts about roles, access and the audit log *)

Module ComponentsFacts.
Import Py Json Storage JsonMore Auth Components JsonFacts StorageFacts
  StorageMoreFacts.

Ltac by_deciding := apply (bool_decide_unpack _); by vm_compute.

Lemma eq_str_true (v : value) (s : str) : eq_str v s = true → v = PStr s.
Proof.
  destruct v; try done. simpl. by intros ->%bool_decide_eq_true.
Qed.

Lemma eq_str_refl (s : str) : eq_str (PStr s) s = true.
Proof. simpl. by apply bool_decide_eq_true_2. Qed.

(** X22. Who is turned away: [can_access_feature] refuses only when nobody
    is logged in, or when the page is one of the seven restricted pages and
    the role is not [admin].  So an admin reaches every page, and a page
    name the function does not list is open to everyone who is logged
    in. *)
Theorem access_denied_only (user : session_user) (feature_name : str) :
  can_access_feature user feature_name = false →
  no_user user = true ∨
  (feature_name ∈ restricted_pages ∧ user_role user ≠ PStr (txt "admin")).
Proof.
  unfold can_access_feature, restricted_pages.
  destruct (no_user user); [by left|]. intros Hdenied. right.
  rewrite !elem_of_app.
  repeat case_bool_decide; try done;
    (split; [tauto|]); intros Hrole; rewrite Hrole in Hdenied;
    by vm_compute in Hdenied.
Qed.

Lemma access_denied_only_witness :
  txt "Admin Panel" ∈ restricted_pages.
Proof.
  destruct (access_denied_only
              (Some [(KStr (txt "role"), PStr (txt "vet"))])
              (txt "Admin Panel")) as [Hno|[Hin _]];
    [by vm_compute|by vm_compute in Hno|exact Hin].
Defined.

(** X23. The gate and the pages agree: for each page that checks the role
    itself at the top of its [render], [can_access_feature] gives the
    answer of that check, for every session. *)
Theorem gate_agrees_with_guards (user : session_user) (page : str)
    (roles : list str) :
  (page, roles) ∈ page_guards →
  can_access_feature user page = has_role user roles.
Proof.
  unfold page_guards. rewrite !elem_of_cons, elem_of_nil.
  unfold can_access_feature, has_role.
  destruct (no_user user); [done|].
  intros [Heq|[Heq|[Heq|[Heq|[Heq|[Heq|[]]]]]]]; simplify_eq;
    generalize (user_role user); intros r;
    repeat (rewrite bool_decide_eq_false_2 by by_deciding);
    rewrite bool_decide_eq_true_2 by by_deciding;
    unfold among; cbn [existsb]; by rewrite ?orb_false_r.
Qed.

Lemma gate_agrees_with_guards_witness :
  can_access_feature (Some [(KStr (txt "role"), PStr (txt "vet"))])
    (txt "Vet Desk") = true.
Proof.
  rewrite (gate_agrees_with_guards _ (txt "Vet Desk") [txt "vet"; txt "admin"]);
    [reflexivity|by_deciding].
Defined.

(** X24. A user who is logged in with a role other than [admin], [vet] and
    [volunteer] -- the role [user], no role at all, or a role spelled in
    another way -- is refused exactly the seven restricted pages. *)
Theorem plain_user_refused (user : session_user) (feature_name : str) :
  no_user user = false →
  among (user_role user) [txt "admin"; txt "vet"; txt "volunteer"] = false →
  can_access_feature user feature_name =
  negb (bool_decide (feature_name ∈ restricted_pages)).
Proof.
  intros Hlogged Hplain. unfold can_access_feature.
  rewrite Hlogged. unfold among in *. cbn [existsb] in *.
  apply orb_false_elim in Hplain
    as [Ha [Hv [Hw _]%orb_false_elim]%orb_false_elim].
  rewrite Ha, Hv, Hw. cbn [orb].
  assert (Forall (λ p, p ∉ public_pages) restricted_pages) as Hdisj
    by by_deciding.
  rewrite Forall_forall in Hdisj.
  destruct (decide (feature_name ∈ restricted_pages)) as [Hin|Hout].
  - rewrite (bool_decide_eq_true_2 _ Hin).
    rewrite (bool_decide_eq_false_2 _ (Hdisj _ Hin)).
    unfold restricted_pages in Hin. rewrite !elem_of_app in Hin.
    repeat case_bool_decide; try done; tauto.
  - rewrite (bool_decide_eq_false_2 _ Hout).
    unfold restricted_pages in Hout. rewrite !elem_of_app in Hout.
    repeat case_bool_decide; try done; tauto.
Qed.

Lemma plain_user_refused_witness :
  can_access_feature (Some [(KStr (txt "email"), PStr (txt "a@b.org"))])
    (txt "Vet Desk") = false.
Proof.
  rewrite plain_user_refused; [by vm_compute|reflexivity|by vm_compute].
Defined.

(** X25. Nobody but an admin reaches both desks: a session that
    [can_access_feature] lets into the vet desk and into the volunteer
    desk has the role [admin]. *)
Theorem desks_exclusive (user : session_user) :
  can_access_feature user (txt "Vet Desk") = true →
  can_access_feature user (txt "Volunteer Desk") = true →
  user_role user = PStr (txt "admin").
Proof.
  unfold can_access_feature. destruct (no_user user); [done|].
  rewrite !(bool_decide_eq_false_2 (_ ∈ public_pages)) by by_deciding.
  rewrite !(bool_decide_eq_false_2 (_ ∈ admin_pages)) by by_deciding.
  rewrite (bool_decide_eq_true_2 (txt "Vet Desk" ∈ vet_pages))
    by by_deciding.
  rewrite (bool_decide_eq_false_2 (txt "Volunteer Desk" ∈ vet_pages))
    by by_deciding.
  rewrite (bool_decide_eq_true_2 (_ ∈ volunteer_pages)) by by_deciding.
  unfold among. cbn [existsb]. rewrite !orb_false_r.
  intros [Hvet|Hadmin]%orb_prop; [|intros _; by apply eq_str_true].
  intros [Hvol|Hadmin]%orb_prop; [|by apply eq_str_true].
  apply eq_str_true in Hvet, Hvol. rewrite Hvet in Hvol. by vm_compute in Hvol.
Qed.

Lemma desks_exclusive_witness :
  user_role (Some [(KStr (txt "role"), PStr (txt "admin"))]) =
  PStr (txt "admin").
Proof. apply desks_exclusive; by vm_compute. Defined.



(** X27. A damaged audit file is started afresh: when the file is there
    but its text is not JSON, or is JSON for something that is not a list,
    [audit_log] writes a log of one entry, the new one; what the file held
    is gone. *)
Theorem audit_log_starts_afresh (fs : files) (content : str) (now : str)
    (user : session_user) (event : str) (meta : option (list (key * value))) :
  fs !! file_of "audit" = Some content →
  (∀ logs, loads content ≠ Some (PList logs)) →
  audit_log fs now user event meta =
  Returned (write fs "audit" (PList [audit_record now user event meta])).
Proof.
  intros Hfile Hbad. unfold audit_log. rewrite read_accepted by done.
  unfold json_load. rewrite Hfile.
  destruct (loads content) as [data|] eqn:Hl; [|done].
  destruct data; try done. by destruct (Hbad items).
Qed.

Lemma audit_log_starts_afresh_witness :
  audit_log (<[file_of "audit" := txt "{}"]> ∅) (txt "t") None (txt "LOGIN")
    None =
  Returned (write (<[file_of "audit" := txt "{}"]> ∅) "audit"
              (PList [audit_record (txt "t") None (txt "LOGIN") None])).
Proof.
  apply (audit_log_starts_afresh _ (txt "{}")); [reflexivity|].
  intros logs. by vm_compute.
Defined.

End ComponentsFacts.

